(** * Reinforcement-learning navigation sketch of the hospital robot

    A shallow embedding of the Q-learning sketch of
    [hospital_robot_navigation.ino] (the second sketch of the file, written
    for the Zumo32U4, an ATmega32U4 board: [int] is 16 bits wide, [long] is
    32 bits wide), together with the properties of its learning core.

    Every global of the sketch is a field of [State]; every function of the
    sketch is a function on [State].  What the sketch reads from the hardware
    (calibrated sensor values, encoder counts, [millis()], [random()]) is an
    argument of the function that reads it.  What it writes to the serial
    port, the LCD, the buzzer and the motors does not flow back into the
    globals and is left out of the functions on [State], except for the
    reason that [checkEnd] prints and the figures that [endEpisode] prints,
    which are returned next to the state.  The speeds that a pass of [loop]
    hands to the motors and the fields that [outputMetrics] prints are
    functions of their own.

    The first sketch of the file, the scripted rounds, is embedded in the
    module [Scripted], as the sequence of what it hands to the motors, the
    buzzer and [delay]. *)

From Stdlib Require Import ZArith Lia Bool.
From Corelib Require Floats.SpecFloat.
From stdpp Require Import base option list strings.

Local Open Scope Z_scope.

(** ** Fixed-width integers

    Machine integers are values of [Z]; the conversion that a C assignment
    to a fixed-width variable performs is written out. *)

Definition u8 (x : Z) : Z := x mod 256.
Definition u16 (x : Z) : Z := x mod 65536.
Definition u32 (x : Z) : Z := x mod 4294967296.
Definition s8 (x : Z) : Z := (x + 128) mod 256 - 128.
Definition s16 (x : Z) : Z := (x + 32768) mod 65536 - 32768.

Definition in_u8 (x : Z) : Prop := 0 <= x <= 255.
Definition in_u16 (x : Z) : Prop := 0 <= x <= 65535.
Definition in_s8 (x : Z) : Prop := -128 <= x <= 127.
Definition in_s16 (x : Z) : Prop := -32768 <= x <= 32767.

(** ** Constants of the sketch *)

Definition NUM_SENSORS : Z := 5.
Definition NUM_LINE_STATES : Z := 8.
Definition NUM_SEGMENTS : Z := 10.
Definition NUM_ACTIONS : Z := 5.
Definition Q_TABLE_SIZE : Z := 80.

Definition EPS_MIN : Z := 13.
Definition EPS_DECAY : Z := 253.

Definition SEG_DIST : list Z :=
  [0; 600; 1400; 2200; 3000; 3600; 4400; 5200; 6000; 6800].

Definition TASK_LOCS : list Z := [5; 2; 3; 7; 8].

(** ** The globals *)

Record State : Type := mkState {
  Q : list (list Z);        (* int8_t Q[Q_TABLE_SIZE][NUM_ACTIONS] *)
  alpha : Z;                (* uint8_t *)
  gamma_d : Z;              (* uint8_t *)
  epsilon : Z;              (* uint8_t *)
  curSegment : Z;           (* uint8_t *)
  curLineState : Z;         (* uint8_t *)
  curAction : Z;            (* uint8_t *)
  totalDist : Z;            (* uint16_t *)
  episodeReward : Z;        (* int16_t *)
  bestReward : Z;           (* int16_t *)
  episode : Z;              (* uint8_t *)
  tasksComplete : Z;        (* uint8_t *)
  taskFlags : Z;            (* uint8_t *)
  running : bool;
  calibrated : bool;
  crossings : Z;            (* uint8_t *)
  startTime : Z;            (* unsigned long *)
  centered : Z;             (* uint16_t *)
  readings : Z;             (* uint16_t *)
  lostCount : Z             (* static uint16_t, local to checkEnd *)
}.

Definition set_Q (v : list (list Z)) (s : State) : State :=
  mkState v (alpha s) (gamma_d s) (epsilon s) (curSegment s) (curLineState s)
    (curAction s) (totalDist s) (episodeReward s) (bestReward s) (episode s)
    (tasksComplete s) (taskFlags s) (running s) (calibrated s) (crossings s)
    (startTime s) (centered s) (readings s) (lostCount s).

Definition set_epsilon (v : Z) (s : State) : State :=
  mkState (Q s) (alpha s) (gamma_d s) v (curSegment s) (curLineState s)
    (curAction s) (totalDist s) (episodeReward s) (bestReward s) (episode s)
    (tasksComplete s) (taskFlags s) (running s) (calibrated s) (crossings s)
    (startTime s) (centered s) (readings s) (lostCount s).

Definition set_curSegment (v : Z) (s : State) : State :=
  mkState (Q s) (alpha s) (gamma_d s) (epsilon s) v (curLineState s)
    (curAction s) (totalDist s) (episodeReward s) (bestReward s) (episode s)
    (tasksComplete s) (taskFlags s) (running s) (calibrated s) (crossings s)
    (startTime s) (centered s) (readings s) (lostCount s).

Definition set_curLineState (v : Z) (s : State) : State :=
  mkState (Q s) (alpha s) (gamma_d s) (epsilon s) (curSegment s) v
    (curAction s) (totalDist s) (episodeReward s) (bestReward s) (episode s)
    (tasksComplete s) (taskFlags s) (running s) (calibrated s) (crossings s)
    (startTime s) (centered s) (readings s) (lostCount s).

Definition set_curAction (v : Z) (s : State) : State :=
  mkState (Q s) (alpha s) (gamma_d s) (epsilon s) (curSegment s)
    (curLineState s) v (totalDist s) (episodeReward s) (bestReward s)
    (episode s) (tasksComplete s) (taskFlags s) (running s) (calibrated s)
    (crossings s) (startTime s) (centered s) (readings s) (lostCount s).

Definition set_totalDist (v : Z) (s : State) : State :=
  mkState (Q s) (alpha s) (gamma_d s) (epsilon s) (curSegment s)
    (curLineState s) (curAction s) v (episodeReward s) (bestReward s)
    (episode s) (tasksComplete s) (taskFlags s) (running s) (calibrated s)
    (crossings s) (startTime s) (centered s) (readings s) (lostCount s).

Definition set_episodeReward (v : Z) (s : State) : State :=
  mkState (Q s) (alpha s) (gamma_d s) (epsilon s) (curSegment s)
    (curLineState s) (curAction s) (totalDist s) v (bestReward s)
    (episode s) (tasksComplete s) (taskFlags s) (running s) (calibrated s)
    (crossings s) (startTime s) (centered s) (readings s) (lostCount s).

Definition set_bestReward (v : Z) (s : State) : State :=
  mkState (Q s) (alpha s) (gamma_d s) (epsilon s) (curSegment s)
    (curLineState s) (curAction s) (totalDist s) (episodeReward s) v
    (episode s) (tasksComplete s) (taskFlags s) (running s) (calibrated s)
    (crossings s) (startTime s) (centered s) (readings s) (lostCount s).

Definition set_episode (v : Z) (s : State) : State :=
  mkState (Q s) (alpha s) (gamma_d s) (epsilon s) (curSegment s)
    (curLineState s) (curAction s) (totalDist s) (episodeReward s)
    (bestReward s) v (tasksComplete s) (taskFlags s) (running s)
    (calibrated s) (crossings s) (startTime s) (centered s) (readings s)
    (lostCount s).

Definition set_tasksComplete (v : Z) (s : State) : State :=
  mkState (Q s) (alpha s) (gamma_d s) (epsilon s) (curSegment s)
    (curLineState s) (curAction s) (totalDist s) (episodeReward s)
    (bestReward s) (episode s) v (taskFlags s) (running s) (calibrated s)
    (crossings s) (startTime s) (centered s) (readings s) (lostCount s).

Definition set_taskFlags (v : Z) (s : State) : State :=
  mkState (Q s) (alpha s) (gamma_d s) (epsilon s) (curSegment s)
    (curLineState s) (curAction s) (totalDist s) (episodeReward s)
    (bestReward s) (episode s) (tasksComplete s) v (running s) (calibrated s)
    (crossings s) (startTime s) (centered s) (readings s) (lostCount s).

Definition set_running (v : bool) (s : State) : State :=
  mkState (Q s) (alpha s) (gamma_d s) (epsilon s) (curSegment s)
    (curLineState s) (curAction s) (totalDist s) (episodeReward s)
    (bestReward s) (episode s) (tasksComplete s) (taskFlags s) v
    (calibrated s) (crossings s) (startTime s) (centered s) (readings s)
    (lostCount s).

Definition set_calibrated (v : bool) (s : State) : State :=
  mkState (Q s) (alpha s) (gamma_d s) (epsilon s) (curSegment s)
    (curLineState s) (curAction s) (totalDist s) (episodeReward s)
    (bestReward s) (episode s) (tasksComplete s) (taskFlags s) (running s) v
    (crossings s) (startTime s) (centered s) (readings s) (lostCount s).

Definition set_crossings (v : Z) (s : State) : State :=
  mkState (Q s) (alpha s) (gamma_d s) (epsilon s) (curSegment s)
    (curLineState s) (curAction s) (totalDist s) (episodeReward s)
    (bestReward s) (episode s) (tasksComplete s) (taskFlags s) (running s)
    (calibrated s) v (startTime s) (centered s) (readings s) (lostCount s).

Definition set_startTime (v : Z) (s : State) : State :=
  mkState (Q s) (alpha s) (gamma_d s) (epsilon s) (curSegment s)
    (curLineState s) (curAction s) (totalDist s) (episodeReward s)
    (bestReward s) (episode s) (tasksComplete s) (taskFlags s) (running s)
    (calibrated s) (crossings s) v (centered s) (readings s) (lostCount s).

Definition set_centered (v : Z) (s : State) : State :=
  mkState (Q s) (alpha s) (gamma_d s) (epsilon s) (curSegment s)
    (curLineState s) (curAction s) (totalDist s) (episodeReward s)
    (bestReward s) (episode s) (tasksComplete s) (taskFlags s) (running s)
    (calibrated s) (crossings s) (startTime s) v (readings s) (lostCount s).

Definition set_readings (v : Z) (s : State) : State :=
  mkState (Q s) (alpha s) (gamma_d s) (epsilon s) (curSegment s)
    (curLineState s) (curAction s) (totalDist s) (episodeReward s)
    (bestReward s) (episode s) (tasksComplete s) (taskFlags s) (running s)
    (calibrated s) (crossings s) (startTime s) (centered s) v (lostCount s).

Definition set_lostCount (v : Z) (s : State) : State :=
  mkState (Q s) (alpha s) (gamma_d s) (epsilon s) (curSegment s)
    (curLineState s) (curAction s) (totalDist s) (episodeReward s)
    (bestReward s) (episode s) (tasksComplete s) (taskFlags s) (running s)
    (calibrated s) (crossings s) (startTime s) (centered s) (readings s) v.

(** The globals as their initialisers leave them.  [Q] has static storage,
    so it starts as all zeroes, which [setup] writes once more. *)

Definition zeroQ : list (list Z) :=
  replicate (Z.to_nat Q_TABLE_SIZE) (replicate (Z.to_nat NUM_ACTIONS) 0).

Definition power_on : State :=
  {| Q := zeroQ; alpha := 38; gamma_d := 242; epsilon := 77;
     curSegment := 0; curLineState := 0; curAction := 2;
     totalDist := 0; episodeReward := 0; bestReward := -1000;
     episode := 0; tasksComplete := 0; taskFlags := 0;
     running := false; calibrated := false;
     crossings := 0; startTime := 0; centered := 0; readings := 0;
     lostCount := 0 |}.

(** ** readSensors

    [sensorVals] is what [lineSensors.readCalibrated] delivers, [now] is the
    value of [millis()]. *)

Definition sensorBits (sensorVals : list Z) : Z :=
  foldl (fun bits i =>
           if 500 <? sensorVals !!! Z.to_nat i
           then u8 (Z.lor bits (Z.shiftl 1 (4 - i)))
           else bits)
        0 (seqZ 0 NUM_SENSORS).

Definition readSensors (sensorVals : list Z) (now : Z) (st : State) : State :=
  let bits := sensorBits sensorVals in
  let st :=
    if bits =? 0 then set_curLineState 0 st
    else if negb (Z.land bits 4 =? 0) then set_curLineState 4 st
    else if negb (Z.land bits 8 =? 0) then set_curLineState 3 st
    else if negb (Z.land bits 2 =? 0) then set_curLineState 5 st
    else if negb (Z.land bits 16 =? 0) then set_curLineState 2 st
    else if negb (Z.land bits 1 =? 0) then set_curLineState 6 st
    else if bits =? 31 then
      let st := set_curLineState 4 st in
      if 2000 <? u32 (now - startTime st)
      then set_crossings (u8 (crossings st + 1)) st
      else st
    else set_curLineState 4 st in
  let st := set_readings (u16 (readings st + 1)) st in
  if (3 <=? curLineState st) && (curLineState st <=? 5)
  then set_centered (u16 (centered st + 1)) st
  else st.

(** ** updatePosition

    [l] and [r] are the two encoder counts ([int16_t]).  [abs] is the
    Arduino macro [((x)>0?(x):-(x))], evaluated on 16-bit [int]. *)

Definition abs16 (x : Z) : Z := if 0 <? x then x else s16 (- x).

Fixpoint scanSegments (idx : list Z) (st : State) : State :=
  match idx with
  | [] => st
  | i :: rest =>
      if SEG_DIST !!! Z.to_nat i <=? totalDist st
      then (if curSegment st =? i then st else set_curSegment i st)
      else scanSegments rest st
  end.

Definition updatePosition (l r : Z) (st : State) : State :=
  let st :=
    set_totalDist (u16 (totalDist st + Z.quot (s16 (abs16 l + abs16 r)) 2)) st in
  scanSegments (reverse (seqZ 0 NUM_SEGMENTS)) st.

(** ** Q-learning *)

Definition encodeState (st : State) : Z :=
  u8 (curSegment st * NUM_LINE_STATES + curLineState st).

(** An access [Q[s][a]] outside the bounds of the array has no defined
    behaviour in C: the accessors answer [None] there. *)

Definition Qget (q : list (list Z)) (s a : Z) : option Z :=
  row ← q !! Z.to_nat s; row !! Z.to_nat a.

Definition Qset (q : list (list Z)) (s a v : Z) : option (list (list Z)) :=
  row ← q !! Z.to_nat s;
  _ ← row !! Z.to_nat a;
  Some (<[Z.to_nat s := <[Z.to_nat a := v]> row]> q).

(** The loop of the exploitation branch of [selectAction], over the actions
    still to visit, with the running [bestVal] and [bestAct]. *)

Fixpoint selectAction_scan (q : list (list Z)) (state : Z) (acts : list Z)
    (bestVal bestAct : Z) : option Z :=
  match acts with
  | [] => Some bestAct
  | a :: rest =>
      v ← Qget q state a;
      if bestVal <? v
      then selectAction_scan q state rest v a
      else selectAction_scan q state rest bestVal bestAct
  end.

Definition selectAction_exploit (q : list (list Z)) (state : Z) : option Z :=
  selectAction_scan q state (seqZ 0 NUM_ACTIONS) (-128) 2.

(** [rnd_eps] is the value of [random(255)], [rnd_act] that of
    [random(NUM_ACTIONS)]. *)

Definition selectAction (state rnd_eps rnd_act : Z) (st : State) : option Z :=
  if rnd_eps <? epsilon st then Some (u8 rnd_act)
  else selectAction_exploit (Q st) state.

Fixpoint updateQ_maxNext (q : list (list Z)) (s2 : Z) (acts : list Z)
    (maxNext : Z) : option Z :=
  match acts with
  | [] => Some maxNext
  | i :: rest =>
      v ← Qget q s2 i;
      updateQ_maxNext q s2 rest (if maxNext <? v then v else maxNext)
  end.

(** The three intermediate values of the update and the value of [newQ]
    before the two saturation tests, each in 16-bit [int] arithmetic. *)

Definition updateQ_target (gamma_d r maxNext : Z) : Z :=
  s16 (r + Z.quot (s16 (gamma_d * maxNext)) 255).

Definition updateQ_delta (target qsa : Z) : Z := s16 (target - qsa).

Definition updateQ_update (alpha delta : Z) : Z :=
  Z.quot (s16 (alpha * delta)) 255.

Definition updateQ_newQ (alpha gamma_d r maxNext qsa : Z) : Z :=
  let target := updateQ_target gamma_d r maxNext in
  let delta := updateQ_delta target qsa in
  let update := updateQ_update alpha delta in
  s16 (qsa + update).

Definition saturate (newQ : Z) : Z :=
  let newQ := if 127 <? newQ then 127 else newQ in
  if newQ <? -128 then -128 else newQ.

Definition updateQ (s a r s2 : Z) (st : State) : option State :=
  maxNext ← updateQ_maxNext (Q st) s2 (seqZ 0 NUM_ACTIONS) (-128);
  qsa ← Qget (Q st) s a;
  let newQ := updateQ_newQ (alpha st) (gamma_d st) r maxNext qsa in
  q' ← Qset (Q st) s a (s8 (saturate newQ));
  Some (set_Q q' st).

Definition calcReward (st : State) : Z :=
  let r := 0 in
  let r :=
    if curLineState st =? 4 then s8 (r + 3)
    else if (curLineState st =? 3) || (curLineState st =? 5) then s8 (r + 1)
    else if curLineState st =? 0 then s8 (r - 10)
    else s8 (r - 1) in
  let r :=
    if (curLineState st =? 4) && (curSegment st =? 5) then s8 (r + 5) else r in
  s8 (r - 1).

(** ** checkWaypoints *)

Definition checkWaypoints_step (st : State) (i : Z) : State :=
  let loc := TASK_LOCS !!! Z.to_nat i in
  if (curSegment st =? loc) && (Z.land (taskFlags st) (Z.shiftl 1 i) =? 0)
  then
    let st := set_taskFlags (u8 (Z.lor (taskFlags st) (Z.shiftl 1 i))) st in
    let st := set_tasksComplete (u8 (tasksComplete st + 1)) st in
    set_episodeReward (s16 (episodeReward st + 30)) st
  else st.

Definition checkWaypoints (st : State) : State :=
  foldl checkWaypoints_step st (seqZ 0 5).

(** ** Episode management

    [now] is the value of [millis()] where the function reads it. *)

Definition startEpisode (now : Z) (st : State) : State :=
  let st := set_episode (u8 (episode st + 1)) st in
  let st := set_episodeReward 0 st in
  let st := set_totalDist 0 st in
  let st := set_curSegment 0 st in
  let st := set_tasksComplete 0 st in
  let st := set_taskFlags 0 st in
  let st := set_crossings 0 st in
  let st := set_centered 0 st in
  let st := set_readings 0 st in
  let st := set_startTime (u32 now) st in
  set_running true st.

(** The reason that [checkEnd] prints when it answers [true]. *)

Inductive EndReason : Type := Timeout | Complete | Lost.

Definition checkEnd (now : Z) (st : State) : State * option EndReason :=
  if 45000 <? u32 (now - startTime st) then (st, Some Timeout)
  else if (5 <=? tasksComplete st) && (9 <=? curSegment st)
  then (st, Some Complete)
  else if curLineState st =? 0 then
    let st := set_lostCount (u16 (lostCount st + 1)) st in
    if 100 <? lostCount st then (st, Some Lost) else (st, None)
  else (set_lostCount 0 st, None).

(** The figures of the summary that [endEpisode] prints. *)

Record Summary : Type := mkSummary {
  sum_tasks : Z;
  sum_tcr : Z;
  sum_lfa : Z;
  sum_reward : Z;
  sum_best : Z;
  sum_epsilon : Z
}.

Definition endEpisode (now : Z) (st : State) : State * Summary :=
  let st := set_running false st in
  let st := set_epsilon (u8 (u16 (u16 (epsilon st) * EPS_DECAY) / 255)) st in
  let st := if epsilon st <? EPS_MIN then set_epsilon EPS_MIN st else st in
  let st :=
    if bestReward st <? episodeReward st
    then set_bestReward (episodeReward st) st else st in
  let lfa :=
    if 0 <? readings st then u8 (u16 (u16 (centered st) * 100) / readings st)
    else 0 in
  let tcr := u8 (tasksComplete st * 20) in
  let summary :=
    mkSummary (tasksComplete st) tcr lfa (episodeReward st) (bestReward st)
      (Z.quot (s16 (epsilon st * 100)) 255) in
  (startEpisode now st, summary).

(** ** setup and loop *)

Definition setup (now : Z) (st : State) : State :=
  let st := set_Q zeroQ st in
  let st := set_calibrated true st in
  startEpisode now st.

(** What one pass of [loop] reads from the hardware. *)

Record Tick : Type := mkTick {
  tick_sensorVals : list Z;   (* lineSensors.readCalibrated *)
  tick_encL : Z;              (* encoders.getCountsAndResetLeft *)
  tick_encR : Z;              (* encoders.getCountsAndResetRight *)
  tick_rnd_eps : Z;           (* random(255) *)
  tick_rnd_act : Z;           (* random(NUM_ACTIONS) *)
  tick_now : Z;               (* millis() during the pass *)
  tick_restart : Z            (* millis() in startEpisode, if the episode ends *)
}.

(** Steps 1 to 6 of [loop].  Step 7 prints the metrics every 500 ms and
    keeps the time of the last print in a static of its own; the [delay]
    that ends the pass only lets time go by. *)

Definition loop_body (t : Tick) (st : State) : option State :=
  let st := readSensors (tick_sensorVals t) (tick_now t) st in
  let st := updatePosition (tick_encL t) (tick_encR t) st in
  let state := encodeState st in
  a ← selectAction state (tick_rnd_eps t) (tick_rnd_act t) st;
  let st := set_curAction a st in
  let reward := calcReward st in
  let st := set_episodeReward (s16 (episodeReward st + reward)) st in
  let nextState := encodeState st in
  st ← updateQ state (curAction st) reward nextState st;
  Some (checkWaypoints st).

Definition loop (t : Tick) (st : State)
    : option (State * option (EndReason * Summary)) :=
  if negb (running st) then Some (st, None)
  else
    st ← loop_body t st;
    match checkEnd (tick_now t) st with
    | (st, Some reason) =>
        let '(st, summary) := endEpisode (tick_restart t) st in
        Some (st, Some (reason, summary))
    | (st, None) => Some (st, None)
    end.

(** A run of [loop] over a stream of hardware readings, with the reports of
    the episodes that ended on the way. *)

Fixpoint run (ticks : list Tick) (st : State)
    : option (State * list (EndReason * Summary)) :=
  match ticks with
  | [] => Some (st, [])
  | t :: rest =>
      '(st, report) ← loop t st;
      '(st, reports) ← run rest st;
      Some (st, option_list report ++ reports)
  end.

(** * Vocabulary of the properties *)

(** A well-formed table: [Q_TABLE_SIZE] rows of [NUM_ACTIONS] values of
    [int8_t]. *)

Definition wfRow (row : list Z) : Prop :=
  length row = Z.to_nat NUM_ACTIONS ∧ Forall in_s8 row.

Definition wfQ (q : list (list Z)) : Prop :=
  length q = Z.to_nat Q_TABLE_SIZE ∧ Forall wfRow q.

(** Every entry of the table is at least [lo]. *)

Definition Qabove (lo : Z) (q : list (list Z)) : Prop :=
  Forall (Forall (fun v => lo <= v)) q.

(** [a] indexes a greatest value of [row]. *)

Definition greatest_at (row : list Z) (a : Z) : Prop :=
  ∃ v, row !! Z.to_nat a = Some v ∧ ∀ j w, row !! j = Some w → w <= v.

(** [a] is the lowest index of a greatest value of [row]. *)

Definition first_greatest_at (row : list Z) (a : Z) : Prop :=
  ∃ v, row !! Z.to_nat a = Some v
       ∧ (∀ j w, row !! j = Some w → w <= v)
       ∧ (∀ j w, (j < Z.to_nat a)%nat → row !! j = Some w → w < v).

(** The line state that [readSensors] stores for a sensor bit mask: the
    branches of its cascade that can be taken. *)

Definition lineStateOf (bits : Z) : Z :=
  if bits =? 0 then 0
  else if negb (Z.land bits 4 =? 0) then 4
  else if negb (Z.land bits 8 =? 0) then 3
  else if negb (Z.land bits 2 =? 0) then 5
  else if negb (Z.land bits 16 =? 0) then 2
  else if negb (Z.land bits 1 =? 0) then 6
  else 4.

(** The index at which the downward scan of [updatePosition] stops. *)

Fixpoint findSegment (idx : list Z) (dist : Z) : option Z :=
  match idx with
  | [] => None
  | i :: rest =>
      if SEG_DIST !!! Z.to_nat i <=? dist then Some i else findSegment rest dist
  end.

(** The number of task flags that are set. *)

Definition bit (flags i : Z) : Z := if Z.testbit flags i then 1 else 0.

Definition popcount5 (flags : Z) : Z :=
  bit flags 0 + bit flags 1 + bit flags 2 + bit flags 3 + bit flags 4.

(** The globals that steps 1 to 6 of [loop] never write. *)

Definition same_params (st st' : State) : Prop :=
  epsilon st' = epsilon st ∧ alpha st' = alpha st ∧ gamma_d st' = gamma_d st
  ∧ lostCount st' = lostCount st ∧ startTime st' = startTime st
  ∧ bestReward st' = bestReward st ∧ running st' = running st
  ∧ episode st' = episode st ∧ crossings st' = crossings st.

(** What [random(NUM_ACTIONS)] can deliver. *)

Definition tick_ok (t : Tick) : Prop := 0 <= tick_rnd_act t < NUM_ACTIONS.

(** The invariant of the globals between two passes of [loop]. *)

Record Inv (st : State) : Prop := mkInv {
  inv_Q : wfQ (Q st);
  inv_floor : Qabove (-126) (Q st);
  inv_segment : 0 <= curSegment st <= 9;
  inv_line : 0 <= curLineState st <= 7;
  inv_flags : 0 <= taskFlags st <= 31;
  inv_tasks : tasksComplete st = popcount5 (taskFlags st);
  inv_epsilon : EPS_MIN <= epsilon st <= 255;
  inv_alpha : alpha st = 38;
  inv_gamma : gamma_d st = 242;
  inv_lost : 0 <= lostCount st <= 65535;
  inv_running : running st = true
}.

(** The states of the globals that the sketch reaches between two passes of
    [loop], from [setup] on, whatever the hardware delivers. *)

Inductive reachable : State → Prop :=
| reachable_setup now : reachable (setup now power_on)
| reachable_loop t st st' report :
    reachable st → tick_ok t → loop t st = Some (st', report) →
    reachable st'.

(** The three termination predicates of [checkEnd]; the third one is tested
    on the counter after its increment. *)

Definition timed_out (now : Z) (st : State) : Prop :=
  45000 < u32 (now - startTime st).

Definition all_done (st : State) : Prop :=
  tasksComplete st = 5 ∧ 9 <= curSegment st.

Definition lost_too_long (st : State) : Prop :=
  curLineState st = 0 ∧ 100 < u16 (lostCount st + 1).

(** The line state that a pass of [loop] reads from the sensors. *)

Definition senses (t : Tick) : Z :=
  lineStateOf (sensorBits (tick_sensorVals t)).

(** A pass during which the wheels do not turn, within the time budget of
    an episode started at [start]. *)

Definition quiet_tick (start : Z) (t : Tick) : Prop :=
  tick_ok t ∧ tick_encL t = 0 ∧ tick_encR t = 0
  ∧ u32 (tick_now t - start) <= 45000.

(** The globals of an episode in which the robot has stayed in segment 0. *)

Definition at_start (st : State) : Prop :=
  totalDist st = 0 ∧ taskFlags st = 0 ∧ tasksComplete st = 0.

(** Setting a clear flag among the five adds one to the number of set
    flags: the check that is run on each of the 32 flag words. *)

Definition flag_step_ok (flags i : Z) : bool :=
  Z.testbit flags i
  || ((u8 (Z.lor flags (Z.shiftl 1 i)) <=? 31)
      && (popcount5 (u8 (Z.lor flags (Z.shiftl 1 i))) =? popcount5 flags + 1)
      && (u8 (popcount5 flags + 1) =? popcount5 flags + 1)).

(** ** Hardware readings used in examples

    A pass with the centre sensor on the line and a pass with no sensor on
    the line, both with the wheels at rest, one second after time 0. *)

Definition tick_on_line : Tick := mkTick [0; 0; 1000; 0; 0] 0 0 200 0 1000 50000.

Definition tick_off_line : Tick := mkTick [0; 0; 0; 0; 0] 0 0 10 3 1000 50000.

(** Globals at which all three termination predicates hold at time 50000,
    and the last two at time 100. *)

Definition state_all_three : State :=
  set_lostCount 200
    (set_curLineState 0
       (set_curSegment 9 (set_tasksComplete 5 (setup 0 power_on)))).

(** A pass off the line in the episode that starts at time 50000. *)

Definition tick_off_line_later : Tick :=
  mkTick [0; 0; 0; 0; 0] 0 0 10 3 50100 99000.

(** The episode of two passes on the line and 101 passes off the line, the
    globals after it and the report it leaves. *)

Definition lost_episode : list Tick :=
  tick_on_line :: tick_on_line :: replicate 101 tick_off_line.

Definition after_lost_episode : State :=
  Eval vm_compute in
    from_option fst power_on (run lost_episode (setup 0 power_on)).

Definition lost_episode_reports : list (EndReason * Summary) :=
  Eval vm_compute in
    from_option snd [] (run lost_episode (setup 0 power_on)).

(** ** Proof steps that recur *)

(** A fact about a list lookup at each index of a five-element row. *)

Ltac by_index j H :=
  repeat (destruct j as [|j]; [simpl in H; injection H as H; lia|]);
  simpl in H; discriminate H.

(** Projections of the globals after assignments. *)

Ltac simpl_state :=
  cbn [Q alpha gamma_d epsilon curSegment curLineState curAction totalDist
       episodeReward bestReward episode tasksComplete taskFlags running
       calibrated crossings startTime centered readings lostCount
       set_Q set_epsilon set_curSegment set_curLineState set_curAction
       set_totalDist set_episodeReward set_bestReward set_episode
       set_tasksComplete set_taskFlags set_running set_calibrated
       set_crossings set_startTime set_centered set_readings set_lostCount
       startEpisode setup power_on] in *.

(** All five task flags are set exactly when five flags are set: the check
    that is run on each of the 32 flag words. *)

Definition full_flags_ok (flags : Z) : bool :=
  Bool.eqb (popcount5 flags =? 5) (flags =? 31).

(** A pass on the line during which both encoders count [d], and a tour of
    the course: five passes that reach the segments 2, 3, 5, 7 and 8, the
    globals after them, and what the sixth pass, which reaches segment 9,
    leaves and reports. *)

Definition tick_drive (d : Z) : Tick :=
  mkTick [0; 0; 1000; 0; 0] d d 200 0 1000 50000.

Definition tour_ticks : list Tick :=
  tick_drive <$> [1400; 800; 1400; 1600; 800].

Definition before_last_leg : State :=
  Eval vm_compute in
    from_option fst power_on (run tour_ticks (setup 0 power_on)).

Definition after_tour : State :=
  Eval vm_compute in
    from_option fst power_on (loop (tick_drive 800) before_last_leg).

Definition tour_summary : Summary :=
  {| sum_tasks := 5; sum_tcr := 100; sum_lfa := 100; sum_reward := 167;
     sum_best := 167; sum_epsilon := 29 |}.

(** The globals after the first pass of the first episode, on the line. *)

Definition after_first_pass : State :=
  Eval vm_compute in
    from_option id power_on (loop_body tick_on_line (setup 0 power_on)).

(** ** The motor command of a pass of [loop]

    [ACTIONS] is a table of [int8_t] in program memory.  [pgm_read_byte]
    answers the byte at an address as a [uint8_t]; the initialisation of
    [lSpd] and [rSpd], both [int8_t], converts it back.  An index outside
    the table has no defined behaviour. *)

Definition ACTIONS : list (Z * Z) :=
  [(-80, 80); (40, 100); (100, 100); (100, 40); (80, -80)].

Definition pgm_read_byte (v : Z) : Z := u8 v.

Definition motorSpeeds (a : Z) : option (Z * Z) :=
  '(l, r) ← ACTIONS !! Z.to_nat a;
  Some (s8 (pgm_read_byte l), s8 (pgm_read_byte r)).

(** Steps 1 to 3 of [loop]: the pair of speeds that the pass hands to
    [motors.setSpeeds]. *)

Definition loop_motors (t : Tick) (st : State) : option (Z * Z) :=
  let st := readSensors (tick_sensorVals t) (tick_now t) st in
  let st := updatePosition (tick_encL t) (tick_encR t) st in
  let state := encodeState st in
  a ← selectAction state (tick_rnd_eps t) (tick_rnd_act t) st;
  let st := set_curAction a st in
  motorSpeeds (curAction st).

(** ** outputMetrics

    The fields of the overlay line that [outputMetrics] prints.  The name
    of the location is copied into [buf], an array of 8 characters:
    [strcpy_P] has no defined behaviour unless the characters of the name
    and the closing NUL fit, and neither has the read of [LOC_NAMES]
    outside its ten entries. *)

Definition LOC_NAMES : list string :=
  ["START"; "CORR1"; "PT_RM1"; "PT_RM2"; "CORR2";
   "NURSE"; "CORR3"; "PHARM"; "RADIO"; "CORR4"]%string.

Definition strcpy_P (size : Z) (src : string) : option string :=
  if Z.of_nat (String.length src) + 1 <=? size then Some src else None.

Record Metrics : Type := mkMetrics {
  met_loc : string;
  met_tcr : Z;
  met_lfa : Z;
  met_reward : Z;
  met_best : Z;
  met_epsilon : Z;
  met_tasks : Z
}.

Definition outputMetrics (st : State) : option Metrics :=
  let lfa :=
    if 0 <? readings st then u8 (u16 (u16 (centered st) * 100) / readings st)
    else 0 in
  let tcr := u8 (tasksComplete st * 20) in
  name ← LOC_NAMES !! Z.to_nat (curSegment st);
  buf ← strcpy_P 8 name;
  Some (mkMetrics buf tcr lfa (episodeReward st) (bestReward st)
          (Z.quot (s16 (epsilon st * 100)) 255) (tasksComplete st)).

(** A clock value shortly before [millis()] rolls over. *)

Definition before_rollover : Z := 4294960000.

(** * The scripted rounds

    The first sketch of [hospital_robot_navigation.ino] drives the robot
    through its rounds by a fixed script.  A run of statements is the list
    of what it hands to the motors, to the buzzer and to [delay], in
    order, or [None] where the C code has no defined behaviour; the text
    for the serial port and the LCD is left out.  The sketch has a
    [setup] and a [loop] of its own, so its model is a module. *)

Module Scripted.

Definition HOSPITAL_SPEED : Z := 120.
Definition CAREFUL_SPEED : Z := 80.
Definition TURN_SPEED : Z := 100.

Definition CORRIDOR_TIME : Z := 1200.
Definition ROOM_APPROACH : Z := 800.
Definition STATION_PAUSE : Z := 2000.
Definition DELIVERY_TIME : Z := 1500.
Definition TURN_90 : Z := 450.
Definition TURN_45 : Z := 225.

Inductive HospitalState : Type :=
| NURSE_STATION
| TO_PATIENT_1
| AT_PATIENT_1
| TO_PATIENT_2
| AT_PATIENT_2
| TO_PHARMACY
| AT_PHARMACY
| RETURN_TO_NURSE
| MISSION_COMPLETE.

Inductive Event : Type :=
| Motor (left right : Z)        (* motors.setSpeeds *)
| Delay (ms : Z)                (* delay *)
| Tone (freq dur vol : Z).      (* buzzer.playFrequency *)

Definition Script : Type := option (list Event).

Definition seq (a b : Script) : Script := x ← a; y ← b; Some (x ++ y).

Declare Scope script_scope.
Delimit Scope script_scope with script.
Bind Scope script_scope with Script.
Notation "a ;; b" := (seq a b)
  (at level 100, b at level 200, right associativity) : script_scope.
Local Open Scope script_scope.

Definition setSpeeds (l r : Z) : Script := Some [Motor l r].
Definition playFrequency (freq dur vol : Z) : Script := Some [Tone freq dur vol].

(** [delay] takes an [unsigned long]: an [int] argument is converted. *)

Definition delay (ms : Z) : Script := Some [Delay (u32 ms)].

(** Two delays of the script are products of an [int] and a floating-point
    literal.  On this board [double] is the 32-bit format: the [int] is
    converted to it, the literal is the value of the format nearest to the
    decimal, the product is rounded to the format, and the conversion to
    the [unsigned long] of [delay] drops the fraction; it has no defined
    behaviour for a value that does not fit. *)

Definition f32_of_int (n : Z) : SpecFloat.spec_float :=
  SpecFloat.binary_normalize 24 128 n 0 false.

Definition f32_literal (num den : Z) : SpecFloat.spec_float :=
  SpecFloat.SFdiv 24 128 (f32_of_int num) (f32_of_int den).

Definition f32_mul (x y : SpecFloat.spec_float) : SpecFloat.spec_float :=
  SpecFloat.SFmul 24 128 x y.

Definition f32_to_ulong (x : SpecFloat.spec_float) : option Z :=
  match x with
  | SpecFloat.S754_zero _ => Some 0
  | SpecFloat.S754_finite s m e =>
      let v := if 0 <=? e then Z.pos m * 2 ^ e else Z.pos m / 2 ^ (- e) in
      if s then (if v =? 0 then Some 0 else None)
      else if v <? 4294967296 then Some v else None
  | _ => None
  end.

Definition delay_f32 (x : SpecFloat.spec_float) : Script :=
  ms ← f32_to_ulong x; Some [Delay ms].

(** ** Smooth movement functions *)

Definition stopMotors : Script := setSpeeds 0 0.

(** The loop of [smoothAccelerate] from the value [speed] of its counter
    on.  The counter is an [int]: its increment has no defined behaviour
    when it leaves the type.  [fuel] bounds the number of iterations. *)

Fixpoint smoothAccelerate_loop (fuel : nat) (speed targetSpeed : Z) : Script :=
  if speed <=? targetSpeed then
    match fuel with
    | O => None
    | S fuel =>
        setSpeeds speed speed ;;
        delay 50 ;;
        if speed + 20 <=? 32767
        then smoothAccelerate_loop fuel (speed + 20) targetSpeed
        else None
    end
  else Some [].

Definition smoothAccelerate (targetSpeed : Z) : Script :=
  smoothAccelerate_loop (S (Z.to_nat targetSpeed)) 0 targetSpeed ;;
  setSpeeds targetSpeed targetSpeed.

Fixpoint smoothDecelerate_loop (fuel : nat) (speed : Z) : Script :=
  if 0 <=? speed then
    match fuel with
    | O => None
    | S fuel =>
        setSpeeds speed speed ;;
        delay 50 ;;
        smoothDecelerate_loop fuel (speed - 20)
    end
  else Some [].

Definition smoothDecelerate : Script :=
  smoothDecelerate_loop (S (Z.to_nat HOSPITAL_SPEED)) HOSPITAL_SPEED ;;
  stopMotors.

Definition turnLeftSmooth (duration : Z) : Script :=
  setSpeeds (s16 (- TURN_SPEED)) TURN_SPEED ;;
  delay duration ;;
  stopMotors ;;
  delay 200.

Definition turnRightSmooth (duration : Z) : Script :=
  setSpeeds TURN_SPEED (s16 (- TURN_SPEED)) ;;
  delay duration ;;
  stopMotors ;;
  delay 200.

(** ** Audio feedback functions *)

Definition playStartupMelody : Script :=
  playFrequency 523 150 12 ;;
  delay 200 ;;
  playFrequency 659 150 12 ;;
  delay 200 ;;
  playFrequency 784 300 12 ;;
  delay 400.

Definition playMovingTone : Script := playFrequency 440 100 8.

Definition playArrivalTone : Script :=
  playFrequency 698 150 10 ;;
  delay 200 ;;
  playFrequency 880 200 10.

Definition playPickupTone : Script :=
  playFrequency 523 100 10 ;;
  delay 150 ;;
  playFrequency 659 100 10 ;;
  delay 150 ;;
  playFrequency 523 100 10.

Definition playConfirmTone : Script :=
  playFrequency 880 150 10 ;;
  delay 100 ;;
  playFrequency 880 150 10.

Definition playCompleteMelody : Script :=
  playFrequency 523 150 12 ;;
  delay 200 ;;
  playFrequency 659 150 12 ;;
  delay 200 ;;
  playFrequency 784 150 12 ;;
  delay 200 ;;
  playFrequency 1047 400 12 ;;
  delay 500.

(** ** State handlers

    Each handler but the last ends with its assignment to [currentState],
    given after the handler as the state that it leaves. *)

Definition handleNurseStation : Script :=
  playPickupTone ;;
  delay STATION_PAUSE.

Definition navigateToPatient1 : Script :=
  playMovingTone ;;
  smoothAccelerate HOSPITAL_SPEED ;;
  delay CORRIDOR_TIME ;;
  smoothDecelerate ;;
  delay 200 ;;
  turnLeftSmooth TURN_90 ;;
  smoothAccelerate CAREFUL_SPEED ;;
  delay ROOM_APPROACH ;;
  smoothDecelerate.

Definition handlePatientRoom1 : Script :=
  playArrivalTone ;;
  delay 500 ;;
  delay DELIVERY_TIME ;;
  playConfirmTone ;;
  delay 500.

Definition navigateToPatient2 : Script :=
  playMovingTone ;;
  turnRightSmooth TURN_90 ;;
  delay 200 ;;
  smoothAccelerate HOSPITAL_SPEED ;;
  delay CORRIDOR_TIME ;;
  smoothDecelerate ;;
  turnLeftSmooth TURN_90 ;;
  delay 200 ;;
  smoothAccelerate CAREFUL_SPEED ;;
  delay ROOM_APPROACH ;;
  smoothDecelerate.

Definition handlePatientRoom2 : Script :=
  playArrivalTone ;;
  delay 500 ;;
  delay DELIVERY_TIME ;;
  playConfirmTone ;;
  delay 500.

Definition navigateToPharmacy : Script :=
  playMovingTone ;;
  turnRightSmooth TURN_90 ;;
  delay 200 ;;
  smoothAccelerate HOSPITAL_SPEED ;;
  delay CORRIDOR_TIME ;;
  smoothDecelerate ;;
  turnRightSmooth TURN_90 ;;
  delay 200 ;;
  smoothAccelerate HOSPITAL_SPEED ;;
  delay_f32 (f32_mul (f32_of_int CORRIDOR_TIME) (f32_literal 8 10)) ;;
  smoothDecelerate.

Definition handlePharmacy : Script :=
  playArrivalTone ;;
  delay STATION_PAUSE ;;
  playPickupTone ;;
  delay 500.

Definition returnToNurseStation : Script :=
  playMovingTone ;;
  turnRightSmooth (s16 (TURN_90 * 2)) ;;
  delay 200 ;;
  smoothAccelerate HOSPITAL_SPEED ;;
  delay_f32 (f32_mul (f32_of_int CORRIDOR_TIME) (f32_literal 15 10)) ;;
  smoothDecelerate ;;
  turnLeftSmooth TURN_90 ;;
  delay 200 ;;
  smoothAccelerate CAREFUL_SPEED ;;
  delay ROOM_APPROACH ;;
  smoothDecelerate.

(** [missionComplete] never returns: after these statements it repeats
    [delay(1000)] for ever. *)

Definition missionComplete : Script :=
  playCompleteMelody ;;
  stopMotors.

(** ** setup and loop *)

Definition setup : Script :=
  playStartupMelody ;;
  delay 1000.

(** How a pass of [loop] ends: it returns with a value of [currentState],
    or it stays in the closing loop of [missionComplete]. *)

Inductive Outcome : Type :=
| Returns (currentState : HospitalState)
| Idles.

Definition loop (currentState : HospitalState)
    : option (list Event * Outcome) :=
  match currentState with
  | NURSE_STATION =>
      tr ← handleNurseStation; Some (tr, Returns TO_PATIENT_1)
  | TO_PATIENT_1 =>
      tr ← navigateToPatient1; Some (tr, Returns AT_PATIENT_1)
  | AT_PATIENT_1 =>
      tr ← handlePatientRoom1; Some (tr, Returns TO_PATIENT_2)
  | TO_PATIENT_2 =>
      tr ← navigateToPatient2; Some (tr, Returns AT_PATIENT_2)
  | AT_PATIENT_2 =>
      tr ← handlePatientRoom2; Some (tr, Returns TO_PHARMACY)
  | TO_PHARMACY =>
      tr ← navigateToPharmacy; Some (tr, Returns AT_PHARMACY)
  | AT_PHARMACY =>
      tr ← handlePharmacy; Some (tr, Returns RETURN_TO_NURSE)
  | RETURN_TO_NURSE =>
      tr ← returnToNurseStation; Some (tr, Returns MISSION_COMPLETE)
  | MISSION_COMPLETE =>
      tr ← missionComplete; Some (tr, Idles)
  end.

(** [n] passes of [loop], as the Arduino core calls it again and again,
    up to the pass that does not return. *)

Fixpoint passes (n : nat) (currentState : HospitalState)
    : option (list Event * Outcome) :=
  match n with
  | O => Some ([], Returns currentState)
  | S n =>
      '(tr, out) ← loop currentState;
      match out with
      | Returns s => '(tr', out') ← passes n s; Some (tr ++ tr', out')
      | Idles => Some (tr, Idles)
      end
  end.

(** ** Vocabulary of the properties of the script *)

(** The pairs of speeds that a run hands to the motors, in order. *)

Definition motor_commands (tr : list Event) : list (Z * Z) :=
  omap (fun e => match e with Motor l r => Some (l, r) | _ => None end) tr.

(** The run leaves the motors stopped, if it commands them at all. *)

Definition ends_stopped (tr : list Event) : Prop :=
  last (motor_commands tr) = None ∨ last (motor_commands tr) = Some (0, 0).

(** Every command that sets a wheel in motion comes after the sound of
    [playMovingTone] in the run. *)

Definition announced (tr : list Event) : Prop :=
  ∀ pre l r post,
    tr = pre ++ Motor l r :: post → (l, r) ≠ (0, 0) →
    In (Tone 440 100 8) pre.

(** The same as a check over the run, with the flag of a tone heard. *)

Fixpoint announced_from (heard : bool) (tr : list Event) : bool :=
  match tr with
  | [] => true
  | Tone freq dur vol :: rest =>
      announced_from
        (heard || ((freq =? 440) && (dur =? 100) && (vol =? 8))) rest
  | Motor l r :: rest =>
      (heard || ((l =? 0) && (r =? 0))) && announced_from heard rest
  | Delay _ :: rest => announced_from heard rest
  end.

End Scripted.

(** * Properties *)

(** ** Fixed-width conversions on values in range *)

Lemma u8_id x : 0 <= x <= 255 → u8 x = x.
Proof. intros H. unfold u8. apply Z.mod_small. lia. Qed.

Lemma u16_id x : 0 <= x <= 65535 → u16 x = x.
Proof. intros H. unfold u16. apply Z.mod_small. lia. Qed.

Lemma s8_id x : -128 <= x <= 127 → s8 x = x.
Proof. intros H. unfold s8. rewrite Z.mod_small; lia. Qed.

Lemma s16_id x : -32768 <= x <= 32767 → s16 x = x.
Proof. intros H. unfold s16. rewrite Z.mod_small; lia. Qed.

Lemma u8_range x : 0 <= u8 x <= 255.
Proof. unfold u8. pose proof (Z.mod_pos_bound x 256). lia. Qed.

Lemma u16_range x : 0 <= u16 x <= 65535.
Proof. unfold u16. pose proof (Z.mod_pos_bound x 65536). lia. Qed.

Lemma saturate_clamp x : saturate x = Z.max (-128) (Z.min 127 x).
Proof.
  unfold saturate.
  destruct (Z.ltb_spec 127 x) as [H|H].
  - destruct (Z.ltb_spec 127 (-128)); lia.
  - destruct (Z.ltb_spec x (-128)); lia.
Qed.

Lemma saturate_range x : -128 <= saturate x <= 127.
Proof. rewrite saturate_clamp. lia. Qed.

Lemma seqZ_actions : seqZ 0 NUM_ACTIONS = [0; 1; 2; 3; 4].
Proof. reflexivity. Qed.

(** ** Reading and writing a well-formed table *)

Lemma Qget_row q s a row :
  q !! Z.to_nat s = Some row → Qget q s a = row !! Z.to_nat a.
Proof. intros H. unfold Qget. rewrite H. reflexivity. Qed.

Lemma wfQ_row q s :
  wfQ q → 0 <= s < Q_TABLE_SIZE → ∃ row, q !! Z.to_nat s = Some row ∧ wfRow row.
Proof.
  intros [Hlen Hrows] Hs.
  destruct (lookup_lt_is_Some_2 q (Z.to_nat s)) as [row Hrow].
  { rewrite Hlen. unfold Q_TABLE_SIZE in *. lia. }
  exists row. split; [exact Hrow|].
  exact (Forall_lookup_1 _ _ _ _ Hrows Hrow).
Qed.

Lemma wfRow_get row a :
  wfRow row → 0 <= a < NUM_ACTIONS → ∃ v, row !! Z.to_nat a = Some v ∧ in_s8 v.
Proof.
  intros [Hlen Hvals] Ha.
  destruct (lookup_lt_is_Some_2 row (Z.to_nat a)) as [v Hv].
  { rewrite Hlen. unfold NUM_ACTIONS in *. lia. }
  exists v. split; [exact Hv|].
  exact (Forall_lookup_1 _ _ _ _ Hvals Hv).
Qed.

Lemma wfQ_get q s a :
  wfQ q → 0 <= s < Q_TABLE_SIZE → 0 <= a < NUM_ACTIONS →
  ∃ v, Qget q s a = Some v ∧ in_s8 v.
Proof.
  intros Hq Hs Ha.
  destruct (wfQ_row q s Hq Hs) as (row & Hrow & Hwf).
  destruct (wfRow_get row a Hwf Ha) as (v & Hv & Hin).
  exists v. split; [|exact Hin].
  rewrite (Qget_row _ _ _ _ Hrow). exact Hv.
Qed.

Lemma wfRow_cases row :
  wfRow row →
  ∃ v0 v1 v2 v3 v4,
    row = [v0; v1; v2; v3; v4]
    ∧ in_s8 v0 ∧ in_s8 v1 ∧ in_s8 v2 ∧ in_s8 v3 ∧ in_s8 v4.
Proof.
  intros [Hlen Hvals].
  destruct row as [|v0 [|v1 [|v2 [|v3 [|v4 [|v5 row]]]]]]; try discriminate.
  exists v0, v1, v2, v3, v4.
  repeat match goal with H : Forall _ (_ :: _) |- _ => inversion_clear H end.
  auto 10.
Qed.

Lemma Qset_Some q s a v :
  wfQ q → 0 <= s < Q_TABLE_SIZE → 0 <= a < NUM_ACTIONS →
  ∃ q', Qset q s a v = Some q'.
Proof.
  intros Hq Hs Ha.
  destruct (wfQ_row q s Hq Hs) as (row & Hrow & Hwf).
  destruct (wfRow_get row a Hwf Ha) as (w & Hw & _).
  unfold Qset. rewrite Hrow. simpl. rewrite Hw. simpl. eauto.
Qed.

Lemma Qset_wfQ q s a v q' :
  wfQ q → in_s8 v → Qset q s a v = Some q' → wfQ q'.
Proof.
  intros [Hlen Hrows] Hv Hset. unfold Qset in Hset.
  destruct (q !! Z.to_nat s) as [row|] eqn:Hrow; [|discriminate].
  simpl in Hset.
  destruct (row !! Z.to_nat a) as [w|] eqn:Hw; [|discriminate].
  simpl in Hset. injection Hset as <-.
  pose proof (Forall_lookup_1 _ _ _ _ Hrows Hrow) as [Hrl Hrv].
  split.
  - rewrite length_insert. exact Hlen.
  - apply Forall_insert; [exact Hrows|].
    split.
    + rewrite length_insert. exact Hrl.
    + apply Forall_insert; assumption.
Qed.

Lemma Qget_Qset_eq q s a v q' :
  Qset q s a v = Some q' → Qget q' s a = Some v.
Proof.
  unfold Qset, Qget. intros Hset.
  destruct (q !! Z.to_nat s) as [row|] eqn:Hrow; [|discriminate].
  simpl in Hset.
  destruct (row !! Z.to_nat a) as [w|] eqn:Hw; [|discriminate].
  simpl in Hset. injection Hset as <-.
  rewrite list_lookup_insert_eq by (eapply lookup_lt_Some; eassumption).
  simpl. apply list_lookup_insert_eq. eapply lookup_lt_Some; eassumption.
Qed.

Lemma Qget_Qset_ne q s a v q' s' a' :
  Qset q s a v = Some q' → 0 <= s → 0 <= a → 0 <= s' → 0 <= a' →
  (s', a') ≠ (s, a) → Qget q' s' a' = Qget q s' a'.
Proof.
  unfold Qset, Qget. intros Hset Hs Ha Hs' Ha' Hne.
  destruct (q !! Z.to_nat s) as [row|] eqn:Hrow; [|discriminate].
  simpl in Hset.
  destruct (row !! Z.to_nat a) as [w|] eqn:Hw; [|discriminate].
  simpl in Hset. injection Hset as <-.
  destruct (decide (s' = s)) as [->|Hss].
  - rewrite list_lookup_insert_eq by (eapply lookup_lt_Some; eassumption).
    rewrite Hrow. simpl. apply list_lookup_insert_ne.
    intros Heq. apply Hne. f_equal. lia.
  - rewrite list_lookup_insert_ne by lia. reflexivity.
Qed.

Lemma wfQ_zeroQ : wfQ zeroQ.
Proof.
  split; [reflexivity|].
  apply Forall_replicate. split; [reflexivity|].
  apply Forall_replicate. unfold in_s8. lia.
Qed.

Lemma Qabove_zeroQ : Qabove (-126) zeroQ.
Proof. apply Forall_replicate, Forall_replicate. lia. Qed.

Lemma Qabove_get lo q s a v : Qabove lo q → Qget q s a = Some v → lo <= v.
Proof.
  unfold Qget. intros Hq Hget.
  destruct (q !! Z.to_nat s) as [row|] eqn:Hrow; [|discriminate].
  simpl in Hget.
  pose proof (Forall_lookup_1 _ _ _ _ Hq Hrow) as Hr.
  exact (Forall_lookup_1 _ _ _ _ Hr Hget).
Qed.

Lemma Qabove_set lo q s a v q' :
  Qabove lo q → lo <= v → Qset q s a v = Some q' → Qabove lo q'.
Proof.
  unfold Qset. intros Hq Hv Hset.
  destruct (q !! Z.to_nat s) as [row|] eqn:Hrow; [|discriminate].
  simpl in Hset.
  destruct (row !! Z.to_nat a) as [w|]; [|discriminate].
  simpl in Hset. injection Hset as <-.
  apply Forall_insert; [exact Hq|].
  apply Forall_insert; [|exact Hv].
  exact (Forall_lookup_1 _ _ _ _ Hq Hrow).
Qed.

(** ** updateQ *)

Lemma max_step m v : (if m <? v then v else m) = Z.max m v.
Proof. destruct (Z.ltb_spec m v); lia. Qed.

Lemma updateQ_maxNext_row q s2 row :
  q !! Z.to_nat s2 = Some row → wfRow row →
  updateQ_maxNext q s2 (seqZ 0 NUM_ACTIONS) (-128) = Some (foldl Z.max (-128) row).
Proof.
  intros Hrow Hwf.
  destruct (wfRow_cases row Hwf) as (v0 & v1 & v2 & v3 & v4 & -> & _).
  rewrite seqZ_actions. simpl.
  rewrite !(Qget_row _ _ _ _ Hrow). simpl.
  rewrite !max_step. reflexivity.
Qed.

Lemma foldl_max_range row m :
  in_s8 m → Forall in_s8 row → in_s8 (foldl Z.max m row).
Proof.
  intros Hm Hrow. revert m Hm.
  induction Hrow as [|v row Hv _ IH]; intros m Hm; simpl; [exact Hm|].
  apply IH. unfold in_s8 in *. lia.
Qed.

Lemma foldl_max_ge row m : m <= foldl Z.max m row.
Proof.
  revert m. induction row as [|v row IH]; intros m; simpl; [lia|].
  specialize (IH (Z.max m v)). lia.
Qed.

Lemma foldl_max_upper row m j w :
  row !! j = Some w → w <= foldl Z.max m row.
Proof.
  revert m j. induction row as [|v row IH]; intros m j Hj; [discriminate|].
  destruct j as [|j]; simpl in *.
  - injection Hj as ->. pose proof (foldl_max_ge row (Z.max m w)). lia.
  - eapply IH. exact Hj.
Qed.

(** The intermediate values of the update stay inside 16 bits when the
    learning rate is at most 85 (it is 38), so that the 16-bit arithmetic of
    [updateQ] computes the integer formula. *)

Lemma quot255_bounds x lo hi :
  lo * 255 <= x <= hi * 255 → lo <= 0 <= hi → lo <= Z.quot x 255 <= hi.
Proof.
  intros Hx Hz. Z.quot_rem_to_equations. lia.
Qed.

Lemma updateQ_target_exact gamma_d r maxNext :
  in_u8 gamma_d → in_s8 r → in_s8 maxNext →
  updateQ_target gamma_d r maxNext = r + Z.quot (gamma_d * maxNext) 255
  ∧ -256 <= updateQ_target gamma_d r maxNext <= 254.
Proof.
  unfold in_u8, in_s8, updateQ_target. intros Hg Hr Hm.
  assert (-128 * 255 <= gamma_d * maxNext <= 127 * 255) as Hprod by nia.
  rewrite (s16_id (gamma_d * maxNext)) by lia.
  pose proof (quot255_bounds (gamma_d * maxNext) (-128) 127 Hprod ltac:(lia)).
  rewrite s16_id by lia. lia.
Qed.

Lemma updateQ_newQ_exact alpha gamma_d r maxNext qsa :
  0 <= alpha <= 85 → in_u8 gamma_d → in_s8 r → in_s8 maxNext → in_s8 qsa →
  updateQ_newQ alpha gamma_d r maxNext qsa
  = qsa + Z.quot (alpha * (r + Z.quot (gamma_d * maxNext) 255 - qsa)) 255.
Proof.
  intros Ha Hg Hr Hm Hq.
  destruct (updateQ_target_exact gamma_d r maxNext Hg Hr Hm) as [Ht Hrange].
  unfold updateQ_newQ, updateQ_delta, updateQ_update.
  set (target := updateQ_target gamma_d r maxNext) in *.
  unfold in_s8 in *.
  rewrite (s16_id (target - qsa)) by lia.
  assert (-128 * 255 <= alpha * (target - qsa) <= 128 * 255) as Hprod by nia.
  rewrite (s16_id (alpha * _)) by lia.
  pose proof (quot255_bounds _ (-128) 128 Hprod ltac:(lia)).
  rewrite s16_id by lia.
  rewrite Ht. reflexivity.
Qed.

(** [updateQ] on a well-formed table, at indices inside the table: the row
    of the next state, the old value, the table after the write. *)

Lemma updateQ_unfold st s a r s2 :
  wfQ (Q st) →
  0 <= s < Q_TABLE_SIZE → 0 <= a < NUM_ACTIONS → 0 <= s2 < Q_TABLE_SIZE →
  ∃ row2 qsa q',
    Q st !! Z.to_nat s2 = Some row2 ∧ wfRow row2
    ∧ Qget (Q st) s a = Some qsa ∧ in_s8 qsa
    ∧ Qset (Q st) s a
        (saturate (updateQ_newQ (alpha st) (gamma_d st) r
                     (foldl Z.max (-128) row2) qsa)) = Some q'
    ∧ updateQ s a r s2 st = Some (set_Q q' st).
Proof.
  intros Hq Hs Ha Hs2.
  destruct (wfQ_row _ s2 Hq Hs2) as (row2 & Hrow2 & Hwf2).
  destruct (wfQ_get _ s a Hq Hs Ha) as (qsa & Hqsa & Hin).
  set (v := saturate (updateQ_newQ (alpha st) (gamma_d st) r
                        (foldl Z.max (-128) row2) qsa)).
  destruct (Qset_Some (Q st) s a v Hq Hs Ha) as (q' & Hq').
  exists row2, qsa, q'.
  repeat (split; [assumption|]).
  unfold updateQ.
  rewrite (updateQ_maxNext_row _ _ _ Hrow2 Hwf2). simpl.
  rewrite Hqsa. simpl. fold v.
  rewrite (s8_id v) by apply saturate_range.
  rewrite Hq'. reflexivity.
Qed.

(** With the parameters of the sketch and a reward of at least -11, the
    least [calcReward] gives, a value written over a table whose entries
    are at least -126 is at least -126. *)

Lemma updateQ_floor r maxNext qsa :
  -11 <= r <= 127 → -126 <= maxNext <= 127 → -126 <= qsa <= 127 →
  -126 <= saturate (updateQ_newQ 38 242 r maxNext qsa).
Proof.
  intros Hr Hm Hq.
  rewrite updateQ_newQ_exact by (unfold in_u8, in_s8; lia).
  rewrite saturate_clamp.
  Z.quot_rem_to_equations. lia.
Qed.

Lemma calcReward_range st : -11 <= calcReward st <= 7.
Proof.
  unfold calcReward.
  repeat match goal with
         | |- context [if ?b then _ else _] => destruct b
         end; vm_compute; split; discriminate.
Qed.

(** The effect of [updateQ] on a well-formed table. *)

Lemma updateQ_effect st s a r s2 :
  wfQ (Q st) →
  0 <= s < Q_TABLE_SIZE → 0 <= a < NUM_ACTIONS → 0 <= s2 < Q_TABLE_SIZE →
  ∃ st' maxNext qsa,
    updateQ s a r s2 st = Some st'
    ∧ updateQ_maxNext (Q st) s2 (seqZ 0 NUM_ACTIONS) (-128) = Some maxNext
    ∧ Qget (Q st) s a = Some qsa
    ∧ Qget (Q st') s a
      = Some (Z.max (-128)
                (Z.min 127 (updateQ_newQ (alpha st) (gamma_d st) r maxNext qsa)))
    ∧ (∀ s' a', 0 <= s' → 0 <= a' → (s', a') ≠ (s, a) →
         Qget (Q st') s' a' = Qget (Q st) s' a')
    ∧ wfQ (Q st')
    ∧ (∀ s' a', 0 <= s' < Q_TABLE_SIZE → 0 <= a' < NUM_ACTIONS →
         ∃ v, Qget (Q st') s' a' = Some v ∧ -128 <= v <= 127).
Proof.
  intros Hq Hs Ha Hs2.
  destruct (updateQ_unfold st s a r s2 Hq Hs Ha Hs2)
    as (row2 & qsa & q' & Hrow2 & Hwf2 & Hqsa & _ & Hq' & Hupd).
  assert (wfQ q') as Hwf'.
  { eapply Qset_wfQ; [exact Hq|apply saturate_range|exact Hq']. }
  exists (set_Q q' st), (foldl Z.max (-128) row2), qsa.
  split; [exact Hupd|].
  split; [apply updateQ_maxNext_row; assumption|].
  split; [exact Hqsa|].
  split.
  { simpl. rewrite (Qget_Qset_eq _ _ _ _ _ Hq').
    rewrite saturate_clamp. reflexivity. }
  split.
  { intros s' a' Hs' Ha' Hne. simpl.
    eapply Qget_Qset_ne; [exact Hq'|lia..|exact Hne]. }
  split; [exact Hwf'|].
  intros s' a' Hs' Ha'. simpl.
  destruct (wfQ_get q' s' a' Hwf' Hs' Ha') as (w & Hw & Hin).
  exists w. split; [exact Hw|exact Hin].
Qed.

Lemma Qset_of_Qget q s a w v :
  Qget q s a = Some w → ∃ q', Qset q s a v = Some q'.
Proof.
  unfold Qget, Qset. intros Hget.
  destruct (q !! Z.to_nat s) as [row|]; [|discriminate].
  simpl in *. rewrite Hget. simpl. eauto.
Qed.

(** C5. With alpha = 38 and gamma = 242, reward 7, [Q[s][a]] = 0 and every
    entry of the row of the next state equal to 0: the maximum over the next
    state is 0, target = 7, delta = 7, update = 38 * 7 / 255 = 266 / 255 = 1
    by truncating division, and [updateQ] stores 1 at [Q[s][a]]. *)
Theorem updateQ_scenario st s a s2 :
  alpha st = 38 → gamma_d st = 242 →
  Qget (Q st) s a = Some 0 →
  (∀ i, 0 <= i < NUM_ACTIONS → Qget (Q st) s2 i = Some 0) →
  updateQ_maxNext (Q st) s2 (seqZ 0 NUM_ACTIONS) (-128) = Some 0
  ∧ updateQ_target (gamma_d st) 7 0 = 7
  ∧ updateQ_delta 7 0 = 7
  ∧ updateQ_update (alpha st) 7 = 1
  ∧ Z.quot (38 * 7) 255 = 1
  ∧ ∃ st', updateQ s a 7 s2 st = Some st' ∧ Qget (Q st') s a = Some 1.
Proof.
  intros Halpha Hgamma Hqsa Hnext.
  assert (updateQ_maxNext (Q st) s2 (seqZ 0 NUM_ACTIONS) (-128) = Some 0)
    as Hmax.
  { rewrite seqZ_actions. simpl.
    rewrite !Hnext by (unfold NUM_ACTIONS; lia). reflexivity. }
  rewrite Halpha, Hgamma.
  repeat (split; [first [exact Hmax | reflexivity]|]).
  destruct (Qset_of_Qget _ _ _ _ 1 Hqsa) as (q' & Hq').
  exists (set_Q q' st). split.
  - unfold updateQ. rewrite Hmax. simpl. rewrite Hqsa. simpl.
    rewrite Halpha, Hgamma.
    change (s8 (saturate (updateQ_newQ 38 242 7 0 0))) with 1.
    rewrite Hq'. reflexivity.
  - simpl. eapply Qget_Qset_eq. exact Hq'.
Qed.

Lemma updateQ_scenario_witness :
  updateQ_maxNext (Q power_on) 9 (seqZ 0 NUM_ACTIONS) (-128) = Some 0
  ∧ updateQ_target (gamma_d power_on) 7 0 = 7
  ∧ updateQ_delta 7 0 = 7
  ∧ updateQ_update (alpha power_on) 7 = 1
  ∧ Z.quot (38 * 7) 255 = 1
  ∧ ∃ st', updateQ 8 2 7 9 power_on = Some st' ∧ Qget (Q st') 8 2 = Some 1.
Proof.
  apply (updateQ_scenario power_on 8 2 9).
  - reflexivity.
  - reflexivity.
  - reflexivity.
  - intros i Hi. unfold NUM_ACTIONS in Hi.
    assert (i = 0 ∨ i = 1 ∨ i = 2 ∨ i = 3 ∨ i = 4) as Hcases by lia.
    destruct Hcases as [->|[->|[->|[->| ->]]]]; reflexivity.
Defined.

(** ** startEpisode *)

(** C8. [startEpisode] sets [tasksComplete], [taskFlags], [crossings],
    [centered], [readings] and [curSegment] to zero, together with
    [episodeReward] and [totalDist], and leaves the table [Q] and
    [bestReward] as they were. *)
Theorem startEpisode_reset now st :
  let st' := startEpisode now st in
  tasksComplete st' = 0 ∧ taskFlags st' = 0 ∧ crossings st' = 0
  ∧ centered st' = 0 ∧ readings st' = 0 ∧ curSegment st' = 0
  ∧ episodeReward st' = 0 ∧ totalDist st' = 0
  ∧ Q st' = Q st ∧ bestReward st' = bestReward st.
Proof. simpl. repeat split. Qed.

(** ** endEpisode and the exploration rate *)

Lemma decay_step e :
  EPS_MIN <= e <= 255 →
  u8 (u16 (u16 e * EPS_DECAY) / 255) = e * EPS_DECAY / 255
  ∧ e * EPS_DECAY / 255 <= e.
Proof.
  unfold EPS_MIN, EPS_DECAY. intros He.
  rewrite (u16_id e) by lia.
  rewrite (u16_id (e * 253)) by lia.
  assert (0 <= e * 253 / 255 <= e) as Hq.
  { split; [apply Z.div_pos; lia|].
    apply Z.div_le_upper_bound; lia. }
  rewrite u8_id by lia. lia.
Qed.

Lemma endEpisode_epsilon now st :
  EPS_MIN <= epsilon st <= 255 →
  epsilon (endEpisode now st).1
  = Z.max EPS_MIN (epsilon st * EPS_DECAY / 255).
Proof.
  intros He. destruct (decay_step _ He) as [Heq Hle].
  unfold endEpisode. cbn [fst].
  change (epsilon (set_running false st)) with (epsilon st).
  rewrite Heq.
  set (e := epsilon st * EPS_DECAY / 255) in *.
  cbn [epsilon set_epsilon].
  destruct (Z.ltb_spec e EPS_MIN) as [Hlt|Hge].
  - cbn [epsilon set_epsilon].
    destruct (_ <? _); cbn; lia.
  - cbn [epsilon set_epsilon].
    destruct (_ <? _); cbn; lia.
Qed.

(** ** readSensors *)

Lemma readSensors_shape sensorVals now st :
  readSensors sensorVals now st
  = let l := lineStateOf (sensorBits sensorVals) in
    set_centered
      (if (3 <=? l) && (l <=? 5) then u16 (centered st + 1) else centered st)
      (set_readings (u16 (readings st + 1)) (set_curLineState l st)).
Proof.
  unfold readSensors, lineStateOf.
  generalize (sensorBits sensorVals) as bits. intros bits.
  destruct st. cbn [set_curLineState set_readings set_centered set_crossings
    Q alpha gamma_d epsilon curSegment curLineState curAction totalDist
    episodeReward bestReward episode tasksComplete taskFlags running
    calibrated crossings startTime centered readings lostCount].
  destruct (bits =? 0) eqn:H0; [reflexivity|].
  destruct (Z.land bits 4 =? 0) eqn:H4; [|reflexivity].
  destruct (Z.land bits 8 =? 0) eqn:H8; [|reflexivity].
  destruct (Z.land bits 2 =? 0) eqn:H2; [|reflexivity].
  destruct (Z.land bits 16 =? 0) eqn:H16; [|reflexivity].
  destruct (Z.land bits 1 =? 0) eqn:H1; [|reflexivity].
  destruct (bits =? 31) eqn:H31; [|reflexivity].
  apply Z.eqb_eq in H31. subst bits. discriminate H4.
Qed.

Lemma lineStateOf_range bits : 0 <= lineStateOf bits <= 6.
Proof. unfold lineStateOf. repeat case_match; lia. Qed.

Lemma readSensors_crossings sensorVals now st :
  crossings (readSensors sensorVals now st) = crossings st.
Proof. rewrite readSensors_shape. reflexivity. Qed.

Lemma readSensors_curLineState sensorVals now st :
  curLineState (readSensors sensorVals now st)
  = lineStateOf (sensorBits sensorVals).
Proof. rewrite readSensors_shape. reflexivity. Qed.

(** C2. All five sensors above the threshold give the bit mask 31; with
    3000 ms elapsed since the start of the episode [readSensors] stores the
    line state 4 (centre) and leaves [crossings] at 0: the mask has the
    centre bit set, so the second branch of the cascade takes it and the
    branch that counts a crossing is never entered.  No reading makes
    [readSensors] change [crossings]. *)
Theorem readSensors_crossing_not_counted :
  (let st := setup 0 power_on in
   let st' := readSensors [1000; 1000; 1000; 1000; 1000] 3000 st in
   sensorBits [1000; 1000; 1000; 1000; 1000] = 31
   ∧ (2000 <? u32 (3000 - startTime st)) = true
   ∧ curLineState st' = 4
   ∧ crossings st = 0
   ∧ crossings st' = 0)
  ∧ (∀ sensorVals now st,
       crossings (readSensors sensorVals now st) = crossings st).
Proof.
  split.
  - vm_compute. repeat split.
  - apply readSensors_crossings.
Qed.

(** ** updatePosition *)

Lemma scanSegments_shape idx st :
  scanSegments idx st
  = match findSegment idx (totalDist st) with
    | Some i => set_curSegment i st
    | None => st
    end.
Proof.
  induction idx as [|i rest IH]; simpl; [reflexivity|].
  destruct (_ <=? _); [|exact IH].
  destruct (Z.eqb_spec (curSegment st) i) as [Heq|_]; [|reflexivity].
  destruct st. simpl in *. subst. reflexivity.
Qed.

Lemma findSegment_total dist :
  0 <= dist →
  ∃ i, findSegment (reverse (seqZ 0 NUM_SEGMENTS)) dist = Some i ∧ 0 <= i <= 9.
Proof.
  intros Hd.
  change (reverse (seqZ 0 NUM_SEGMENTS)) with [9; 8; 7; 6; 5; 4; 3; 2; 1; 0].
  cbn [findSegment].
  repeat match goal with
         | |- context [SEG_DIST !!! ?n] =>
             let v := eval vm_compute in (SEG_DIST !!! n) in
             change (SEG_DIST !!! n) with v
         end.
  repeat match goal with
         | |- context [?a <=? dist] =>
             destruct (Z.leb_spec a dist); [eexists; split; [reflexivity|lia]|]
         end.
  lia.
Qed.

Lemma updatePosition_shape l r st :
  ∃ i, 0 <= i <= 9
       ∧ updatePosition l r st
         = set_curSegment i
             (set_totalDist
                (u16 (totalDist st + Z.quot (s16 (abs16 l + abs16 r)) 2)) st).
Proof.
  unfold updatePosition. rewrite scanSegments_shape.
  cbn [totalDist set_totalDist].
  destruct (findSegment_total
              (u16 (totalDist st + Z.quot (s16 (abs16 l + abs16 r)) 2)))
    as (i & Hi & Hrange).
  { apply u16_range. }
  rewrite Hi. exists i. split; [exact Hrange|reflexivity].
Qed.

Lemma updatePosition_curSegment l r st :
  0 <= curSegment (updatePosition l r st) <= 9.
Proof.
  destruct (updatePosition_shape l r st) as (i & Hi & ->). exact Hi.
Qed.

Lemma updatePosition_curLineState l r st :
  curLineState (updatePosition l r st) = curLineState st.
Proof.
  destruct (updatePosition_shape l r st) as (i & Hi & ->). reflexivity.
Qed.

(** ** selectAction: the exploitation branch *)

Lemma selectAction_exploit_row q state row q' state' :
  q !! Z.to_nat state = Some row → q' !! Z.to_nat state' = Some row →
  selectAction_exploit q' state' = selectAction_exploit q state.
Proof.
  intros Hrow Hrow'. unfold selectAction_exploit.
  generalize (-128) as bestVal. generalize 2 as bestAct.
  induction (seqZ 0 NUM_ACTIONS) as [|a rest IH]; intros bestAct bestVal;
    simpl; [reflexivity|].
  rewrite (Qget_row _ _ _ _ Hrow), (Qget_row _ _ _ _ Hrow').
  destruct (row !! Z.to_nat a) as [v|]; simpl; [|reflexivity].
  destruct (bestVal <? v); apply IH.
Qed.

(** The answer of the scan on a well-formed row. *)

Lemma selectAction_exploit_cases q state row :
  q !! Z.to_nat state = Some row → wfRow row →
  ∃ a, selectAction_exploit q state = Some a
       ∧ 0 <= a < NUM_ACTIONS
       ∧ greatest_at row a
       ∧ ((∃ j w, row !! j = Some w ∧ -128 < w) → first_greatest_at row a)
       ∧ ((∀ j w, row !! j = Some w → w = -128) → a = 2).
Proof.
  intros Hrow Hwf.
  destruct (wfRow_cases row Hwf)
    as (v0 & v1 & v2 & v3 & v4 & -> & H0 & H1 & H2 & H3 & H4).
  unfold in_s8 in *.
  unfold selectAction_exploit. rewrite seqZ_actions. simpl.
  rewrite !(Qget_row _ _ _ _ Hrow). simpl.
  unfold NUM_ACTIONS, greatest_at, first_greatest_at.
  repeat match goal with
         | |- context [?x <? ?y] => destruct (Z.ltb_spec x y)
         end;
    (eexists; split; [reflexivity|]; split; [lia|]; split; [|split]);
    try (simpl; eexists; split; [reflexivity|]; intros j w Hj; by_index j Hj);
    try (intros (j & w & Hj & Hw);
         simpl; eexists; split; [reflexivity|]; split;
         [ intros j' w' Hj'; by_index j' Hj'
         | intros j' w' Hlt Hj';
           first [ by_index j' Hj' | exfalso; by_index j Hj ] ]);
    try (intros Hall;
         first [ reflexivity
               | pose proof (Hall 0%nat _ eq_refl);
                 pose proof (Hall 1%nat _ eq_refl);
                 pose proof (Hall 2%nat _ eq_refl);
                 pose proof (Hall 3%nat _ eq_refl);
                 pose proof (Hall 4%nat _ eq_refl); lia ]).
Qed.

(** C4, as the code has it.  On a row of five [int8_t] values the scan
    answers an action in [0, 4] whose value is the greatest of the row; when
    some value of the row exceeds -128 it is the lowest such action; when all
    five values are -128 no comparison succeeds and the answer is the initial
    [bestAct], action 2.  The answer depends on the row only. *)
Theorem selectAction_exploit_spec q state row :
  q !! Z.to_nat state = Some row → wfRow row →
  ∃ a, selectAction_exploit q state = Some a
       ∧ 0 <= a < NUM_ACTIONS
       ∧ greatest_at row a
       ∧ ((∃ j w, row !! j = Some w ∧ -128 < w) → first_greatest_at row a)
       ∧ ((∀ j w, row !! j = Some w → w = -128) → a = 2)
       ∧ (∀ q' state', q' !! Z.to_nat state' = Some row →
            selectAction_exploit q' state' = Some a).
Proof.
  intros Hrow Hwf.
  destruct (selectAction_exploit_cases q state row Hrow Hwf)
    as (a & Ha & Hrange & Hgreatest & Hfirst & Hdefault).
  exists a.
  split; [exact Ha|]. split; [exact Hrange|]. split; [exact Hgreatest|].
  split; [exact Hfirst|]. split; [exact Hdefault|].
  intros q' state' Hrow'. rewrite <- Ha.
  eapply selectAction_exploit_row; eassumption.
Qed.

Lemma selectAction_exploit_spec_witness :
  ∃ a, selectAction_exploit (replicate 80 [3; 7; 7; 1; 0]) 4 = Some a
       ∧ 0 <= a < NUM_ACTIONS
       ∧ greatest_at [3; 7; 7; 1; 0] a
       ∧ ((∃ j w, [3; 7; 7; 1; 0] !! j = Some w ∧ -128 < w) →
          first_greatest_at [3; 7; 7; 1; 0] a)
       ∧ ((∀ j w, [3; 7; 7; 1; 0] !! j = Some w → w = -128) → a = 2)
       ∧ (∀ q' state', q' !! Z.to_nat state' = Some [3; 7; 7; 1; 0] →
            selectAction_exploit q' state' = Some a).
Proof.
  apply (selectAction_exploit_spec (replicate 80 [3; 7; 7; 1; 0]) 4).
  - reflexivity.
  - split; [reflexivity|].
    repeat (apply Forall_cons; split; [unfold in_s8; lia|]).
    apply Forall_nil. exact I.
Defined.

(** C4, as the claim has it, fails on the row whose five values are all
    -128: action 0 holds a greatest value, the scan answers action 2, and 2
    is not the lowest index of a greatest value. *)
Lemma selectAction_exploit_all_min :
  let row := [-128; -128; -128; -128; -128] in
  let q := replicate 80 row in
  wfRow row
  ∧ q !! Z.to_nat 0 = Some row
  ∧ greatest_at row 0
  ∧ selectAction_exploit q 0 = Some 2
  ∧ ¬ first_greatest_at row 2.
Proof.
  cbv zeta. split; [|split; [|split; [|split]]].
  - split; [reflexivity|].
    repeat (apply Forall_cons; split; [unfold in_s8; lia|]).
    apply Forall_nil. exact I.
  - reflexivity.
  - exists (-128). split; [reflexivity|].
    intros j w Hj. by_index j Hj.
  - reflexivity.
  - intros (v & Hv & _ & Hlow).
    simpl in Hv. injection Hv as <-.
    specialize (Hlow 0%nat (-128) ltac:(simpl; lia) eq_refl). lia.
Qed.

(** ** checkWaypoints *)

Lemma checkWaypoints_step_shape st i :
  ∃ f c e,
    checkWaypoints_step st i
    = set_episodeReward e (set_tasksComplete c (set_taskFlags f st)).
Proof.
  unfold checkWaypoints_step. destruct (_ && _).
  - eexists _, _, _. reflexivity.
  - exists (taskFlags st), (tasksComplete st), (episodeReward st).
    destruct st; reflexivity.
Qed.

Lemma foldl_checkWaypoints_shape idx st :
  ∃ f c e,
    foldl checkWaypoints_step st idx
    = set_episodeReward e (set_tasksComplete c (set_taskFlags f st)).
Proof.
  revert st. induction idx as [|i idx IH]; intros st; simpl.
  - exists (taskFlags st), (tasksComplete st), (episodeReward st).
    destruct st; reflexivity.
  - destruct (checkWaypoints_step_shape st i) as (f0 & c0 & e0 & ->).
    destruct (IH (set_episodeReward e0
                    (set_tasksComplete c0 (set_taskFlags f0 st))))
      as (f & c & e & ->).
    exists f, c, e. reflexivity.
Qed.

Lemma checkWaypoints_shape st :
  ∃ f c e,
    checkWaypoints st
    = set_episodeReward e (set_tasksComplete c (set_taskFlags f st)).
Proof. apply foldl_checkWaypoints_shape. Qed.

Lemma updateQ_shape s a r s2 st st' :
  updateQ s a r s2 st = Some st' → ∃ q', st' = set_Q q' st.
Proof.
  unfold updateQ. intros H.
  destruct (updateQ_maxNext _ _ _ _); [|discriminate]. simpl in H.
  destruct (Qget _ _ _); [|discriminate]. simpl in H.
  destruct (Qset _ _ _ _) as [q'|]; [|discriminate]. simpl in H.
  injection H as <-. exists q'. reflexivity.
Qed.

(** ** What steps 1 to 6 of [loop] leave alone *)

Lemma same_params_trans st1 st2 st3 :
  same_params st1 st2 → same_params st2 st3 → same_params st1 st3.
Proof. unfold same_params. intuition congruence. Qed.

Lemma readSensors_same_params sensorVals now st :
  same_params st (readSensors sensorVals now st).
Proof. rewrite readSensors_shape. repeat split. Qed.

Lemma updatePosition_same_params l r st :
  same_params st (updatePosition l r st).
Proof.
  destruct (updatePosition_shape l r st) as (i & _ & ->). repeat split.
Qed.

Lemma updateQ_same_params s a r s2 st st' :
  updateQ s a r s2 st = Some st' → same_params st st'.
Proof.
  intros H. destruct (updateQ_shape _ _ _ _ _ _ H) as (q' & ->).
  repeat split.
Qed.

Lemma checkWaypoints_same_params st : same_params st (checkWaypoints st).
Proof.
  destruct (checkWaypoints_shape st) as (f & c & e & ->). repeat split.
Qed.

(** [loop_body], one step after the other. *)

Lemma loop_body_steps t st st' :
  loop_body t st = Some st' ↔
  let st2 := updatePosition (tick_encL t) (tick_encR t)
               (readSensors (tick_sensorVals t) (tick_now t) st) in
  ∃ a st4,
    selectAction (encodeState st2) (tick_rnd_eps t) (tick_rnd_act t) st2
    = Some a
    ∧ updateQ (encodeState st2) a (calcReward (set_curAction a st2))
        (encodeState st2)
        (set_episodeReward
           (s16 (episodeReward st2 + calcReward (set_curAction a st2)))
           (set_curAction a st2)) = Some st4
    ∧ st' = checkWaypoints st4.
Proof.
  unfold loop_body. cbv zeta.
  generalize (updatePosition (tick_encL t) (tick_encR t)
                (readSensors (tick_sensorVals t) (tick_now t) st)) as st2.
  intros st2. split.
  - intros H.
    destruct (selectAction _ _ _ _) as [a|] eqn:Hsel; [|discriminate].
    cbn [mbind option_bind] in H.
    match type of H with
    | context [updateQ ?s ?a ?r ?s2 ?st0] =>
        destruct (updateQ s a r s2 st0) as [st4|] eqn:Hupd; [|discriminate]
    end.
    cbn [mbind option_bind] in H. injection H as <-.
    exists a, st4.
    split; [reflexivity|]. split; [exact Hupd|reflexivity].
  - intros (a & st4 & Hsel & Hupd & ->).
    rewrite Hsel. cbn [mbind option_bind].
    change (curAction (set_episodeReward
              (s16 (episodeReward (set_curAction a st2)
                    + calcReward (set_curAction a st2)))
              (set_curAction a st2))) with a.
    change (encodeState (set_episodeReward
              (s16 (episodeReward (set_curAction a st2)
                    + calcReward (set_curAction a st2)))
              (set_curAction a st2))) with (encodeState st2).
    change (episodeReward (set_curAction a st2)) with (episodeReward st2).
    rewrite Hupd. reflexivity.
Qed.

Lemma loop_body_same_params t st st' :
  loop_body t st = Some st' → same_params st st'.
Proof.
  intros H. apply loop_body_steps in H. cbv zeta in H.
  assert (same_params st
            (updatePosition (tick_encL t) (tick_encR t)
               (readSensors (tick_sensorVals t) (tick_now t) st))) as H12.
  { eapply same_params_trans;
      [apply readSensors_same_params|apply updatePosition_same_params]. }
  revert H H12.
  generalize (updatePosition (tick_encL t) (tick_encR t)
                (readSensors (tick_sensorVals t) (tick_now t) st)) as st2.
  intros st2 (a & st4 & _ & Hupd & ->) H12.
  eapply same_params_trans; [exact H12|].
  eapply same_params_trans; [|apply checkWaypoints_same_params].
  eapply same_params_trans; [|eapply updateQ_same_params; exact Hupd].
  repeat split.
Qed.

Lemma checkEnd_epsilon now st : epsilon (checkEnd now st).1 = epsilon st.
Proof. unfold checkEnd. repeat case_match; reflexivity. Qed.

Lemma endEpisode_epsilon_range now st :
  EPS_MIN <= epsilon st <= 255 →
  EPS_MIN <= epsilon (endEpisode now st).1 <= epsilon st.
Proof.
  intros He. rewrite (endEpisode_epsilon now st He).
  destruct (decay_step _ He) as [_ Hle]. lia.
Qed.

Lemma loop_epsilon t st st' report :
  EPS_MIN <= epsilon st <= 255 →
  loop t st = Some (st', report) →
  EPS_MIN <= epsilon st' <= epsilon st.
Proof.
  intros He. unfold loop.
  destruct (running st); cbn [negb]; [|intros [= <- <-]; lia].
  destruct (loop_body t st) as [st1|] eqn:Hbody; [|discriminate].
  cbn [mbind option_bind].
  destruct (loop_body_same_params _ _ _ Hbody) as (Heps & _).
  pose proof (checkEnd_epsilon (tick_now t) st1) as Hce.
  destruct (checkEnd (tick_now t) st1) as [st2 [reason|]]; cbn [fst] in Hce.
  - pose proof (endEpisode_epsilon_range (tick_restart t) st2) as Hend.
    destruct (endEpisode (tick_restart t) st2) as [st3 summary].
    cbn [fst] in Hend. intros [= <- <-]. lia.
  - intros [= <- <-]. lia.
Qed.

(** C6. For an exploration rate in [EPS_MIN, 255], [endEpisode] leaves
    [epsilon] at the greater of EPS_MIN and epsilon * EPS_DECAY / 255, which
    is at most the previous value and at least EPS_MIN; and over any run of
    [loop], which changes [epsilon] in [endEpisode] only, the exploration
    rate at the end is at most the one at the start and at least EPS_MIN. *)
Theorem epsilon_decay_monotone :
  (∀ now st,
     EPS_MIN <= epsilon st <= 255 →
     epsilon (endEpisode now st).1
     = Z.max EPS_MIN (epsilon st * EPS_DECAY / 255)
     ∧ epsilon (endEpisode now st).1 <= epsilon st
     ∧ EPS_MIN <= epsilon (endEpisode now st).1)
  ∧ (∀ ticks st st' reports,
       EPS_MIN <= epsilon st <= 255 →
       run ticks st = Some (st', reports) →
       epsilon st' <= epsilon st ∧ EPS_MIN <= epsilon st').
Proof.
  split.
  - intros now st He.
    split; [apply endEpisode_epsilon; exact He|].
    pose proof (endEpisode_epsilon_range now st He). lia.
  - intros ticks. induction ticks as [|t ticks IH]; intros st st' reports He.
    + intros [= <- <-]. lia.
    + cbn [run].
      destruct (loop t st) as [[st1 report]|] eqn:Hloop; [|discriminate].
      cbn [mbind option_bind].
      pose proof (loop_epsilon _ _ _ _ He Hloop) as H1.
      destruct (run ticks st1) as [[st2 reports2]|] eqn:Hrun; [|discriminate].
      cbn [mbind option_bind]. intros [= <- <-].
      destruct (IH st1 st2 reports2 ltac:(lia) Hrun). lia.
Qed.

Lemma epsilon_decay_monotone_witness :
  (epsilon (endEpisode 0 power_on).1
   = Z.max EPS_MIN (epsilon power_on * EPS_DECAY / 255)
   ∧ epsilon (endEpisode 0 power_on).1 <= epsilon power_on
   ∧ EPS_MIN <= epsilon (endEpisode 0 power_on).1)
  ∧ (epsilon after_lost_episode <= epsilon (setup 0 power_on)
     ∧ EPS_MIN <= epsilon after_lost_episode).
Proof.
  split.
  - apply (proj1 epsilon_decay_monotone 0 power_on).
    unfold EPS_MIN. simpl. lia.
  - apply (proj2 epsilon_decay_monotone lost_episode (setup 0 power_on)
             after_lost_episode lost_episode_reports).
    + unfold EPS_MIN. simpl. lia.
    + vm_compute. reflexivity.
Defined.

(** ** checkWaypoints: one-shot completion *)

Lemma land_bit flags i :
  0 <= i →
  Z.land flags (Z.shiftl 1 i) = if Z.testbit flags i then 2 ^ i else 0.
Proof.
  intros Hi. rewrite Z.shiftl_1_l.
  apply Z.bits_inj'. intros n Hn.
  rewrite Z.land_spec, Z.pow2_bits_eqb by exact Hi.
  destruct (Z.eqb_spec i n) as [->|Hne].
  - rewrite andb_true_r.
    destruct (Z.testbit flags n) eqn:Hb.
    + rewrite Z.pow2_bits_true; [reflexivity|exact Hn].
    + rewrite Z.bits_0. reflexivity.
  - rewrite andb_false_r.
    destruct (Z.testbit flags i).
    + rewrite Z.pow2_bits_false; [reflexivity|exact Hne].
    + rewrite Z.bits_0. reflexivity.
Qed.

Lemma land_bit_eqb flags i :
  0 <= i → (Z.land flags (Z.shiftl 1 i) =? 0) = negb (Z.testbit flags i).
Proof.
  intros Hi. rewrite (land_bit flags i Hi).
  destruct (Z.testbit flags i); [|reflexivity].
  apply Z.eqb_neq. pose proof (Z.pow_pos_nonneg 2 i). lia.
Qed.

Lemma testbit_u8_set flags i j :
  0 <= i < 8 → 0 <= j < 8 →
  Z.testbit (u8 (Z.lor flags (Z.shiftl 1 i))) j
  = Z.testbit flags j || (i =? j).
Proof.
  intros Hi Hj. unfold u8.
  change 256 with (2 ^ 8).
  rewrite Z.mod_pow2_bits_low by lia.
  rewrite Z.lor_spec, Z.shiftl_1_l, Z.pow2_bits_eqb by lia.
  reflexivity.
Qed.

(** A step of the loop of [checkWaypoints] on a waypoint whose flag is set,
    or whose segment is not the current one, changes nothing. *)

Lemma checkWaypoints_step_skip st i :
  0 <= i →
  curSegment st ≠ TASK_LOCS !!! Z.to_nat i ∨ Z.testbit (taskFlags st) i = true →
  checkWaypoints_step st i = st.
Proof.
  intros Hi Hskip. unfold checkWaypoints_step.
  rewrite (land_bit_eqb _ _ Hi).
  destruct Hskip as [Hne|Hset].
  - apply Z.eqb_neq in Hne. rewrite Hne. reflexivity.
  - rewrite Hset, andb_false_r. reflexivity.
Qed.

Lemma checkWaypoints_step_fire st i :
  0 <= i →
  curSegment st = TASK_LOCS !!! Z.to_nat i → Z.testbit (taskFlags st) i = false →
  checkWaypoints_step st i
  = set_episodeReward (s16 (episodeReward st + 30))
      (set_tasksComplete (u8 (tasksComplete st + 1))
         (set_taskFlags (u8 (Z.lor (taskFlags st) (Z.shiftl 1 i))) st)).
Proof.
  intros Hi Hseg Hclear. unfold checkWaypoints_step.
  rewrite (land_bit_eqb _ _ Hi), Hclear.
  apply Z.eqb_eq in Hseg. rewrite Hseg. reflexivity.
Qed.

(** The five waypoints lie in five different segments, so at most one step
    of the loop finds the current segment. *)

Lemma checkWaypoints_at st i :
  0 <= i < 5 → curSegment st = TASK_LOCS !!! Z.to_nat i →
  checkWaypoints st = checkWaypoints_step st i.
Proof.
  intros Hi Hseg.
  assert (∀ st' j, 0 <= j < 5 → j ≠ i → curSegment st' = curSegment st →
                   checkWaypoints_step st' j = st') as Hother.
  { intros st' j Hj Hne Hcur. apply checkWaypoints_step_skip; [lia|].
    left. rewrite Hcur, Hseg.
    assert (i = 0 ∨ i = 1 ∨ i = 2 ∨ i = 3 ∨ i = 4) as Hic by lia.
    assert (j = 0 ∨ j = 1 ∨ j = 2 ∨ j = 3 ∨ j = 4) as Hjc by lia.
    destruct Hic as [->|[->|[->|[->| ->]]]];
      destruct Hjc as [->|[->|[->|[->| ->]]]];
      first [congruence | vm_compute; discriminate]. }
  assert (curSegment (checkWaypoints_step st i) = curSegment st) as Hcur.
  { destruct (checkWaypoints_step_shape st i) as (f & c & e & ->).
    reflexivity. }
  unfold checkWaypoints. change (seqZ 0 5) with [0; 1; 2; 3; 4].
  cbn [foldl].
  assert (i = 0 ∨ i = 1 ∨ i = 2 ∨ i = 3 ∨ i = 4) as Hic by lia.
  destruct Hic as [->|[->|[->|[->| ->]]]];
    repeat first
      [ rewrite (Hother st) by (first [lia | reflexivity])
      | rewrite (Hother (checkWaypoints_step st _))
          by (first [lia | exact Hcur]) ];
    reflexivity.
Qed.

Lemma checkWaypoints_elsewhere st :
  (∀ i, 0 <= i < 5 → curSegment st ≠ TASK_LOCS !!! Z.to_nat i) →
  checkWaypoints st = st.
Proof.
  intros Hnone.
  unfold checkWaypoints. change (seqZ 0 5) with [0; 1; 2; 3; 4].
  cbn [foldl].
  rewrite (checkWaypoints_step_skip st 0) by (first [lia | left; apply Hnone; lia]).
  rewrite (checkWaypoints_step_skip st 1) by (first [lia | left; apply Hnone; lia]).
  rewrite (checkWaypoints_step_skip st 2) by (first [lia | left; apply Hnone; lia]).
  rewrite (checkWaypoints_step_skip st 3) by (first [lia | left; apply Hnone; lia]).
  apply checkWaypoints_step_skip; [lia|]. left. apply Hnone. lia.
Qed.

Lemma checkWaypoints_twice st :
  checkWaypoints (checkWaypoints st) = checkWaypoints st.
Proof.
  assert (curSegment (checkWaypoints st) = curSegment st) as Hcur.
  { destruct (checkWaypoints_shape st) as (f & c & e & ->). reflexivity. }
  assert (∀ i, 0 <= i < 5 → curSegment st = TASK_LOCS !!! Z.to_nat i →
               checkWaypoints (checkWaypoints st) = checkWaypoints st) as Hat.
  { intros i Hi Hseg.
    rewrite (checkWaypoints_at (checkWaypoints st) i Hi)
      by (rewrite Hcur; exact Hseg).
    apply checkWaypoints_step_skip; [lia|]. right.
    rewrite (checkWaypoints_at st i Hi Hseg).
    destruct (Z.testbit (taskFlags st) i) eqn:Hbit.
    - rewrite checkWaypoints_step_skip by (first [lia | right; exact Hbit]).
      exact Hbit.
    - rewrite checkWaypoints_step_fire by (first [lia | assumption]).
      cbn [taskFlags set_episodeReward set_tasksComplete set_taskFlags].
      rewrite testbit_u8_set by lia. rewrite Z.eqb_refl. apply orb_true_r. }
  destruct (decide (curSegment st = 5)) as [H0|H0]; [exact (Hat 0 ltac:(lia) H0)|].
  destruct (decide (curSegment st = 2)) as [H1|H1]; [exact (Hat 1 ltac:(lia) H1)|].
  destruct (decide (curSegment st = 3)) as [H2|H2]; [exact (Hat 2 ltac:(lia) H2)|].
  destruct (decide (curSegment st = 7)) as [H3|H3]; [exact (Hat 3 ltac:(lia) H3)|].
  destruct (decide (curSegment st = 8)) as [H4|H4]; [exact (Hat 4 ltac:(lia) H4)|].
  rewrite (checkWaypoints_elsewhere st); [apply checkWaypoints_elsewhere|];
    intros i Hi;
    assert (i = 0 ∨ i = 1 ∨ i = 2 ∨ i = 3 ∨ i = 4) as Hic by lia;
    destruct Hic as [->|[->|[->|[->| ->]]]]; assumption.
Qed.

(** C7. With the current segment at waypoint [i]: when flag [i] is set,
    [checkWaypoints] changes nothing, so [tasksComplete], [taskFlags] and
    [episodeReward] keep their values; when flag [i] is clear, it sets flag
    [i], adds one to [tasksComplete] (up to the width of [uint8_t]) and 30
    to [episodeReward] (up to the width of [int16_t]).  In every state a
    second call right after the first changes nothing more. *)
Theorem checkWaypoints_idempotent st :
  (∀ i, 0 <= i < 5 → curSegment st = TASK_LOCS !!! Z.to_nat i →
     (Z.testbit (taskFlags st) i = true →
        checkWaypoints st = st
        ∧ tasksComplete (checkWaypoints st) = tasksComplete st
        ∧ taskFlags (checkWaypoints st) = taskFlags st
        ∧ episodeReward (checkWaypoints st) = episodeReward st)
     ∧ (Z.testbit (taskFlags st) i = false →
        taskFlags (checkWaypoints st) = u8 (Z.lor (taskFlags st) (Z.shiftl 1 i))
        ∧ Z.testbit (taskFlags (checkWaypoints st)) i = true
        ∧ tasksComplete (checkWaypoints st) = u8 (tasksComplete st + 1)
        ∧ episodeReward (checkWaypoints st) = s16 (episodeReward st + 30)
        ∧ (0 <= tasksComplete st < 255 →
           tasksComplete (checkWaypoints st) = tasksComplete st + 1)
        ∧ (-32768 <= episodeReward st <= 32737 →
           episodeReward (checkWaypoints st) = episodeReward st + 30)))
  ∧ checkWaypoints (checkWaypoints st) = checkWaypoints st.
Proof.
  split; [|apply checkWaypoints_twice].
  intros i Hi Hseg. split.
  - intros Hbit.
    assert (checkWaypoints st = st) as ->; [|repeat split].
    rewrite (checkWaypoints_at st i Hi Hseg).
    apply checkWaypoints_step_skip; [lia|]. right. exact Hbit.
  - intros Hbit. rewrite (checkWaypoints_at st i Hi Hseg).
    rewrite checkWaypoints_step_fire by (first [lia | assumption]).
    cbn [taskFlags tasksComplete episodeReward set_episodeReward
         set_tasksComplete set_taskFlags].
    split; [reflexivity|]. split.
    { rewrite testbit_u8_set by lia. rewrite Z.eqb_refl. apply orb_true_r. }
    split; [reflexivity|]. split; [reflexivity|]. split.
    + intros Hc. apply u8_id. lia.
    + intros He. apply s16_id. lia.
Qed.

Lemma checkWaypoints_idempotent_witness :
  (let st := set_taskFlags 8 (set_curSegment 7 power_on) in
   checkWaypoints st = st
   ∧ tasksComplete (checkWaypoints st) = tasksComplete st
   ∧ taskFlags (checkWaypoints st) = taskFlags st
   ∧ episodeReward (checkWaypoints st) = episodeReward st)
  ∧ (let st := set_curSegment 7 power_on in
     taskFlags (checkWaypoints st) = u8 (Z.lor (taskFlags st) (Z.shiftl 1 3))
     ∧ Z.testbit (taskFlags (checkWaypoints st)) 3 = true
     ∧ tasksComplete (checkWaypoints st) = u8 (tasksComplete st + 1)
     ∧ episodeReward (checkWaypoints st) = s16 (episodeReward st + 30)
     ∧ (0 <= tasksComplete st < 255 →
        tasksComplete (checkWaypoints st) = tasksComplete st + 1)
     ∧ (-32768 <= episodeReward st <= 32737 →
        episodeReward (checkWaypoints st) = episodeReward st + 30)).
Proof.
  split.
  - apply (proj1 (checkWaypoints_idempotent
                    (set_taskFlags 8 (set_curSegment 7 power_on))) 3).
    + lia.
    + reflexivity.
    + reflexivity.
  - apply (proj1 (checkWaypoints_idempotent (set_curSegment 7 power_on)) 3).
    + lia.
    + reflexivity.
    + reflexivity.
Defined.

(** ** The invariant of the globals *)

Lemma Inv_setup now : Inv (setup now power_on).
Proof.
  constructor; simpl_state; try (unfold EPS_MIN; lia); try reflexivity.
  - exact wfQ_zeroQ.
  - exact Qabove_zeroQ.
Qed.

Lemma Inv_startEpisode now st :
  Inv st → Inv (startEpisode now st).
Proof.
  intros []. constructor; simpl_state; try assumption; try lia; reflexivity.
Qed.

Lemma Inv_readSensors sensorVals now st :
  Inv st → Inv (readSensors sensorVals now st).
Proof.
  intros []. rewrite readSensors_shape. cbv zeta.
  constructor; simpl_state; try assumption.
  pose proof (lineStateOf_range (sensorBits sensorVals)). lia.
Qed.

Lemma Inv_updatePosition l r st :
  Inv st → Inv (updatePosition l r st).
Proof.
  intros []. destruct (updatePosition_shape l r st) as (i & Hi & ->).
  constructor; simpl_state; assumption.
Qed.

Lemma Inv_set_curAction a st : Inv st → Inv (set_curAction a st).
Proof. intros []. constructor; simpl_state; assumption. Qed.

Lemma Inv_set_episodeReward e st : Inv st → Inv (set_episodeReward e st).
Proof. intros []. constructor; simpl_state; assumption. Qed.

Lemma encodeState_exact st :
  0 <= curSegment st <= 9 → 0 <= curLineState st <= 7 →
  encodeState st = curSegment st * 8 + curLineState st
  ∧ 0 <= encodeState st <= 79.
Proof.
  intros Hs Hl. unfold encodeState, NUM_LINE_STATES.
  rewrite u8_id by lia. lia.
Qed.

Lemma selectAction_total state rnd_eps rnd_act st :
  wfQ (Q st) → 0 <= state < Q_TABLE_SIZE → 0 <= rnd_act < NUM_ACTIONS →
  ∃ a, selectAction state rnd_eps rnd_act st = Some a ∧ 0 <= a < NUM_ACTIONS.
Proof.
  intros Hq Hstate Hrnd. unfold selectAction.
  destruct (rnd_eps <? epsilon st).
  - exists (u8 rnd_act). split; [reflexivity|].
    unfold NUM_ACTIONS in *. rewrite u8_id; lia.
  - destruct (wfQ_row _ state Hq Hstate) as (row & Hrow & Hwf).
    destruct (selectAction_exploit_cases _ _ _ Hrow Hwf) as (a & Ha & Hr & _).
    exists a. split; assumption.
Qed.

Lemma Inv_updateQ s a r s2 st :
  Inv st → -11 <= r <= 127 →
  0 <= s < Q_TABLE_SIZE → 0 <= a < NUM_ACTIONS → 0 <= s2 < Q_TABLE_SIZE →
  ∃ st', updateQ s a r s2 st = Some st' ∧ Inv st'.
Proof.
  intros Hinv Hr Hs Ha Hs2.
  destruct (updateQ_unfold st s a r s2 (inv_Q _ Hinv) Hs Ha Hs2)
    as (row2 & qsa & q' & Hrow2 & Hwf2 & Hqsa & Hin & Hq' & Hupd).
  exists (set_Q q' st). split; [exact Hupd|].
  rewrite (inv_alpha _ Hinv), (inv_gamma _ Hinv) in Hq'.
  assert (-126 <= foldl Z.max (-128) row2 <= 127) as Hmax.
  { split; [|apply (foldl_max_range row2 (-128)); [unfold in_s8; lia|apply Hwf2]].
    destruct (wfRow_get row2 0 Hwf2 ltac:(unfold NUM_ACTIONS; lia))
      as (v0 & Hv0 & _).
    pose proof (foldl_max_upper row2 (-128) _ _ Hv0) as Hup.
    pose proof (Forall_lookup_1 _ _ _ _
                  (Forall_lookup_1 _ _ _ _ (inv_floor _ Hinv) Hrow2) Hv0)
      as Hlo.
    cbv beta in Hlo. lia. }
  pose proof (Qabove_get _ _ _ _ _ (inv_floor _ Hinv) Hqsa) as Hlow.
  assert (wfQ q') as Hwf'.
  { eapply Qset_wfQ; [exact (inv_Q _ Hinv)|apply saturate_range|exact Hq']. }
  assert (Qabove (-126) q') as Hfloor'.
  { eapply Qabove_set; [exact (inv_floor _ Hinv)| |exact Hq'].
    apply updateQ_floor; [exact Hr|exact Hmax|unfold in_s8 in Hin; lia]. }
  destruct Hinv. constructor; simpl_state; assumption.
Qed.

Lemma flag_step_all :
  forallb (fun flags => forallb (flag_step_ok flags) (seqZ 0 5)) (seqZ 0 32)
  = true.
Proof. vm_compute. reflexivity. Qed.

Lemma flag_step flags i :
  0 <= flags <= 31 → 0 <= i < 5 → Z.testbit flags i = false →
  u8 (Z.lor flags (Z.shiftl 1 i)) <= 31
  ∧ popcount5 (u8 (Z.lor flags (Z.shiftl 1 i))) = popcount5 flags + 1
  ∧ u8 (popcount5 flags + 1) = popcount5 flags + 1.
Proof.
  intros Hf Hi Hbit.
  pose proof flag_step_all as Hall.
  rewrite forallb_forall in Hall.
  specialize (Hall flags). rewrite <- list_elem_of_In, elem_of_seqZ in Hall.
  specialize (Hall ltac:(lia)).
  rewrite forallb_forall in Hall.
  specialize (Hall i). rewrite <- list_elem_of_In, elem_of_seqZ in Hall.
  specialize (Hall ltac:(lia)).
  unfold flag_step_ok in Hall. rewrite Hbit in Hall. cbn [orb] in Hall.
  apply andb_prop in Hall as [Hall H3]. apply andb_prop in Hall as [H1 H2].
  apply Z.leb_le in H1. apply Z.eqb_eq in H2. apply Z.eqb_eq in H3.
  auto.
Qed.

Lemma Inv_checkWaypoints_step st i :
  0 <= i < 5 → Inv st → Inv (checkWaypoints_step st i).
Proof.
  intros Hi Hinv.
  destruct (decide (curSegment st = TASK_LOCS !!! Z.to_nat i)) as [Hseg|Hseg].
  2:{ rewrite checkWaypoints_step_skip by (first [lia | left; exact Hseg]).
      exact Hinv. }
  destruct (Z.testbit (taskFlags st) i) eqn:Hbit.
  { rewrite checkWaypoints_step_skip by (first [lia | right; exact Hbit]).
    exact Hinv. }
  rewrite checkWaypoints_step_fire by (first [lia | assumption]).
  destruct Hinv
    as [HQ Hfl Hsg Hline Hflags Htasks Heps Halpha Hgamma Hlost Hrun].
  destruct (flag_step _ _ Hflags Hi Hbit) as (H1 & H2 & H3).
  constructor; simpl_state; try assumption.
  - pose proof (u8_range (Z.lor (taskFlags st) (Z.shiftl 1 i))). lia.
  - rewrite H2, Htasks. exact H3.
Qed.

Lemma Inv_checkWaypoints st : Inv st → Inv (checkWaypoints st).
Proof.
  intros Hinv. unfold checkWaypoints.
  change (seqZ 0 5) with [0; 1; 2; 3; 4]. cbn [foldl].
  repeat (apply Inv_checkWaypoints_step; [lia|]). exact Hinv.
Qed.

Lemma loop_body_total t st :
  Inv st → tick_ok t → ∃ st', loop_body t st = Some st' ∧ Inv st'.
Proof.
  intros Hinv Hok.
  pose proof (Inv_updatePosition (tick_encL t) (tick_encR t) _
                (Inv_readSensors (tick_sensorVals t) (tick_now t) _ Hinv))
    as Hinv2.
  assert (∃ st', (let st2 := updatePosition (tick_encL t) (tick_encR t)
               (readSensors (tick_sensorVals t) (tick_now t) st) in
  ∃ a st4,
    selectAction (encodeState st2) (tick_rnd_eps t) (tick_rnd_act t) st2
    = Some a
    ∧ updateQ (encodeState st2) a (calcReward (set_curAction a st2))
        (encodeState st2)
        (set_episodeReward
           (s16 (episodeReward st2 + calcReward (set_curAction a st2)))
           (set_curAction a st2)) = Some st4
    ∧ st' = checkWaypoints st4) ∧ Inv st') as (st' & Hsteps & Hinv').
  2:{ exists st'. split; [apply loop_body_steps; exact Hsteps|exact Hinv']. }
  cbv zeta. revert Hinv2.
  generalize (updatePosition (tick_encL t) (tick_encR t)
                (readSensors (tick_sensorVals t) (tick_now t) st)) as st2.
  intros st2 Hinv2.
  destruct (encodeState_exact st2 (inv_segment _ Hinv2) (inv_line _ Hinv2))
    as [_ Henc].
  assert (0 <= encodeState st2 < Q_TABLE_SIZE) as Hstate
    by (unfold Q_TABLE_SIZE; lia).
  destruct (selectAction_total (encodeState st2) (tick_rnd_eps t)
              (tick_rnd_act t) st2 (inv_Q _ Hinv2) Hstate Hok)
    as (a & Hsel & Ha).
  destruct (Inv_updateQ (encodeState st2) a (calcReward (set_curAction a st2))
              (encodeState st2)
              (set_episodeReward
                 (s16 (episodeReward st2 + calcReward (set_curAction a st2)))
                 (set_curAction a st2)))
    as (st4 & Hupd & Hinv4); try assumption.
  { apply Inv_set_episodeReward, Inv_set_curAction, Hinv2. }
  { pose proof (calcReward_range (set_curAction a st2)). lia. }
  exists (checkWaypoints st4). split.
  - exists a, st4. split; [exact Hsel|]. split; [exact Hupd|reflexivity].
  - apply Inv_checkWaypoints, Hinv4.
Qed.

Lemma Inv_checkEnd now st : Inv st → Inv (checkEnd now st).1.
Proof.
  intros Hinv. unfold checkEnd.
  repeat case_match; cbn [fst]; try exact Hinv;
    destruct Hinv; constructor; simpl_state; try assumption;
    first [apply u16_range | lia].
Qed.

Lemma endEpisode_shape now st :
  ∃ e b,
    (endEpisode now st).1
    = startEpisode now (set_bestReward b (set_epsilon e (set_running false st))).
Proof.
  exists (epsilon (endEpisode now st).1), (bestReward (endEpisode now st).1).
  unfold endEpisode. cbn [fst]. destruct st. simpl_state.
  repeat case_match; reflexivity.
Qed.

Lemma Inv_endEpisode now st : Inv st → Inv (endEpisode now st).1.
Proof.
  intros Hinv.
  pose proof (endEpisode_epsilon_range now st (inv_epsilon _ Hinv)) as Heps.
  destruct (endEpisode_shape now st) as (e & b & Heq).
  rewrite Heq in *. simpl_state.
  destruct Hinv. constructor; simpl_state; try assumption; try lia;
    reflexivity.
Qed.

Lemma loop_total t st :
  Inv st → tick_ok t → ∃ st' report, loop t st = Some (st', report) ∧ Inv st'.
Proof.
  intros Hinv Hok. unfold loop. rewrite (inv_running _ Hinv). cbn [negb].
  destruct (loop_body_total t st Hinv Hok) as (st1 & -> & Hinv1).
  cbn [mbind option_bind].
  pose proof (Inv_checkEnd (tick_now t) st1 Hinv1) as Hinv2.
  destruct (checkEnd (tick_now t) st1) as [st2 [reason|]]; cbn [fst] in Hinv2.
  - pose proof (Inv_endEpisode (tick_restart t) st2 Hinv2) as Hinv3.
    destruct (endEpisode (tick_restart t) st2) as [st3 summary].
    eexists _, _. split; [reflexivity|exact Hinv3].
  - eexists _, _. split; [reflexivity|exact Hinv2].
Qed.

Lemma reachable_Inv st : reachable st → Inv st.
Proof.
  induction 1 as [now|t st st' report _ IH Hok Hloop].
  - apply Inv_setup.
  - destruct (loop_total t st IH Hok) as (st'' & report' & Heq & Hinv).
    rewrite Heq in Hloop. injection Hloop as <- <-. exact Hinv.
Qed.

(** In the tables that the sketch reaches every entry is at least -126, so
    the scan of [selectAction] finds a value above its initial [bestVal]
    and answers the lowest index of a greatest value. *)

Lemma reachable_exploit_first st state :
  reachable st → 0 <= state < Q_TABLE_SIZE →
  ∃ row a, Q st !! Z.to_nat state = Some row
           ∧ selectAction_exploit (Q st) state = Some a
           ∧ first_greatest_at row a.
Proof.
  intros Hreach Hstate.
  pose proof (reachable_Inv _ Hreach) as Hinv.
  destruct (wfQ_row _ state (inv_Q _ Hinv) Hstate) as (row & Hrow & Hwf).
  destruct (selectAction_exploit_cases _ _ _ Hrow Hwf)
    as (a & Ha & _ & _ & Hfirst & _).
  exists row, a. split; [exact Hrow|]. split; [exact Ha|].
  apply Hfirst.
  destruct (wfRow_get row 0 Hwf ltac:(unfold NUM_ACTIONS; lia))
    as (v0 & Hv0 & _).
  pose proof (Forall_lookup_1 _ _ _ _
                (Forall_lookup_1 _ _ _ _ (inv_floor _ Hinv) Hrow) Hv0) as Hlo.
  cbv beta in Hlo.
  exists (Z.to_nat 0), v0. split; [exact Hv0|lia].
Qed.

(** ** The table stays a table of [int8_t] *)

(** C1. A call of [updateQ] on a table of [int8_t] values, at indices inside
    the table, stores at [Q[s][a]] the value of [newQ] clamped into
    [-128, 127] (the maximum of -128 and the minimum of 127 and [newQ], not
    [newQ] reduced modulo 256), it leaves the other entries as they were,
    and after the call every entry [Q[s'][a']] with [s'] in [0, 79] and
    [a'] in [0, 4] lies in [-128, 127].  Hence the
    table is one of [int8_t] values in every state that the sketch
    reaches. *)
Theorem updateQ_saturates :
  (∀ st s a r s2,
     wfQ (Q st) →
     0 <= s < Q_TABLE_SIZE → 0 <= a < NUM_ACTIONS → 0 <= s2 < Q_TABLE_SIZE →
     ∃ st' maxNext qsa,
       updateQ s a r s2 st = Some st'
       ∧ updateQ_maxNext (Q st) s2 (seqZ 0 NUM_ACTIONS) (-128) = Some maxNext
       ∧ Qget (Q st) s a = Some qsa
       ∧ Qget (Q st') s a
         = Some (Z.max (-128)
                   (Z.min 127
                      (updateQ_newQ (alpha st) (gamma_d st) r maxNext qsa)))
       ∧ (∀ s' a', 0 <= s' → 0 <= a' → (s', a') ≠ (s, a) →
            Qget (Q st') s' a' = Qget (Q st) s' a')
       ∧ wfQ (Q st')
       ∧ (∀ s' a', 0 <= s' < Q_TABLE_SIZE → 0 <= a' < NUM_ACTIONS →
            ∃ v, Qget (Q st') s' a' = Some v ∧ -128 <= v <= 127))
  ∧ (∀ st s' a',
       reachable st → 0 <= s' < Q_TABLE_SIZE → 0 <= a' < NUM_ACTIONS →
       ∃ v, Qget (Q st) s' a' = Some v ∧ -128 <= v <= 127).
Proof.
  split.
  - exact updateQ_effect.
  - intros st s' a' Hreach Hs' Ha'.
    apply wfQ_get; [|assumption..].
    apply inv_Q, reachable_Inv, Hreach.
Qed.

Lemma updateQ_saturates_witness :
  (∃ st' maxNext qsa,
     updateQ 3 1 (-11) 4 power_on = Some st'
     ∧ updateQ_maxNext (Q power_on) 4 (seqZ 0 NUM_ACTIONS) (-128) = Some maxNext
     ∧ Qget (Q power_on) 3 1 = Some qsa
     ∧ Qget (Q st') 3 1
       = Some (Z.max (-128)
                 (Z.min 127
                    (updateQ_newQ (alpha power_on) (gamma_d power_on) (-11)
                       maxNext qsa)))
     ∧ (∀ s' a', 0 <= s' → 0 <= a' → (s', a') ≠ (3, 1) →
          Qget (Q st') s' a' = Qget (Q power_on) s' a')
     ∧ wfQ (Q st')
     ∧ (∀ s' a', 0 <= s' < Q_TABLE_SIZE → 0 <= a' < NUM_ACTIONS →
          ∃ v, Qget (Q st') s' a' = Some v ∧ -128 <= v <= 127))
  ∧ ∃ v, Qget (Q (setup 0 power_on)) 79 4 = Some v ∧ -128 <= v <= 127.
Proof.
  split.
  - apply (proj1 updateQ_saturates power_on 3 1 (-11) 4).
    + exact wfQ_zeroQ.
    + unfold Q_TABLE_SIZE; lia.
    + unfold NUM_ACTIONS; lia.
    + unfold Q_TABLE_SIZE; lia.
  - apply (proj2 updateQ_saturates (setup 0 power_on) 79 4).
    + apply reachable_setup.
    + unfold Q_TABLE_SIZE; lia.
    + unfold NUM_ACTIONS; lia.
Defined.

(** An update that the clamp decides: from [Q[s][a]] = 127 with reward 127
    and a next state whose best value is 127, [newQ] is 144 and the value
    stored is 127, where a conversion to [int8_t] alone would give -112. *)

Example updateQ_clamps_above :
  updateQ_newQ 38 242 127 127 127 = 144
  ∧ saturate 144 = 127
  ∧ s8 144 = -112.
Proof. repeat split. Qed.

Lemma run_total ticks st :
  Inv st → Forall tick_ok ticks →
  ∃ st' reports, run ticks st = Some (st', reports) ∧ Inv st'.
Proof.
  intros Hinv Hok. revert st Hinv.
  induction Hok as [|t ticks Ht _ IH]; intros st Hinv.
  - exists st, []. split; [reflexivity|exact Hinv].
  - destruct (loop_total t st Hinv Ht) as (st1 & report & Hloop & Hinv1).
    destruct (IH st1 Hinv1) as (st2 & reports & Hrun & Hinv2).
    cbn [run]. rewrite Hloop. cbn [mbind option_bind].
    rewrite Hrun. cbn [mbind option_bind].
    eexists _, _. split; [reflexivity|exact Hinv2].
Qed.

(** ** encodeState *)

(** C3. [encodeState] is segment * 8 + line state on segments in [0, 9]
    and line states in [0, 7], it is injective there and its values lie in
    [0, 79].  Whatever the globals and the hardware readings are,
    [readSensors] and [updatePosition] leave a line state in [0, 7] and a
    segment in [0, 9].  In every state that the sketch reaches, the row of
    [Q] that [loop] indexes with [encodeState] exists, and the pass of
    [loop] makes no access outside [Q]. *)
Theorem encodeState_injective_in_bounds :
  (∀ st1 st2,
     0 <= curSegment st1 <= 9 → 0 <= curLineState st1 <= 7 →
     0 <= curSegment st2 <= 9 → 0 <= curLineState st2 <= 7 →
     encodeState st1 = encodeState st2 →
     curSegment st1 = curSegment st2 ∧ curLineState st1 = curLineState st2)
  ∧ (∀ st,
       0 <= curSegment st <= 9 → 0 <= curLineState st <= 7 →
       encodeState st = curSegment st * 8 + curLineState st
       ∧ 0 <= encodeState st <= 79)
  ∧ (∀ st sensorVals now l r,
       let st' := updatePosition l r (readSensors sensorVals now st) in
       0 <= curSegment st' <= 9 ∧ 0 <= curLineState st' <= 7
       ∧ 0 <= encodeState st' <= 79)
  ∧ (∀ st t,
       reachable st → tick_ok t →
       let st' := updatePosition (tick_encL t) (tick_encR t)
                    (readSensors (tick_sensorVals t) (tick_now t) st) in
       (∃ row, Q st' !! Z.to_nat (encodeState st') = Some row
               ∧ length row = Z.to_nat NUM_ACTIONS)
       ∧ ∃ st'' report, loop t st = Some (st'', report) ∧ reachable st'').
Proof.
  assert (∀ st sensorVals now l r,
            let st' := updatePosition l r (readSensors sensorVals now st) in
            0 <= curSegment st' <= 9 ∧ 0 <= curLineState st' <= 7) as Hrange.
  { intros st sensorVals now l r. cbv zeta. split.
    - apply updatePosition_curSegment.
    - rewrite updatePosition_curLineState, readSensors_curLineState.
      pose proof (lineStateOf_range (sensorBits sensorVals)). lia. }
  split; [|split; [|split]].
  - intros st1 st2 Hs1 Hl1 Hs2 Hl2 Heq.
    destruct (encodeState_exact st1 Hs1 Hl1) as [E1 _].
    destruct (encodeState_exact st2 Hs2 Hl2) as [E2 _].
    lia.
  - intros st Hs Hl. apply encodeState_exact; assumption.
  - intros st sensorVals now l r. cbv zeta.
    destruct (Hrange st sensorVals now l r) as [Hs Hl].
    destruct (encodeState_exact _ Hs Hl) as [_ He]. auto.
  - intros st t Hreach Hok. cbv zeta. split.
    + destruct (Hrange st (tick_sensorVals t) (tick_now t) (tick_encL t)
                  (tick_encR t)) as [Hs Hl].
      destruct (encodeState_exact _ Hs Hl) as [_ He].
      pose proof (Inv_updatePosition (tick_encL t) (tick_encR t) _
                    (Inv_readSensors (tick_sensorVals t) (tick_now t) _
                       (reachable_Inv _ Hreach))) as Hinv.
      destruct (wfQ_row _ (encodeState
                  (updatePosition (tick_encL t) (tick_encR t)
                     (readSensors (tick_sensorVals t) (tick_now t) st)))
                  (inv_Q _ Hinv)) as (row & Hrow & Hlen & _).
      { unfold Q_TABLE_SIZE. lia. }
      exists row. split; assumption.
    + destruct (loop_total t st (reachable_Inv _ Hreach) Hok)
        as (st'' & report & Hloop & _).
      exists st'', report. split; [exact Hloop|].
      eapply reachable_loop; eassumption.
Qed.

Lemma encodeState_injective_in_bounds_witness :
  (let st1 := set_curLineState 6 (set_curSegment 9 power_on) in
   let st2 := set_totalDist 7000 st1 in
   curSegment st1 = curSegment st2 ∧ curLineState st1 = curLineState st2)
  ∧ (let st := set_curLineState 6 (set_curSegment 9 power_on) in
     encodeState st = curSegment st * 8 + curLineState st
     ∧ 0 <= encodeState st <= 79)
  ∧ (let st := setup 0 power_on in
     let t := mkTick [0; 0; 1000; 0; 0] 700 700 200 0 100 0 in
     let st' := updatePosition (tick_encL t) (tick_encR t)
                  (readSensors (tick_sensorVals t) (tick_now t) st) in
     (∃ row, Q st' !! Z.to_nat (encodeState st') = Some row
             ∧ length row = Z.to_nat NUM_ACTIONS)
     ∧ ∃ st'' report, loop t st = Some (st'', report) ∧ reachable st'').
Proof.
  split; [|split].
  - apply (proj1 encodeState_injective_in_bounds
             (set_curLineState 6 (set_curSegment 9 power_on))
             (set_totalDist 7000
                (set_curLineState 6 (set_curSegment 9 power_on))));
      first [simpl; lia | reflexivity].
  - apply (proj1 (proj2 encodeState_injective_in_bounds)
             (set_curLineState 6 (set_curSegment 9 power_on))); simpl; lia.
  - apply (proj2 (proj2 (proj2 encodeState_injective_in_bounds))
             (setup 0 power_on) (mkTick [0; 0; 1000; 0; 0] 700 700 200 0 100 0)).
    + apply reachable_setup.
    + unfold tick_ok, NUM_ACTIONS. simpl. lia.
Defined.

(** ** checkEnd *)

Lemma popcount5_range flags : 0 <= popcount5 flags <= 5.
Proof. unfold popcount5, bit. repeat case_match; lia. Qed.

Lemma Inv_tasksComplete st : Inv st → 0 <= tasksComplete st <= 5.
Proof. intros Hinv. rewrite (inv_tasks _ Hinv). apply popcount5_range. Qed.

Lemma checkEnd_timeout now st :
  timed_out now st → checkEnd now st = (st, Some Timeout).
Proof.
  unfold timed_out, checkEnd. intros H.
  destruct (Z.ltb_spec 45000 (u32 (now - startTime st))); [reflexivity|lia].
Qed.

Lemma checkEnd_complete now st :
  ¬ timed_out now st → 5 <= tasksComplete st → 9 <= curSegment st →
  checkEnd now st = (st, Some Complete).
Proof.
  unfold timed_out, checkEnd. intros H Ht Hs.
  destruct (Z.ltb_spec 45000 (u32 (now - startTime st))); [lia|].
  destruct (Z.leb_spec 5 (tasksComplete st)); [|lia].
  destruct (Z.leb_spec 9 (curSegment st)); [reflexivity|lia].
Qed.

Lemma checkEnd_lost now st :
  ¬ timed_out now st → ¬ (5 <= tasksComplete st ∧ 9 <= curSegment st) →
  curLineState st = 0 →
  checkEnd now st
  = (set_lostCount (u16 (lostCount st + 1)) st,
     if 100 <? u16 (lostCount st + 1) then Some Lost else None).
Proof.
  unfold timed_out, checkEnd. intros H Hd Hl.
  destruct (Z.ltb_spec 45000 (u32 (now - startTime st))); [lia|].
  destruct (Z.leb_spec 5 (tasksComplete st));
    destruct (Z.leb_spec 9 (curSegment st)); cbn [andb]; try lia;
    rewrite Hl; simpl_state; cbn [Z.eqb];
    destruct (100 <? u16 (lostCount st + 1)); reflexivity.
Qed.

Lemma checkEnd_on_line now st :
  ¬ timed_out now st → ¬ (5 <= tasksComplete st ∧ 9 <= curSegment st) →
  curLineState st ≠ 0 →
  checkEnd now st = (set_lostCount 0 st, None).
Proof.
  unfold timed_out, checkEnd. intros H Hd Hl.
  destruct (Z.ltb_spec 45000 (u32 (now - startTime st))); [lia|].
  apply Z.eqb_neq in Hl.
  destruct (Z.leb_spec 5 (tasksComplete st));
    destruct (Z.leb_spec 9 (curSegment st)); cbn [andb]; try lia;
    rewrite Hl; reflexivity.
Qed.

(** ** A pass of [loop] while the robot stands in segment 0 *)

Lemma updatePosition_still st :
  totalDist st = 0 →
  updatePosition 0 0 st = set_curSegment 0 (set_totalDist 0 st).
Proof.
  intros Hd. unfold updatePosition. rewrite Hd.
  change (u16 (0 + Z.quot (s16 (abs16 0 + abs16 0)) 2)) with 0.
  rewrite scanSegments_shape. reflexivity.
Qed.

Lemma loop_body_still t st st' :
  at_start st → tick_encL t = 0 → tick_encR t = 0 →
  loop_body t st = Some st' →
  at_start st' ∧ curSegment st' = 0 ∧ curLineState st' = senses t.
Proof.
  intros (Hd & Hf & Hc) HL HR H.
  apply loop_body_steps in H. cbv zeta in H.
  rewrite HL, HR in H.
  rewrite updatePosition_still in H
    by (rewrite readSensors_shape; exact Hd).
  rewrite readSensors_shape in H. cbv zeta in H. fold (senses t) in H.
  destruct H as (a & st4 & _ & Hupd & ->).
  destruct (updateQ_shape _ _ _ _ _ _ Hupd) as (q' & ->). clear Hupd.
  rewrite checkWaypoints_elsewhere.
  - unfold at_start. simpl_state. auto.
  - intros i Hi. simpl_state.
    assert (i = 0 ∨ i = 1 ∨ i = 2 ∨ i = 3 ∨ i = 4) as Hic by lia.
    destruct Hic as [->|[->|[->|[->| ->]]]]; vm_compute; discriminate.
Qed.

Lemma endEpisode_sum_tasks now st :
  sum_tasks (endEpisode now st).2 = tasksComplete st.
Proof.
  unfold endEpisode. cbn [snd sum_tasks]. repeat case_match; reflexivity.
Qed.

Lemma endEpisode_lostCount now st :
  lostCount (endEpisode now st).1 = lostCount st.
Proof. destruct (endEpisode_shape now st) as (e & b & ->). reflexivity. Qed.

Lemma endEpisode_startTime now st :
  startTime (endEpisode now st).1 = u32 now.
Proof. destruct (endEpisode_shape now st) as (e & b & ->). reflexivity. Qed.

Lemma endEpisode_at_start now st : at_start (endEpisode now st).1.
Proof.
  destruct (endEpisode_shape now st) as (e & b & ->). repeat split.
Qed.

(** A pass with the wheels at rest, within the time budget, from globals
    that satisfy the invariant in an episode that has not left segment 0. *)

Section StationaryPass.

Variables (t : Tick) (st : State).
Hypothesis Hinv : Inv st.
Hypothesis Hst : at_start st.
Hypothesis Hquiet : quiet_tick (startTime st) t.

Lemma loop_body_stationary :
  ∃ st1, loop_body t st = Some st1
         ∧ Inv st1 ∧ at_start st1
         ∧ curLineState st1 = senses t
         ∧ lostCount st1 = lostCount st
         ∧ ¬ timed_out (tick_now t) st1
         ∧ ¬ (5 <= tasksComplete st1 ∧ 9 <= curSegment st1).
Proof.
  destruct Hquiet as (Hok & HL & HR & Htime).
  destruct (loop_body_total t st Hinv Hok) as (st1 & Hbody & Hinv1).
  destruct (loop_body_still _ _ _ Hst HL HR Hbody) as (Hst1 & Hseg & Hline).
  destruct (loop_body_same_params _ _ _ Hbody)
    as (_ & _ & _ & Hlc & Hstart & _).
  exists st1. repeat (split; [assumption|]). split.
  - unfold timed_out. rewrite Hstart. lia.
  - destruct Hst1 as (_ & _ & ->). lia.
Qed.

Lemma loop_still_on_line :
  senses t ≠ 0 →
  ∃ st', loop t st = Some (st', None)
         ∧ Inv st' ∧ at_start st' ∧ startTime st' = startTime st
         ∧ lostCount st' = 0.
Proof.
  intros Hsense.
  destruct loop_body_stationary
    as (st1 & Hbody & Hinv1 & Hst1 & Hline & Hlc & Htime & Hdone).
  destruct (loop_body_same_params _ _ _ Hbody)
    as (_ & _ & _ & _ & Hstart & _).
  unfold loop. rewrite (inv_running _ Hinv), Hbody. cbn [negb mbind option_bind].
  pose proof (Inv_checkEnd (tick_now t) st1 Hinv1) as Hinv2.
  rewrite checkEnd_on_line in * by (first [assumption | congruence]).
  cbn [fst] in Hinv2.
  exists (set_lostCount 0 st1).
  split; [reflexivity|]. split; [exact Hinv2|].
  destruct Hst1 as (? & ? & ?). repeat split; simpl_state; assumption.
Qed.

Lemma loop_still_lost :
  senses t = 0 →
  ∃ st' report,
    loop t st = Some (st', report)
    ∧ Inv st' ∧ at_start st'
    ∧ lostCount st' = u16 (lostCount st + 1)
    ∧ if 100 <? u16 (lostCount st + 1)
      then ∃ summary, report = Some (Lost, summary) ∧ sum_tasks summary = 0
                      ∧ startTime st' = u32 (tick_restart t)
      else report = None ∧ startTime st' = startTime st.
Proof.
  intros Hsense.
  destruct loop_body_stationary
    as (st1 & Hbody & Hinv1 & Hst1 & Hline & Hlc & Htime & Hdone).
  destruct (loop_body_same_params _ _ _ Hbody)
    as (_ & _ & _ & _ & Hstart & _).
  unfold loop. rewrite (inv_running _ Hinv), Hbody. cbn [negb mbind option_bind].
  pose proof (Inv_checkEnd (tick_now t) st1 Hinv1) as Hinv2.
  rewrite checkEnd_lost in * by (first [assumption | congruence]).
  rewrite Hlc in *. cbn [fst] in Hinv2.
  set (st2 := set_lostCount (u16 (lostCount st + 1)) st1) in *.
  destruct (100 <? u16 (lostCount st + 1)).
  - pose proof (Inv_endEpisode (tick_restart t) _ Hinv2) as Hinv3.
    pose proof (endEpisode_at_start (tick_restart t) st2) as Hst3.
    pose proof (endEpisode_lostCount (tick_restart t) st2) as Hlc3.
    pose proof (endEpisode_sum_tasks (tick_restart t) st2) as Hsum.
    pose proof (endEpisode_startTime (tick_restart t) st2) as Hstart3.
    destruct (endEpisode (tick_restart t) st2) as [st3 summary].
    cbn [fst snd] in *.
    exists st3, (Some (Lost, summary)).
    split; [reflexivity|]. split; [exact Hinv3|]. split; [exact Hst3|].
    split; [exact Hlc3|].
    exists summary. split; [reflexivity|]. split; [|exact Hstart3].
    rewrite Hsum. unfold st2. simpl_state.
    destruct Hst1 as (_ & _ & ->). reflexivity.
  - exists st2, None.
    split; [reflexivity|]. split; [exact Hinv2|].
    destruct Hst1 as (? & ? & ?).
    unfold st2. repeat split; simpl_state; assumption.
Qed.

End StationaryPass.

Lemma run_app ticks1 ticks2 st st1 reports1 :
  run ticks1 st = Some (st1, reports1) →
  run (ticks1 ++ ticks2) st
  = '(st2, reports2) ← run ticks2 st1; Some (st2, reports1 ++ reports2).
Proof.
  revert st st1 reports1.
  induction ticks1 as [|t ticks1 IH]; intros st st1 reports1.
  - intros [= <- <-]. cbn [app run].
    destruct (run ticks2 st) as [[st2 reports2]|]; reflexivity.
  - cbn [app run].
    destruct (loop t st) as [[st' report]|]; [|discriminate].
    cbn [mbind option_bind].
    destruct (run ticks1 st') as [[st'' reports]|] eqn:Hrun; [|discriminate].
    cbn [mbind option_bind]. intros [= <- <-].
    rewrite (IH _ _ _ Hrun).
    destruct (run ticks2 st'') as [[st2 reports2]|]; [|reflexivity].
    cbn [mbind option_bind]. rewrite app_assoc. reflexivity.
Qed.

(** A streak of LOST passes that does not reach the limit of the counter
    ends no episode and adds its length to [lostCount]. *)

Lemma run_lost_streak ticks st :
  Inv st → at_start st →
  Forall (fun t => quiet_tick (startTime st) t ∧ senses t = 0) ticks →
  lostCount st + Z.of_nat (length ticks) <= 100 →
  ∃ st', run ticks st = Some (st', [])
         ∧ Inv st' ∧ at_start st' ∧ startTime st' = startTime st
         ∧ lostCount st' = lostCount st + Z.of_nat (length ticks).
Proof.
  intros Hinv Hst Hticks. revert st Hinv Hst Hticks.
  induction ticks as [|t ticks IH]; intros st Hinv Hst Hticks Hlen.
  - exists st. split; [reflexivity|]. split; [exact Hinv|].
    split; [exact Hst|]. split; [reflexivity|]. cbn [length]. lia.
  - inversion_clear Hticks as [|? ? [Hq Hs] Hrest].
    cbn [length] in Hlen.
    pose proof (inv_lost _ Hinv) as Hlc.
    destruct (loop_still_lost t st Hinv Hst Hq Hs)
      as (st1 & report & Hloop & Hinv1 & Hst1 & Hlc1 & Hrep).
    rewrite (u16_id (lostCount st + 1)) in * by lia.
    destruct (Z.ltb_spec 100 (lostCount st + 1)) as [|_]; [lia|].
    destruct Hrep as [-> Hstart1].
    destruct (IH st1 Hinv1 Hst1) as (st2 & Hrun & Hinv2 & Hst2 & Hstart2 & Hlc2).
    { rewrite Hstart1. exact Hrest. }
    { lia. }
    exists st2. cbn [run]. rewrite Hloop. cbn [mbind option_bind].
    rewrite Hrun. cbn [mbind option_bind option_list app].
    split; [reflexivity|]. split; [exact Hinv2|]. split; [exact Hst2|].
    split; [congruence|]. cbn [length]. lia.
Qed.

Lemma setup_at_start now :
  at_start (setup now power_on)
  ∧ startTime (setup now power_on) = u32 now
  ∧ lostCount (setup now power_on) = 0.
Proof. repeat split. Qed.

(** Two passes on the line, one hundred passes off the line, and one more:
    the episode that [setup] starts ends on the last pass, for having lost
    the line, and the next episode starts with the counter at 101. *)

Lemma run_lost_scenario now t1 t2 losts tlast :
  senses t1 ≠ 0 → senses t2 ≠ 0 →
  length losts = 100%nat →
  Forall (fun t => senses t = 0) (losts ++ [tlast]) →
  Forall (quiet_tick (u32 now)) (t1 :: t2 :: losts ++ [tlast]) →
  (∃ st, run (t1 :: t2 :: losts) (setup now power_on) = Some (st, []))
  ∧ ∃ st summary,
      run (t1 :: t2 :: losts ++ [tlast]) (setup now power_on)
      = Some (st, [(Lost, summary)])
      ∧ sum_tasks summary = 0
      ∧ Inv st ∧ at_start st ∧ lostCount st = 101
      ∧ startTime st = u32 (tick_restart tlast).
Proof.
  intros Hs1 Hs2 Hlen Hlost Hquiet.
  inversion_clear Hquiet as [|? ? Hq1 Hquiet'].
  inversion_clear Hquiet' as [|? ? Hq2 Hquiet''].
  apply Forall_app in Hquiet'' as [Hql Hqlast].
  apply Forall_app in Hlost as [Hll Hllast].
  inversion_clear Hqlast as [|? ? Hqlast' _].
  inversion_clear Hllast as [|? ? Hllast' _].
  destruct (setup_at_start now) as (Hst0 & Hstart0 & Hlc0).
  rewrite <- Hstart0 in Hq1, Hq2, Hql, Hqlast'.
  destruct (loop_still_on_line t1 _ (Inv_setup now) Hst0 Hq1 Hs1)
    as (st1 & Hloop1 & Hinv1 & Hst1 & Hstart1 & Hlc1).
  rewrite <- Hstart1 in Hq2, Hql, Hqlast'.
  destruct (loop_still_on_line t2 _ Hinv1 Hst1 Hq2 Hs2)
    as (st2 & Hloop2 & Hinv2 & Hst2 & Hstart2 & Hlc2).
  rewrite <- Hstart2 in Hql, Hqlast'.
  destruct (run_lost_streak losts st2 Hinv2 Hst2)
    as (st3 & Hrun3 & Hinv3 & Hst3 & Hstart3 & Hlc3).
  { apply Forall_and. split; assumption. }
  { rewrite Hlc2, Hlen. lia. }
  rewrite <- Hstart3 in Hqlast'.
  destruct (loop_still_lost tlast st3 Hinv3 Hst3 Hqlast' Hllast')
    as (st4 & report & Hloop4 & Hinv4 & Hst4 & Hlc4 & Hrep).
  rewrite Hlc3, Hlc2, Hlen in Hlc4, Hrep.
  change (u16 (0 + Z.of_nat 100 + 1)) with 101 in Hlc4, Hrep.
  change (100 <? 101) with true in Hrep.
  destruct Hrep as (summary & -> & Hsum & Hstart4).
  split.
  - exists st3. cbn [run]. rewrite Hloop1. cbn [mbind option_bind].
    rewrite Hloop2. cbn [mbind option_bind].
    rewrite Hrun3. reflexivity.
  - exists st4, summary. split; [|auto].
    cbn [run]. rewrite Hloop1. cbn [mbind option_bind].
    rewrite Hloop2. cbn [mbind option_bind].
    rewrite (run_app _ [tlast] _ _ _ Hrun3).
    cbn [run]. rewrite Hloop4. reflexivity.
Qed.

Lemma loop_body_curLineState t st st' :
  loop_body t st = Some st' → curLineState st' = senses t.
Proof.
  intros H. apply loop_body_steps in H. cbv zeta in H.
  assert (curLineState
            (updatePosition (tick_encL t) (tick_encR t)
               (readSensors (tick_sensorVals t) (tick_now t) st))
          = senses t) as H12.
  { rewrite updatePosition_curLineState. apply readSensors_curLineState. }
  revert H H12.
  generalize (updatePosition (tick_encL t) (tick_encR t)
                (readSensors (tick_sensorVals t) (tick_now t) st)) as st2.
  intros st2 (a & st4 & _ & Hupd & ->) H12.
  destruct (updateQ_shape _ _ _ _ _ _ Hupd) as (q' & ->).
  match goal with
  | |- context [checkWaypoints ?x] =>
      destruct (checkWaypoints_shape x) as (f & c & e & ->)
  end.
  exact H12.
Qed.

(** A pass that ends no episode adds one to the counter when it reads the
    line state LOST and clears the counter when it reads any other. *)

Lemma loop_continue_lostCount t st st' :
  running st = true → loop t st = Some (st', None) →
  lostCount st'
  = if senses t =? 0 then u16 (lostCount st + 1) else 0.
Proof.
  intros Hrun. unfold loop. rewrite Hrun. cbn [negb].
  destruct (loop_body t st) as [st1|] eqn:Hbody; [|discriminate].
  cbn [mbind option_bind].
  destruct (loop_body_same_params _ _ _ Hbody) as (_ & _ & _ & Hlc & _).
  rewrite <- (loop_body_curLineState _ _ _ Hbody), <- Hlc.
  unfold checkEnd.
  destruct (45000 <? u32 (tick_now t - startTime st1)).
  { destruct (endEpisode _ _). discriminate. }
  destruct ((5 <=? tasksComplete st1) && (9 <=? curSegment st1)).
  { destruct (endEpisode _ _). discriminate. }
  destruct (curLineState st1 =? 0).
  - simpl_state. destruct (100 <? u16 (lostCount st1 + 1)).
    + destruct (endEpisode _ _). discriminate.
    + intros [= <-]. reflexivity.
  - intros [= <-]. reflexivity.
Qed.

(** C9. [checkEnd] tests the time budget first, then the completion of the
    five tasks in the last segment, then the lost line: the first of the
    three predicates that holds gives the reason, and no reason is given
    when none holds.  On the states that [loop] hands to [checkEnd] the
    task count is at most 5, so that the test [tasksComplete >= 5] of the
    code is [tasksComplete == 5].  The counter that the third predicate
    tests grows by one with each pass that reads LOST and ends no episode,
    and a pass that reads another line state clears it.  From [setup], two passes on the line and
    101 passes off the line, with the wheels at rest and within the time
    budget, whatever [random] delivers: no episode ends during the first
    102 passes, and the last pass ends the episode with the reason Lost
    and a task count of 0. *)
Theorem checkEnd_priority_order :
  (∀ now st,
     tasksComplete st <= 5 →
     (timed_out now st → (checkEnd now st).2 = Some Timeout)
     ∧ (¬ timed_out now st → all_done st →
        (checkEnd now st).2 = Some Complete)
     ∧ (¬ timed_out now st → ¬ all_done st → lost_too_long st →
        (checkEnd now st).2 = Some Lost)
     ∧ (¬ timed_out now st → ¬ all_done st → ¬ lost_too_long st →
        (checkEnd now st).2 = None))
  ∧ (∀ st t st1,
       reachable st → tick_ok t → loop_body t st = Some st1 →
       tasksComplete st1 <= 5)
  ∧ (∀ t st st',
       running st = true → loop t st = Some (st', None) →
       lostCount st' = if senses t =? 0 then u16 (lostCount st + 1) else 0)
  ∧ (∀ now t1 t2 losts tlast,
       senses t1 = 4 → senses t2 = 4 →
       length losts = 100%nat →
       Forall (fun t => senses t = 0) (losts ++ [tlast]) →
       Forall (quiet_tick (u32 now)) (t1 :: t2 :: losts ++ [tlast]) →
       (∃ st, run (t1 :: t2 :: losts) (setup now power_on) = Some (st, []))
       ∧ ∃ st summary,
           run (t1 :: t2 :: losts ++ [tlast]) (setup now power_on)
           = Some (st, [(Lost, summary)])
           ∧ sum_tasks summary = 0).
Proof.
  split; [|split; [|split]].
  - intros now st Htasks. unfold all_done, lost_too_long.
    split; [|split; [|split]].
    + intros Ht. rewrite checkEnd_timeout by exact Ht. reflexivity.
    + intros Ht [Hc Hs]. rewrite checkEnd_complete by (first [exact Ht | lia]).
      reflexivity.
    + intros Ht Hd [Hl Hc]. rewrite checkEnd_lost by (first [exact Ht | lia]).
      cbn [snd]. destruct (Z.ltb_spec 100 (u16 (lostCount st + 1))); [reflexivity|lia].
    + intros Ht Hd Hl.
      destruct (decide (curLineState st = 0)) as [Hz|Hnz].
      * rewrite checkEnd_lost by (first [exact Ht | lia]).
        cbn [snd].
        destruct (Z.ltb_spec 100 (u16 (lostCount st + 1))); [|reflexivity].
        exfalso. apply Hl. split; assumption.
      * rewrite checkEnd_on_line by (first [exact Ht | lia]). reflexivity.
  - intros st t st1 Hreach Hok Hbody.
    destruct (loop_body_total t st (reachable_Inv _ Hreach) Hok)
      as (st1' & Hbody' & Hinv).
    rewrite Hbody in Hbody'. injection Hbody' as <-.
    apply Inv_tasksComplete. exact Hinv.
  - apply loop_continue_lostCount.
  - intros now t1 t2 losts tlast Hs1 Hs2 Hlen Hlost Hquiet.
    destruct (run_lost_scenario now t1 t2 losts tlast)
      as (Hfirst & st & summary & Hrun & Hsum & _); try assumption; try lia.
    split; [exact Hfirst|]. exists st, summary. split; assumption.
Qed.

Lemma checkEnd_priority_order_witness :
  (checkEnd 50000 state_all_three).2 = Some Timeout
  ∧ (checkEnd 100 state_all_three).2 = Some Complete
  ∧ (checkEnd 100 (set_tasksComplete 4 state_all_three)).2 = Some Lost
  ∧ (checkEnd 100 (set_lostCount 3 (set_tasksComplete 4 state_all_three))).2
    = None
  ∧ (∃ st, run (tick_on_line :: tick_on_line :: replicate 100 tick_off_line)
             (setup 0 power_on) = Some (st, []))
  ∧ ∃ st summary,
      run (tick_on_line :: tick_on_line
             :: replicate 100 tick_off_line ++ [tick_off_line])
        (setup 0 power_on)
      = Some (st, [(Lost, summary)])
      ∧ sum_tasks summary = 0.
Proof.
  split; [|split; [|split; [|split]]].
  - apply (proj1 checkEnd_priority_order 50000 state_all_three).
    + simpl. lia.
    + unfold timed_out. vm_compute. reflexivity.
  - apply (proj1 checkEnd_priority_order 100 state_all_three).
    + simpl. lia.
    + unfold timed_out. vm_compute. discriminate.
    + unfold all_done. simpl. lia.
  - apply (proj1 checkEnd_priority_order 100
             (set_tasksComplete 4 state_all_three)).
    + simpl. lia.
    + unfold timed_out. vm_compute. discriminate.
    + unfold all_done. simpl. lia.
    + unfold lost_too_long. split; [reflexivity|]. vm_compute. reflexivity.
  - apply (proj1 checkEnd_priority_order 100
             (set_lostCount 3 (set_tasksComplete 4 state_all_three))).
    + simpl. lia.
    + unfold timed_out. vm_compute. discriminate.
    + unfold all_done. simpl. lia.
    + unfold lost_too_long. vm_compute. intros [_ H]. discriminate H.
  - apply (proj2 (proj2 (proj2 checkEnd_priority_order)) 0
             tick_on_line tick_on_line
             (replicate 100 tick_off_line) tick_off_line).
    + reflexivity.
    + reflexivity.
    + reflexivity.
    + apply Forall_app. split.
      * apply Forall_replicate. reflexivity.
      * apply Forall_cons. split; [reflexivity|apply Forall_nil; exact I].
    + assert (quiet_tick (u32 0) tick_on_line) as Hon.
      { unfold quiet_tick, tick_ok, NUM_ACTIONS. simpl.
        repeat split; try lia. vm_compute. discriminate. }
      assert (quiet_tick (u32 0) tick_off_line) as Hoff.
      { unfold quiet_tick, tick_ok, NUM_ACTIONS. simpl.
        repeat split; try lia. vm_compute. discriminate. }
      apply Forall_cons. split; [exact Hon|].
      apply Forall_cons. split; [exact Hon|].
      apply Forall_app. split.
      * apply Forall_replicate. exact Hoff.
      * apply Forall_cons. split; [exact Hoff|apply Forall_nil; exact I].
Defined.

(** ** The counter of LOST passes across episodes *)

Lemma loop_end_lostCount t st st' reason summary :
  loop t st = Some (st', Some (reason, summary)) →
  match reason with
  | Lost => lostCount st' = u16 (lostCount st + 1) ∧ 100 < lostCount st'
  | _ => lostCount st' = lostCount st
  end.
Proof.
  unfold loop. destruct (running st); cbn [negb]; [|discriminate].
  destruct (loop_body t st) as [st1|] eqn:Hbody; [|discriminate].
  cbn [mbind option_bind].
  destruct (loop_body_same_params _ _ _ Hbody) as (_ & _ & _ & Hlc & _).
  destruct (checkEnd (tick_now t) st1) as [st2 [r|]] eqn:Hce; [|discriminate].
  pose proof (endEpisode_lostCount (tick_restart t) st2) as Hend.
  destruct (endEpisode (tick_restart t) st2) as [st3 summary3].
  cbn [fst] in Hend. intros [= <- <- <-].
  unfold checkEnd in Hce.
  destruct (45000 <? u32 (tick_now t - startTime st1)).
  { injection Hce as <- <-. congruence. }
  destruct ((5 <=? tasksComplete st1) && (9 <=? curSegment st1)).
  { injection Hce as <- <-. congruence. }
  destruct (curLineState st1 =? 0); [|discriminate].
  simpl_state.
  destruct (Z.ltb_spec 100 (u16 (lostCount st1 + 1))); [|discriminate].
  injection Hce as <- <-. simpl_state. rewrite Hend, <- Hlc. split; [reflexivity|lia].
Qed.

Lemma run_residual st ticks tlast :
  Inv st → at_start st → 0 < lostCount st <= 100 →
  Z.of_nat (length ticks) = 100 - lostCount st →
  Forall (fun t => quiet_tick (startTime st) t ∧ senses t = 0)
    (ticks ++ [tlast]) →
  ∃ st' summary, run (ticks ++ [tlast]) st = Some (st', [(Lost, summary)]).
Proof.
  intros Hinv Hst Hlc Hlen Hticks.
  apply Forall_app in Hticks as [Hticks Hlast].
  inversion_clear Hlast as [|? ? [Hq Hs] _].
  destruct (run_lost_streak ticks st Hinv Hst Hticks ltac:(lia))
    as (st1 & Hrun & Hinv1 & Hst1 & Hstart1 & Hlc1).
  rewrite <- Hstart1 in Hq.
  destruct (loop_still_lost tlast st1 Hinv1 Hst1 Hq Hs)
    as (st2 & report & Hloop & _ & _ & _ & Hrep).
  replace (lostCount st1 + 1) with 101 in Hrep by lia.
  change (100 <? u16 101) with true in Hrep.
  destruct Hrep as (summary & -> & _).
  exists st2, summary.
  rewrite (run_app _ [tlast] _ _ _ Hrun).
  cbn [run]. rewrite Hloop. reflexivity.
Qed.

(** C10. [startEpisode] does not write [lostCount].  A pass of [loop] that
    ends an episode for the lost line leaves the counter above 100, and one
    that ends it for another reason leaves the counter as it was.  An
    episode that begins with a counter k in [1, 100] ends for the lost line
    after 101 - k passes off the line, fewer than 101.  After the episode
    of two passes on the line and 101 passes off the line, a single further
    pass off the line ends the next episode for the lost line. *)
Theorem lostCount_survives_episode :
  (∀ now st, lostCount (startEpisode now st) = lostCount st)
  ∧ (∀ t st st' reason summary,
       loop t st = Some (st', Some (reason, summary)) →
       match reason with
       | Lost => lostCount st' = u16 (lostCount st + 1) ∧ 100 < lostCount st'
       | _ => lostCount st' = lostCount st
       end)
  ∧ (∀ st ticks tlast,
       Inv st → at_start st → 0 < lostCount st <= 100 →
       Z.of_nat (length ticks) = 100 - lostCount st →
       Forall (fun t => quiet_tick (startTime st) t ∧ senses t = 0)
         (ticks ++ [tlast]) →
       (length (ticks ++ [tlast]) < 101)%nat
       ∧ ∃ st' summary,
           run (ticks ++ [tlast]) st = Some (st', [(Lost, summary)]))
  ∧ (∀ now t1 t2 losts tlast tnext,
       senses t1 = 4 → senses t2 = 4 →
       length losts = 100%nat →
       Forall (fun t => senses t = 0) (losts ++ [tlast]) →
       Forall (quiet_tick (u32 now)) (t1 :: t2 :: losts ++ [tlast]) →
       quiet_tick (u32 (tick_restart tlast)) tnext → senses tnext = 0 →
       ∃ st summary1 summary2,
         run (t1 :: t2 :: losts ++ [tlast; tnext]) (setup now power_on)
         = Some (st, [(Lost, summary1); (Lost, summary2)])).
Proof.
  split; [|split; [|split]].
  - intros now st. reflexivity.
  - apply loop_end_lostCount.
  - intros st ticks tlast Hinv Hst Hlc Hlen Hticks. split.
    + rewrite length_app. cbn [length]. lia.
    + apply run_residual; assumption.
  - intros now t1 t2 losts tlast tnext Hs1 Hs2 Hlen Hlost Hquiet Hqn Hsn.
    destruct (run_lost_scenario now t1 t2 losts tlast)
      as (_ & st & summary & Hrun & _ & Hinv & Hst & Hlc & Hstart);
      try assumption; try lia.
    rewrite <- Hstart in Hqn.
    destruct (loop_still_lost tnext st Hinv Hst Hqn Hsn)
      as (st2 & report & Hloop & _ & _ & _ & Hrep).
    rewrite Hlc in Hrep. change (100 <? u16 (101 + 1)) with true in Hrep.
    destruct Hrep as (summary2 & -> & _).
    exists st2, summary, summary2.
    replace (t1 :: t2 :: losts ++ [tlast; tnext])
      with ((t1 :: t2 :: losts ++ [tlast]) ++ [tnext]).
    2:{ cbn [app]. rewrite <- app_assoc. reflexivity. }
    rewrite (run_app _ [tnext] _ _ _ Hrun).
    cbn [run]. rewrite Hloop. reflexivity.
Qed.

Lemma lostCount_survives_episode_witness :
  (let st := set_lostCount 60 (setup 0 power_on) in
   (length (replicate 40 tick_off_line ++ [tick_off_line]) < 101)%nat
   ∧ ∃ st' summary,
       run (replicate 40 tick_off_line ++ [tick_off_line]) st
       = Some (st', [(Lost, summary)]))
  ∧ ∃ st summary1 summary2,
      run (tick_on_line :: tick_on_line
             :: replicate 100 tick_off_line
                ++ [tick_off_line; tick_off_line_later])
        (setup 0 power_on)
      = Some (st, [(Lost, summary1); (Lost, summary2)]).
Proof.
  assert (quiet_tick (u32 0) tick_on_line) as Hon.
  { unfold quiet_tick, tick_ok, NUM_ACTIONS. simpl.
    repeat split; try lia. vm_compute. discriminate. }
  assert (quiet_tick (u32 0) tick_off_line) as Hoff.
  { unfold quiet_tick, tick_ok, NUM_ACTIONS. simpl.
    repeat split; try lia. vm_compute. discriminate. }
  split.
  - apply (proj1 (proj2 (proj2 lostCount_survives_episode))
             (set_lostCount 60 (setup 0 power_on))
             (replicate 40 tick_off_line) tick_off_line).
    + constructor; simpl; try (unfold EPS_MIN; lia); try reflexivity.
      * exact wfQ_zeroQ.
      * exact Qabove_zeroQ.
    + repeat split.
    + simpl. lia.
    + reflexivity.
    + apply Forall_app. split.
      * apply Forall_replicate. split; [exact Hoff|reflexivity].
      * apply Forall_cons. split; [|apply Forall_nil; exact I].
        split; [exact Hoff|reflexivity].
  - apply (proj2 (proj2 (proj2 lostCount_survives_episode)) 0
             tick_on_line tick_on_line (replicate 100 tick_off_line)
             tick_off_line tick_off_line_later).
    + reflexivity.
    + reflexivity.
    + reflexivity.
    + apply Forall_app. split.
      * apply Forall_replicate. reflexivity.
      * apply Forall_cons. split; [reflexivity|apply Forall_nil; exact I].
    + apply Forall_cons. split; [exact Hon|].
      apply Forall_cons. split; [exact Hon|].
      apply Forall_app. split.
      * apply Forall_replicate. exact Hoff.
      * apply Forall_cons. split; [exact Hoff|apply Forall_nil; exact I].
    + unfold quiet_tick, tick_ok, NUM_ACTIONS. simpl.
      repeat split; try lia. vm_compute. discriminate.
    + reflexivity.
Defined.

(** * Further properties of the learning sketch *)

(** ** calcReward *)

(** X1. The reward of a pass is 7 on the centre of the line in segment 5,
    2 on the centre elsewhere, 0 one sensor off the centre, -11 off the
    line and -2 in every other line state: it lies in [-11, 7], it is
    positive on the centre only, and it depends on no global other than
    [curLineState] and [curSegment], so not on the action taken. *)
Theorem calcReward_values st :
  calcReward st
  = (if curLineState st =? 4 then (if curSegment st =? 5 then 7 else 2)
     else if (curLineState st =? 3) || (curLineState st =? 5) then 0
     else if curLineState st =? 0 then -11
     else -2)
  ∧ -11 <= calcReward st <= 7
  ∧ (0 < calcReward st ↔ curLineState st = 4)
  ∧ (∀ st', curLineState st' = curLineState st → curSegment st' = curSegment st →
            calcReward st' = calcReward st).
Proof.
  assert (calcReward st
          = (if curLineState st =? 4 then (if curSegment st =? 5 then 7 else 2)
             else if (curLineState st =? 3) || (curLineState st =? 5) then 0
             else if curLineState st =? 0 then -11
             else -2)) as Heq.
  { unfold calcReward.
    destruct (curLineState st =? 4); cbn [andb].
    - destruct (curSegment st =? 5); reflexivity.
    - destruct ((curLineState st =? 3) || (curLineState st =? 5));
        [reflexivity|].
      destruct (curLineState st =? 0); reflexivity. }
  split; [exact Heq|]. split; [|split].
  - rewrite Heq. repeat case_match; lia.
  - rewrite Heq. destruct (Z.eqb_spec (curLineState st) 4) as [H4|H4].
    + split; [auto|]. intros _. destruct (curSegment st =? 5); lia.
    + split; [|contradiction]. repeat case_match; lia.
  - intros st' Hl Hs. unfold calcReward. rewrite Hl, Hs. reflexivity.
Qed.

(** ** updatePosition *)

Lemma findSegment_bounds dist i :
  findSegment (reverse (seqZ 0 NUM_SEGMENTS)) dist = Some i →
  0 <= i <= 9
  ∧ SEG_DIST !!! Z.to_nat i <= dist
  ∧ (i < 9 → dist < SEG_DIST !!! Z.to_nat (i + 1)).
Proof.
  change (reverse (seqZ 0 NUM_SEGMENTS)) with [9; 8; 7; 6; 5; 4; 3; 2; 1; 0].
  cbn [findSegment].
  repeat match goal with
         | |- context [SEG_DIST !!! ?n] =>
             let v := eval vm_compute in (SEG_DIST !!! n) in
             change (SEG_DIST !!! n) with v
         end.
  repeat match goal with
         | |- context [?a <=? dist] => destruct (Z.leb_spec a dist)
         end;
    intros [= <-]; vm_compute (SEG_DIST !!! _);
    (split; [lia|split; [lia|]]); intros ?; vm_compute (SEG_DIST !!! _); lia.
Qed.

Lemma updatePosition_segment_bounds l r st :
  let st' := updatePosition l r st in
  0 <= curSegment st' <= 9
  ∧ SEG_DIST !!! Z.to_nat (curSegment st') <= totalDist st'
  ∧ (curSegment st' < 9 →
     totalDist st' < SEG_DIST !!! Z.to_nat (curSegment st' + 1)).
Proof.
  cbv zeta. unfold updatePosition. rewrite scanSegments_shape.
  cbn [totalDist set_totalDist].
  set (d := u16 (totalDist st + Z.quot (s16 (abs16 l + abs16 r)) 2)).
  destruct (findSegment_total d (proj1 (u16_range _))) as (i & Hi & _).
  rewrite Hi. cbn [curSegment totalDist set_curSegment set_totalDist].
  exact (findSegment_bounds d i Hi).
Qed.

Lemma SEG_DIST_increasing i j :
  0 <= i → i < j → j <= 9 →
  SEG_DIST !!! Z.to_nat i < SEG_DIST !!! Z.to_nat j.
Proof.
  intros Hi Hij Hj.
  assert (i = 0 ∨ i = 1 ∨ i = 2 ∨ i = 3 ∨ i = 4 ∨ i = 5 ∨ i = 6 ∨ i = 7
          ∨ i = 8) as Hic by lia.
  assert (j = 1 ∨ j = 2 ∨ j = 3 ∨ j = 4 ∨ j = 5 ∨ j = 6 ∨ j = 7
          ∨ j = 8 ∨ j = 9) as Hjc by lia.
  destruct Hic as [->|[->|[->|[->|[->|[->|[->|[->| ->]]]]]]]];
    destruct Hjc as [->|[->|[->|[->|[->|[->|[->|[->| ->]]]]]]]];
    first [lia | reflexivity].
Qed.

(** X2. After [updatePosition] the segment is the one whose threshold is
    the highest that the accumulated distance has reached: the threshold of
    the segment is at most the distance, the threshold of the next segment,
    if there is one, is above the distance, and a distance equal to a
    threshold belongs to the segment of that threshold. *)
Theorem updatePosition_segment_of_distance l r st :
  let st' := updatePosition l r st in
  0 <= curSegment st' <= 9
  ∧ SEG_DIST !!! Z.to_nat (curSegment st') <= totalDist st'
  ∧ (curSegment st' < 9 →
     totalDist st' < SEG_DIST !!! Z.to_nat (curSegment st' + 1))
  ∧ (∀ i, 0 <= i <= 9 → totalDist st' = SEG_DIST !!! Z.to_nat i →
          curSegment st' = i).
Proof.
  cbv zeta.
  destruct (updatePosition_segment_bounds l r st) as (Hr & Hlo & Hhi).
  split; [exact Hr|]. split; [exact Hlo|]. split; [exact Hhi|].
  intros i Hi Hd.
  set (c := curSegment (updatePosition l r st)) in *.
  destruct (Z.lt_trichotomy c i) as [Hlt|[Heq|Hgt]]; [|exact Heq|].
  - exfalso. specialize (Hhi ltac:(lia)).
    destruct (Z.eq_dec (c + 1) i) as [He|Hne]; [rewrite He in Hhi; lia|].
    pose proof (SEG_DIST_increasing (c + 1) i ltac:(lia) ltac:(lia)
                  ltac:(lia)). lia.
  - exfalso.
    pose proof (SEG_DIST_increasing i c ltac:(lia) ltac:(lia) ltac:(lia)).
    lia.
Qed.
Lemma abs16_abs x : -32767 <= x <= 32767 → abs16 x = Z.abs x.
Proof.
  intros Hx. unfold abs16.
  destruct (Z.ltb_spec 0 x); [lia|]. rewrite s16_id by lia. lia.
Qed.

Lemma updatePosition_totalDist l r st :
  Z.abs l + Z.abs r <= 32767 →
  totalDist (updatePosition l r st)
  = u16 (totalDist st + (Z.abs l + Z.abs r) / 2).
Proof.
  intros Hlr.
  destruct (updatePosition_shape l r st) as (i & _ & ->).
  cbn [totalDist set_curSegment set_totalDist].
  rewrite !abs16_abs by lia. rewrite s16_id by lia.
  rewrite Z.quot_div_nonneg by lia. reflexivity.
Qed.

(** X3. While neither the sum of the two encoder magnitudes leaves 16 bits
    nor the accumulated distance, [updatePosition] adds half that sum to
    [totalDist]; the distance does not decrease, and a segment whose
    threshold the distance had reached is never left for a lower one. *)
Theorem updatePosition_advances l r st :
  0 <= totalDist st →
  Z.abs l + Z.abs r <= 32767 →
  totalDist st + (Z.abs l + Z.abs r) / 2 <= 65535 →
  0 <= curSegment st <= 9 →
  SEG_DIST !!! Z.to_nat (curSegment st) <= totalDist st →
  let st' := updatePosition l r st in
  totalDist st' = totalDist st + (Z.abs l + Z.abs r) / 2
  ∧ totalDist st <= totalDist st'
  ∧ curSegment st <= curSegment st'.
Proof.
  intros Hd Hlr Hsum Hseg Hcons. cbv zeta.
  assert (0 <= (Z.abs l + Z.abs r) / 2) as Hstep
    by (apply Z.div_pos; lia).
  assert (totalDist (updatePosition l r st)
          = totalDist st + (Z.abs l + Z.abs r) / 2) as Heq.
  { rewrite updatePosition_totalDist by exact Hlr. apply u16_id. lia. }
  split; [exact Heq|]. split; [lia|].
  destruct (updatePosition_segment_bounds l r st)
    as (Hr & _ & Hhi).
  destruct (Z_lt_le_dec (curSegment (updatePosition l r st)) (curSegment st))
    as [Hlt|Hge]; [|exact Hge].
  exfalso. specialize (Hhi ltac:(lia)).
  assert (SEG_DIST !!! Z.to_nat (curSegment (updatePosition l r st) + 1)
          <= SEG_DIST !!! Z.to_nat (curSegment st)) as Hmono.
  { destruct (Z.eq_dec (curSegment (updatePosition l r st) + 1)
                (curSegment st)) as [->|Hne]; [lia|].
    apply Z.lt_le_incl, SEG_DIST_increasing; lia. }
  lia.
Qed.

Lemma updatePosition_advances_witness :
  let st := set_curSegment 1 (set_totalDist 1390 power_on) in
  let st' := updatePosition 12 (-9) st in
  totalDist st' = totalDist st + (Z.abs 12 + Z.abs (-9)) / 2
  ∧ totalDist st <= totalDist st'
  ∧ curSegment st <= curSegment st'.
Proof.
  apply (updatePosition_advances 12 (-9)
           (set_curSegment 1 (set_totalDist 1390 power_on))).
  - vm_compute. discriminate.
  - vm_compute. discriminate.
  - vm_compute. discriminate.
  - simpl. lia.
  - vm_compute. discriminate.
Defined.

(** X4. [totalDist] is a 16-bit counter: when a pass takes it past 65535
    it starts again from 0, and with a step below the first threshold the
    robot is put back into segment 0. *)
Theorem updatePosition_wraps l r st :
  0 <= totalDist st <= 65535 →
  Z.abs l + Z.abs r <= 32767 →
  65536 <= totalDist st + (Z.abs l + Z.abs r) / 2 →
  let st' := updatePosition l r st in
  totalDist st' = totalDist st + (Z.abs l + Z.abs r) / 2 - 65536
  ∧ totalDist st' < totalDist st
  ∧ ((Z.abs l + Z.abs r) / 2 <= 600 → curSegment st' = 0).
Proof.
  intros Hd Hlr Hwrap. cbv zeta.
  assert ((Z.abs l + Z.abs r) / 2 <= 16383) as Hstep.
  { Z.div_mod_to_equations. lia. }
  assert (totalDist (updatePosition l r st)
          = totalDist st + (Z.abs l + Z.abs r) / 2 - 65536) as Heq.
  { rewrite updatePosition_totalDist by exact Hlr. unfold u16.
    symmetry. apply Z.mod_unique_pos with (q := 1); lia. }
  split; [exact Heq|]. split; [lia|].
  intros Hsmall.
  destruct (updatePosition_segment_bounds l r st)
    as (Hr & Hlo & _).
  destruct (Z.eq_dec (curSegment (updatePosition l r st)) 0) as [H0|H0];
    [exact H0|].
  exfalso.
  pose proof (SEG_DIST_increasing 0 (curSegment (updatePosition l r st))
                ltac:(lia) ltac:(lia) ltac:(lia)) as Hinc.
  assert (600 <= SEG_DIST !!! Z.to_nat (curSegment (updatePosition l r st)))
    as H600.
  { destruct (Z.eq_dec (curSegment (updatePosition l r st)) 1) as [->|H1];
      [vm_compute; discriminate|].
    pose proof (SEG_DIST_increasing 1 (curSegment (updatePosition l r st))
                  ltac:(lia) ltac:(lia) ltac:(lia)) as Hinc1.
    change (SEG_DIST !!! Z.to_nat 1) with 600 in Hinc1. lia. }
  lia.
Qed.

Lemma updatePosition_wraps_witness :
  let st := set_curSegment 9 (set_totalDist 65530 power_on) in
  let st' := updatePosition 10 10 st in
  totalDist st' = totalDist st + (Z.abs 10 + Z.abs 10) / 2 - 65536
  ∧ totalDist st' < totalDist st
  ∧ ((Z.abs 10 + Z.abs 10) / 2 <= 600 → curSegment st' = 0).
Proof.
  apply (updatePosition_wraps 10 10
           (set_curSegment 9 (set_totalDist 65530 power_on))).
  - simpl. lia.
  - vm_compute. discriminate.
  - vm_compute. discriminate.
Defined.

(** ** readSensors *)

Lemma sensorBits_five a b c d e :
  sensorBits [a; b; c; d; e]
  = (if 500 <? a then 16 else 0) + (if 500 <? b then 8 else 0)
    + (if 500 <? c then 4 else 0) + (if 500 <? d then 2 else 0)
    + (if 500 <? e then 1 else 0).
Proof.
  unfold sensorBits. change (seqZ 0 NUM_SENSORS) with [0; 1; 2; 3; 4].
  cbn [foldl].
  change ([a; b; c; d; e] !!! Z.to_nat 0) with a.
  change ([a; b; c; d; e] !!! Z.to_nat 1) with b.
  change ([a; b; c; d; e] !!! Z.to_nat 2) with c.
  change ([a; b; c; d; e] !!! Z.to_nat 3) with d.
  change ([a; b; c; d; e] !!! Z.to_nat 4) with e.
  destruct (500 <? a); destruct (500 <? b); destruct (500 <? c);
    destruct (500 <? d); destruct (500 <? e); reflexivity.
Qed.

(** X5. The line state that [readSensors] stores is decided by the first
    sensor above the threshold of 500 in the order centre, left of centre,
    right of centre, leftmost, rightmost: 4, 3, 5, 2, 6; it is 0 exactly
    when no sensor is above the threshold, and it is never 1 or 7. *)
Theorem readSensors_line_state a b c d e now st :
  let ls := curLineState (readSensors [a; b; c; d; e] now st) in
  ls = (if 500 <? c then 4
        else if 500 <? b then 3
        else if 500 <? d then 5
        else if 500 <? a then 2
        else if 500 <? e then 6
        else 0)
  ∧ ls ≠ 1 ∧ ls ≠ 7
  ∧ (ls = 0 ↔ a <= 500 ∧ b <= 500 ∧ c <= 500 ∧ d <= 500 ∧ e <= 500).
Proof.
  cbv zeta. rewrite readSensors_curLineState, sensorBits_five.
  unfold lineStateOf.
  destruct (Z.ltb_spec 500 a); destruct (Z.ltb_spec 500 b);
    destruct (Z.ltb_spec 500 c); destruct (Z.ltb_spec 500 d);
    destruct (Z.ltb_spec 500 e); cbn;
    (split; [reflexivity|]); (split; [discriminate|]);
    (split; [discriminate|]); split; first [discriminate | lia | auto].
Qed.

(** X6. A call of [readSensors] counts one reading, and counts it as
    centred exactly when the line state it stores is 3, 4 or 5; as long as
    [readings] has not reached 65535, [centered] stays at most
    [readings]. *)
Theorem readSensors_counts sensorVals now st :
  0 <= centered st <= readings st → readings st < 65535 →
  let st' := readSensors sensorVals now st in
  readings st' = readings st + 1
  ∧ centered st'
    = centered st
      + (if (3 <=? curLineState st') && (curLineState st' <=? 5) then 1 else 0)
  ∧ 0 <= centered st' <= readings st'.
Proof.
  intros Hc Hr. cbv zeta. rewrite readSensors_shape. cbv zeta.
  cbn [readings centered curLineState set_centered set_readings
       set_curLineState].
  rewrite (u16_id (readings st + 1)) by lia.
  split; [reflexivity|].
  destruct ((3 <=? lineStateOf (sensorBits sensorVals))
            && (lineStateOf (sensorBits sensorVals) <=? 5)).
  - rewrite u16_id by lia. lia.
  - lia.
Qed.

Lemma readSensors_counts_witness :
  let st := setup 0 power_on in
  let st' := readSensors [0; 900; 0; 0; 0] 10 st in
  readings st' = readings st + 1
  ∧ centered st'
    = centered st
      + (if (3 <=? curLineState st') && (curLineState st' <=? 5) then 1 else 0)
  ∧ 0 <= centered st' <= readings st'.
Proof.
  apply (readSensors_counts [0; 900; 0; 0; 0] 10 (setup 0 power_on)).
  - simpl. lia.
  - simpl. lia.
Defined.

(** ** The line-following accuracy that endEpisode reports *)

Lemma endEpisode_sum_lfa now st :
  sum_lfa (endEpisode now st).2
  = if 0 <? readings st
    then u8 (u16 (u16 (centered st) * 100) / readings st)
    else 0.
Proof.
  unfold endEpisode. destruct st. simpl_state.
  destruct (_ <? EPS_MIN); simpl_state;
    match goal with
    | |- context [if ?x <? ?y then set_bestReward _ _ else _] =>
        destruct (x <? y)
    end; reflexivity.
Qed.

(** X7. The accuracy in the summary of [endEpisode] is 0 when there was no
    reading, with no division; it is the percentage 100 * centered /
    readings, at most 100, while [centered] is at most 655; from 656 on
    the 16-bit product 100 * centered has wrapped, and with 656 readings,
    all of them centred, the accuracy reported is 0. *)
Theorem endEpisode_accuracy now st :
  (readings st = 0 → sum_lfa (endEpisode now st).2 = 0)
  ∧ (0 <= centered st <= readings st → 0 < readings st →
     centered st <= 655 →
     sum_lfa (endEpisode now st).2 = 100 * centered st / readings st
     ∧ 0 <= sum_lfa (endEpisode now st).2 <= 100)
  ∧ (centered st = 656 → readings st = 656 →
     sum_lfa (endEpisode now st).2 = 0).
Proof.
  rewrite endEpisode_sum_lfa. split; [|split].
  - intros ->. reflexivity.
  - intros Hc Hr H655.
    destruct (Z.ltb_spec 0 (readings st)); [|lia].
    rewrite (u16_id (centered st)) by lia.
    rewrite (u16_id (centered st * 100)) by lia.
    assert (0 <= centered st * 100 / readings st <= 100) as Hq.
    { split; [apply Z.div_pos; lia|].
      apply Z.div_le_upper_bound; nia. }
    rewrite u8_id by lia.
    rewrite (Z.mul_comm 100). split; [reflexivity|exact Hq].
  - intros -> ->. reflexivity.
Qed.

Lemma endEpisode_accuracy_witness :
  let st := set_readings 200 (set_centered 150 power_on) in
  (sum_lfa (endEpisode 0 power_on).2 = 0)
  ∧ (sum_lfa (endEpisode 0 st).2 = 100 * centered st / readings st
     ∧ 0 <= sum_lfa (endEpisode 0 st).2 <= 100)
  ∧ sum_lfa (endEpisode 0 (set_readings 656 (set_centered 656 power_on))).2
    = 0.
Proof.
  split; [|split].
  - apply (proj1 (endEpisode_accuracy 0 power_on)). reflexivity.
  - apply (proj1 (proj2 (endEpisode_accuracy 0
             (set_readings 200 (set_centered 150 power_on))))).
    + simpl. lia.
    + simpl. lia.
    + simpl. lia.
  - apply (proj2 (proj2 (endEpisode_accuracy 0
             (set_readings 656 (set_centered 656 power_on)))));
      reflexivity.
Defined.

(** ** The exploration rate and the best reward over a run *)

Lemma endEpisode_epsilon_minus_one now st :
  EPS_MIN <= epsilon st <= 127 →
  epsilon (endEpisode now st).1 = Z.max EPS_MIN (epsilon st - 1).
Proof.
  intros He. rewrite endEpisode_epsilon by lia.
  unfold EPS_MIN, EPS_DECAY in *.
  assert (epsilon st * 253 / 255 = epsilon st - 1) as ->; [|reflexivity].
  Z.div_mod_to_equations. lia.
Qed.

Lemma loop_epsilon_step t st st' report :
  EPS_MIN <= epsilon st <= 127 →
  loop t st = Some (st', report) →
  epsilon st'
  = match report with
    | Some _ => Z.max EPS_MIN (epsilon st - 1)
    | None => epsilon st
    end.
Proof.
  intros He. unfold loop.
  destruct (running st); cbn [negb]; [|intros [= <- <-]; reflexivity].
  destruct (loop_body t st) as [st1|] eqn:Hbody; [|discriminate].
  cbn [mbind option_bind].
  destruct (loop_body_same_params _ _ _ Hbody) as (Heps & _).
  pose proof (checkEnd_epsilon (tick_now t) st1) as Hce.
  destruct (checkEnd (tick_now t) st1) as [st2 [reason|]]; cbn [fst] in Hce.
  - pose proof (endEpisode_epsilon_minus_one (tick_restart t) st2) as Hend.
    destruct (endEpisode (tick_restart t) st2) as [st3 summary].
    cbn [fst] in Hend. intros [= <- <-].
    rewrite Hend by lia. congruence.
  - intros [= <- <-]. congruence.
Qed.

(** X8. With the constants of the sketch the decay of [endEpisode] is a
    step of one: from a rate in [13, 127] it leaves the rate minus one, or
    13 when that would be lower.  Over a run of [loop] the rate is the rate
    at the start minus the number of episodes that ended, with the same
    floor; from [setup] it is the greater of 13 and 77 minus that
    number. *)
Theorem epsilon_after_episodes :
  (∀ now st,
     EPS_MIN <= epsilon st <= 127 →
     epsilon (endEpisode now st).1 = Z.max EPS_MIN (epsilon st - 1))
  ∧ (∀ ticks st st' reports,
       EPS_MIN <= epsilon st <= 127 →
       run ticks st = Some (st', reports) →
       epsilon st' = Z.max EPS_MIN (epsilon st - Z.of_nat (length reports)))
  ∧ (∀ now ticks st' reports,
       run ticks (setup now power_on) = Some (st', reports) →
       epsilon st' = Z.max 13 (77 - Z.of_nat (length reports))).
Proof.
  assert (∀ ticks st st' reports,
            EPS_MIN <= epsilon st <= 127 →
            run ticks st = Some (st', reports) →
            epsilon st'
            = Z.max EPS_MIN (epsilon st - Z.of_nat (length reports)))
    as Hrun.
  { intros ticks. induction ticks as [|t ticks IH]; intros st st' reports He.
    - intros [= <- <-]. cbn [length]. lia.
    - cbn [run].
      destruct (loop t st) as [[st1 report]|] eqn:Hloop; [|discriminate].
      cbn [mbind option_bind].
      pose proof (loop_epsilon_step _ _ _ _ He Hloop) as H1.
      destruct (run ticks st1) as [[st2 reports2]|] eqn:Hrun; [|discriminate].
      cbn [mbind option_bind]. intros [= <- <-].
      assert (EPS_MIN <= epsilon st1 <= 127) as He1
        by (unfold EPS_MIN in *; destruct report; lia).
      rewrite (IH st1 st2 reports2 He1 Hrun).
      rewrite length_app. unfold EPS_MIN in *.
      destruct report; simpl length; lia. }
  split; [exact endEpisode_epsilon_minus_one|]. split; [exact Hrun|].
  intros now ticks st' reports Hr.
  apply (Hrun ticks (setup now power_on) st' reports); [|exact Hr].
  unfold EPS_MIN. simpl. lia.
Qed.

Lemma epsilon_after_episodes_witness :
  epsilon (endEpisode 0 (setup 0 power_on)).1
  = Z.max EPS_MIN (epsilon (setup 0 power_on) - 1)
  ∧ epsilon after_lost_episode
    = Z.max EPS_MIN
        (epsilon (setup 0 power_on) - Z.of_nat (length lost_episode_reports))
  ∧ epsilon after_lost_episode
    = Z.max 13 (77 - Z.of_nat (length lost_episode_reports)).
Proof.
  split; [|split].
  - apply (proj1 epsilon_after_episodes 0 (setup 0 power_on)).
    unfold EPS_MIN. simpl. lia.
  - apply (proj1 (proj2 epsilon_after_episodes) lost_episode
             (setup 0 power_on) after_lost_episode lost_episode_reports).
    + unfold EPS_MIN. simpl. lia.
    + vm_compute. reflexivity.
  - apply (proj2 (proj2 epsilon_after_episodes) 0 lost_episode
             after_lost_episode lost_episode_reports).
    vm_compute. reflexivity.
Defined.

Lemma endEpisode_best now st :
  bestReward (endEpisode now st).1
  = Z.max (bestReward st) (episodeReward st)
  ∧ sum_best (endEpisode now st).2 = Z.max (bestReward st) (episodeReward st)
  ∧ sum_reward (endEpisode now st).2 = episodeReward st.
Proof.
  unfold endEpisode. destruct st. simpl_state.
  destruct (_ <? EPS_MIN); simpl_state;
    match goal with
    | |- context [if ?x <? ?y then set_bestReward _ _ else _] =>
        destruct (Z.ltb_spec x y)
    end; cbn; repeat split; lia.
Qed.

Lemma loop_bestReward t st st' report :
  loop t st = Some (st', report) →
  bestReward st <= bestReward st'
  ∧ match report with
    | Some (_, summary) =>
        sum_reward summary <= sum_best summary
        ∧ sum_best summary = bestReward st'
        ∧ bestReward st' = Z.max (bestReward st) (sum_reward summary)
    | None => bestReward st' = bestReward st
    end.
Proof.
  unfold loop.
  destruct (running st); cbn [negb]; [|intros [= <- <-]; lia].
  destruct (loop_body t st) as [st1|] eqn:Hbody; [|discriminate].
  cbn [mbind option_bind].
  destruct (loop_body_same_params _ _ _ Hbody)
    as (_ & _ & _ & _ & _ & Hbest & _).
  assert (bestReward (checkEnd (tick_now t) st1).1 = bestReward st1
          ∧ episodeReward (checkEnd (tick_now t) st1).1 = episodeReward st1)
    as [Hce1 Hce2].
  { unfold checkEnd. repeat case_match; split; reflexivity. }
  destruct (checkEnd (tick_now t) st1) as [st2 [reason|]];
    cbn [fst] in Hce1, Hce2.
  - destruct (endEpisode_best (tick_restart t) st2) as (H1 & H2 & H3).
    destruct (endEpisode (tick_restart t) st2) as [st3 summary].
    cbn [fst snd] in *. intros [= <- <-]. lia.
  - intros [= <- <-]. lia.
Qed.

(** X9. [endEpisode] leaves in [bestReward] the greater of [bestReward]
    and the reward of the episode, and prints it as the best.  Over a run
    of [loop], [bestReward] never decreases, and for every episode that
    ended the reward printed is at most the best printed, which is at most
    [bestReward] at the end of the run. *)
Theorem bestReward_high_water :
  (∀ now st,
     bestReward (endEpisode now st).1
     = Z.max (bestReward st) (episodeReward st)
     ∧ sum_best (endEpisode now st).2 = bestReward (endEpisode now st).1
     ∧ sum_reward (endEpisode now st).2 = episodeReward st)
  ∧ (∀ ticks st st' reports,
       run ticks st = Some (st', reports) →
       bestReward st <= bestReward st'
       ∧ Forall (fun report =>
                   sum_reward report.2 <= sum_best report.2
                   ∧ sum_best report.2 <= bestReward st') reports).
Proof.
  split.
  - intros now st. destruct (endEpisode_best now st) as (H1 & H2 & H3).
    rewrite H1, H2, H3. auto.
  - intros ticks. induction ticks as [|t ticks IH]; intros st st' reports.
    + intros [= <- <-]. split; [lia|constructor].
    + cbn [run].
      destruct (loop t st) as [[st1 report]|] eqn:Hloop; [|discriminate].
      cbn [mbind option_bind].
      destruct (loop_bestReward _ _ _ _ Hloop) as [H1 Hrep].
      destruct (run ticks st1) as [[st2 reports2]|] eqn:Hrun; [|discriminate].
      cbn [mbind option_bind]. intros [= <- <-].
      destruct (IH st1 st2 reports2 Hrun) as [H2 Hall].
      split; [lia|].
      apply Forall_app. split; [|exact Hall].
      destruct report as [[reason summary]|]; cbn [option_list];
        constructor; [|constructor].
      cbn [snd]. lia.
Qed.

Lemma bestReward_high_water_witness :
  bestReward (setup 0 power_on) <= bestReward after_lost_episode
  ∧ Forall (fun report =>
              sum_reward report.2 <= sum_best report.2
              ∧ sum_best report.2 <= bestReward after_lost_episode)
      lost_episode_reports.
Proof.
  apply (proj2 bestReward_high_water lost_episode (setup 0 power_on)
           after_lost_episode lost_episode_reports).
  vm_compute. reflexivity.
Defined.

(** ** Task flags, task count and completion rate *)

Lemma full_flags_all : forallb full_flags_ok (seqZ 0 32) = true.
Proof. vm_compute. reflexivity. Qed.

Lemma full_flags flags :
  0 <= flags <= 31 → (popcount5 flags = 5 ↔ flags = 31).
Proof.
  intros Hf. pose proof full_flags_all as Hall.
  rewrite forallb_forall in Hall.
  specialize (Hall flags). rewrite <- list_elem_of_In, elem_of_seqZ in Hall.
  specialize (Hall ltac:(lia)). unfold full_flags_ok in Hall.
  apply Bool.eqb_prop in Hall.
  rewrite <- Z.eqb_eq, Hall. apply Z.eqb_eq.
Qed.

Lemma checkWaypoints_cases st :
  checkWaypoints st = st
  ∨ ∃ i, 0 <= i < 5
         ∧ curSegment st = TASK_LOCS !!! Z.to_nat i
         ∧ Z.testbit (taskFlags st) i = false
         ∧ checkWaypoints st
           = set_episodeReward (s16 (episodeReward st + 30))
               (set_tasksComplete (u8 (tasksComplete st + 1))
                  (set_taskFlags
                     (u8 (Z.lor (taskFlags st) (Z.shiftl 1 i))) st)).
Proof.
  assert (∀ i, 0 <= i < 5 → curSegment st = TASK_LOCS !!! Z.to_nat i →
               checkWaypoints st = st
               ∨ ∃ i, 0 <= i < 5
                      ∧ curSegment st = TASK_LOCS !!! Z.to_nat i
                      ∧ Z.testbit (taskFlags st) i = false
                      ∧ checkWaypoints st
                        = set_episodeReward (s16 (episodeReward st + 30))
                            (set_tasksComplete (u8 (tasksComplete st + 1))
                               (set_taskFlags
                                  (u8 (Z.lor (taskFlags st) (Z.shiftl 1 i)))
                                  st))) as Hat.
  { intros i Hi Hseg. rewrite (checkWaypoints_at st i Hi Hseg).
    destruct (Z.testbit (taskFlags st) i) eqn:Hbit.
    - left. apply checkWaypoints_step_skip; [lia|]. right. exact Hbit.
    - right. exists i. repeat (split; [assumption || lia|]).
      apply checkWaypoints_step_fire; [lia|exact Hseg|exact Hbit]. }
  destruct (decide (curSegment st = 5)) as [H0|H0]; [exact (Hat 0 ltac:(lia) H0)|].
  destruct (decide (curSegment st = 2)) as [H1|H1]; [exact (Hat 1 ltac:(lia) H1)|].
  destruct (decide (curSegment st = 3)) as [H2|H2]; [exact (Hat 2 ltac:(lia) H2)|].
  destruct (decide (curSegment st = 7)) as [H3|H3]; [exact (Hat 3 ltac:(lia) H3)|].
  destruct (decide (curSegment st = 8)) as [H4|H4]; [exact (Hat 4 ltac:(lia) H4)|].
  left. apply checkWaypoints_elsewhere.
  intros i Hi;
    assert (i = 0 ∨ i = 1 ∨ i = 2 ∨ i = 3 ∨ i = 4) as Hic by lia;
    destruct Hic as [->|[->|[->|[->| ->]]]]; assumption.
Qed.

(** X10. [checkWaypoints] never clears a task flag and sets at most one in
    a call, the one of the waypoint in the current segment.  In every state
    that the sketch reaches, [tasksComplete] is the number of flags set
    among the five, it is at most 5, and it is 5 exactly when all five
    flags are set. *)
Theorem taskFlags_count :
  (∀ st j,
     0 <= j < 8 → Z.testbit (taskFlags st) j = true →
     Z.testbit (taskFlags (checkWaypoints st)) j = true)
  ∧ (∀ st,
       taskFlags (checkWaypoints st) = taskFlags st
       ∨ ∃ i, 0 <= i < 5 ∧ curSegment st = TASK_LOCS !!! Z.to_nat i
              ∧ taskFlags (checkWaypoints st)
                = u8 (Z.lor (taskFlags st) (Z.shiftl 1 i)))
  ∧ (∀ st,
       reachable st →
       tasksComplete st = popcount5 (taskFlags st)
       ∧ 0 <= taskFlags st <= 31
       ∧ 0 <= tasksComplete st <= 5
       ∧ (tasksComplete st = 5 ↔ taskFlags st = 31)).
Proof.
  split; [|split].
  - intros st j Hj Hbit.
    destruct (checkWaypoints_cases st) as [->|(i & Hi & _ & _ & ->)];
      [exact Hbit|].
    cbn [taskFlags set_episodeReward set_tasksComplete set_taskFlags].
    rewrite testbit_u8_set by lia. rewrite Hbit; reflexivity.
  - intros st.
    destruct (checkWaypoints_cases st) as [->|(i & Hi & Hseg & _ & ->)];
      [left; reflexivity|].
    right. exists i. split; [exact Hi|]. split; [exact Hseg|]. reflexivity.
  - intros st Hreach. pose proof (reachable_Inv _ Hreach) as Hinv.
    split; [exact (inv_tasks _ Hinv)|].
    split; [exact (inv_flags _ Hinv)|].
    split; [exact (Inv_tasksComplete _ Hinv)|].
    rewrite (inv_tasks _ Hinv). apply full_flags. exact (inv_flags _ Hinv).
Qed.

Lemma taskFlags_count_witness :
  (let st := set_taskFlags 6 (set_curSegment 7 power_on) in
   Z.testbit (taskFlags (checkWaypoints st)) 2 = true)
  ∧ (let st := setup 0 power_on in
     tasksComplete st = popcount5 (taskFlags st)
     ∧ 0 <= taskFlags st <= 31
     ∧ 0 <= tasksComplete st <= 5
     ∧ (tasksComplete st = 5 ↔ taskFlags st = 31)).
Proof.
  split.
  - apply (proj1 taskFlags_count
             (set_taskFlags 6 (set_curSegment 7 power_on)) 2).
    + lia.
    + reflexivity.
  - apply (proj2 (proj2 taskFlags_count) (setup 0 power_on)).
    apply reachable_setup.
Defined.

Lemma endEpisode_sum_tcr now st :
  sum_tcr (endEpisode now st).2 = u8 (tasksComplete st * 20).
Proof.
  unfold endEpisode. destruct st. simpl_state.
  destruct (_ <? EPS_MIN); simpl_state;
    match goal with
    | |- context [if ?x <? ?y then set_bestReward _ _ else _] =>
        destruct (x <? y)
    end; reflexivity.
Qed.

Lemma checkEnd_tasksComplete now st :
  tasksComplete (checkEnd now st).1 = tasksComplete st
  ∧ ((checkEnd now st).2 = Some Complete →
     5 <= tasksComplete st ∧ 9 <= curSegment st).
Proof.
  unfold checkEnd.
  destruct (45000 <? u32 (now - startTime st)); [split; [reflexivity|discriminate]|].
  destruct (Z.leb_spec 5 (tasksComplete st));
    destruct (Z.leb_spec 9 (curSegment st)); cbn [andb fst snd];
    try (split; [reflexivity|intros _; lia]);
    destruct (curLineState st =? 0); simpl_state;
    try destruct (100 <? u16 (lostCount st + 1));
    split; first [reflexivity | discriminate].
Qed.

(** X11. When a pass of [loop] from a state that the sketch reaches ends
    an episode, the task count printed is between 0 and 5 and the
    completion rate printed is 20 times that count, so at most 100; when
    the reason is Complete the count is 5 and the rate 100. *)
Theorem completion_rate_reported t st st' reason summary :
  reachable st → tick_ok t →
  loop t st = Some (st', Some (reason, summary)) →
  0 <= sum_tasks summary <= 5
  ∧ sum_tcr summary = 20 * sum_tasks summary
  ∧ (reason = Complete → sum_tasks summary = 5 ∧ sum_tcr summary = 100).
Proof.
  intros Hreach Hok. pose proof (reachable_Inv _ Hreach) as Hinv.
  unfold loop. rewrite (inv_running _ Hinv). cbn [negb].
  destruct (loop_body_total t st Hinv Hok) as (st1 & -> & Hinv1).
  cbn [mbind option_bind].
  pose proof (Inv_tasksComplete _ Hinv1) as Hrange.
  destruct (checkEnd_tasksComplete (tick_now t) st1) as [Htc Hcomplete].
  destruct (checkEnd (tick_now t) st1) as [st2 [r|]]; [|discriminate].
  cbn [fst snd] in *.
  pose proof (endEpisode_sum_tasks (tick_restart t) st2) as Hsum.
  pose proof (endEpisode_sum_tcr (tick_restart t) st2) as Htcr.
  destruct (endEpisode (tick_restart t) st2) as [st3 summary3].
  cbn [snd] in *. intros [= <- <- <-].
  rewrite Htcr, Hsum, Htc. rewrite u8_id by lia.
  split; [exact Hrange|]. split; [lia|].
  intros ->. specialize (Hcomplete eq_refl). lia.
Qed.

Lemma run_reachable ticks st st' reports :
  reachable st → Forall tick_ok ticks →
  run ticks st = Some (st', reports) → reachable st'.
Proof.
  intros Hreach Hok. revert st st' reports Hreach.
  induction Hok as [|t ticks Ht _ IH]; intros st st' reports Hreach.
  - intros [= <- <-]. exact Hreach.
  - cbn [run].
    destruct (loop t st) as [[st1 report]|] eqn:Hloop; [|discriminate].
    cbn [mbind option_bind].
    destruct (run ticks st1) as [[st2 reports2]|] eqn:Hrun; [|discriminate].
    cbn [mbind option_bind]. intros [= <- <-].
    eapply IH; [|exact Hrun].
    eapply reachable_loop; eassumption.
Qed.

Lemma tick_drive_ok d : tick_ok (tick_drive d).
Proof. unfold tick_ok, NUM_ACTIONS. simpl. lia. Qed.

Lemma before_last_leg_reachable : reachable before_last_leg.
Proof.
  apply (run_reachable tour_ticks (setup 0 power_on) before_last_leg []).
  - apply reachable_setup.
  - unfold tour_ticks. apply Forall_fmap, Forall_forall.
    intros d _. apply tick_drive_ok.
  - vm_compute. reflexivity.
Qed.

Lemma completion_rate_reported_witness :
  0 <= sum_tasks tour_summary <= 5
  ∧ sum_tcr tour_summary = 20 * sum_tasks tour_summary
  ∧ (Complete = Complete →
     sum_tasks tour_summary = 5 ∧ sum_tcr tour_summary = 100).
Proof.
  apply (completion_rate_reported (tick_drive 800) before_last_leg
           after_tour Complete tour_summary).
  - exact before_last_leg_reachable.
  - apply tick_drive_ok.
  - vm_compute. reflexivity.
Defined.

(** ** What a pass of [loop] does to the table *)

Lemma loop_body_Q t st st' :
  Inv st → tick_ok t → loop_body t st = Some st' →
  ∃ row qsa q',
    Q st !! Z.to_nat (encodeState st') = Some row ∧ wfRow row
    ∧ Qget (Q st) (encodeState st') (curAction st') = Some qsa ∧ in_s8 qsa
    ∧ Qset (Q st) (encodeState st') (curAction st')
        (saturate (updateQ_newQ 38 242 (calcReward st')
                     (foldl Z.max (-128) row) qsa)) = Some q'
    ∧ Q st' = q'
    ∧ encodeState st' = curSegment st' * 8 + senses t
    ∧ 0 <= curSegment st' <= 9
    ∧ 0 <= curAction st' < NUM_ACTIONS.
Proof.
  intros Hinv Hok H. apply loop_body_steps in H. cbv zeta in H.
  pose proof (Inv_updatePosition (tick_encL t) (tick_encR t) _
                (Inv_readSensors (tick_sensorVals t) (tick_now t) _ Hinv))
    as Hinv2.
  assert (Q (updatePosition (tick_encL t) (tick_encR t)
               (readSensors (tick_sensorVals t) (tick_now t) st)) = Q st)
    as HQ2.
  { destruct (updatePosition_shape (tick_encL t) (tick_encR t)
                (readSensors (tick_sensorVals t) (tick_now t) st))
      as (i & _ & ->).
    rewrite readSensors_shape. reflexivity. }
  assert (curLineState
            (updatePosition (tick_encL t) (tick_encR t)
               (readSensors (tick_sensorVals t) (tick_now t) st))
          = senses t) as Hls2.
  { rewrite updatePosition_curLineState. apply readSensors_curLineState. }
  revert H Hinv2 HQ2 Hls2.
  generalize (updatePosition (tick_encL t) (tick_encR t)
                (readSensors (tick_sensorVals t) (tick_now t) st)) as st2.
  intros st2 (a & st4 & Hsel & Hupd & ->) Hinv2 HQ2 Hls2.
  destruct (encodeState_exact st2 (inv_segment _ Hinv2) (inv_line _ Hinv2))
    as [Henc Hrange].
  assert (0 <= encodeState st2 < Q_TABLE_SIZE) as Hstate
    by (unfold Q_TABLE_SIZE; lia).
  destruct (selectAction_total (encodeState st2) (tick_rnd_eps t)
              (tick_rnd_act t) st2 (inv_Q _ Hinv2) Hstate Hok)
    as (a' & Hsel' & Ha).
  rewrite Hsel in Hsel'. injection Hsel' as <-.
  pose proof (Inv_set_episodeReward
                (s16 (episodeReward st2 + calcReward (set_curAction a st2)))
                _ (Inv_set_curAction a _ Hinv2)) as Hinv3.
  destruct (updateQ_unfold _ (encodeState st2) a
              (calcReward (set_curAction a st2)) (encodeState st2)
              (inv_Q _ Hinv3) Hstate Ha Hstate)
    as (row & qsa & q' & Hrow & Hwf & Hqsa & Hin & Hq' & Hupd').
  rewrite Hupd in Hupd'. injection Hupd' as ->.
  simpl_state. rewrite (inv_alpha _ Hinv2), (inv_gamma _ Hinv2) in Hq'.
  rewrite HQ2 in Hrow, Hqsa, Hq'.
  match goal with
  | |- context [checkWaypoints ?x] =>
      destruct (checkWaypoints_shape x) as (f & c & e & ->)
  end.
  exists row, qsa, q'.
  change (encodeState
            (set_episodeReward e
               (set_tasksComplete c
                  (set_taskFlags f
                     (set_Q q'
                        (set_episodeReward
                           (s16 (episodeReward st2
                                 + calcReward (set_curAction a st2)))
                           (set_curAction a st2)))))))
    with (encodeState st2).
  change (calcReward
            (set_episodeReward e
               (set_tasksComplete c
                  (set_taskFlags f
                     (set_Q q'
                        (set_episodeReward
                           (s16 (episodeReward st2
                                 + calcReward (set_curAction a st2)))
                           (set_curAction a st2)))))))
    with (calcReward (set_curAction a st2)).
  simpl_state.
  rewrite <- Hls2.
  repeat (split; [first [assumption | reflexivity | exact (inv_segment _ Hinv2)]|]).
  exact Ha.
Qed.



(** ** The dead band of the integer update *)

(** X13. With the learning rate 38 and the discount 242, [updateQ] leaves
    the table as it is when the target, reward + 242 * best next value /
    255, is within 6 of the stored value: 38 * 6 / 255 is 0.  When the
    target is 7 or more away the stored value moves towards it and does
    not pass it, and it moves by at least one unless it sits on the end of
    the range of [int8_t]. *)
Theorem updateQ_dead_band st s a r s2 row2 qsa :
  alpha st = 38 → gamma_d st = 242 → wfQ (Q st) →
  0 <= s < Q_TABLE_SIZE → 0 <= a < NUM_ACTIONS → 0 <= s2 < Q_TABLE_SIZE →
  in_s8 r →
  Q st !! Z.to_nat s2 = Some row2 → Qget (Q st) s a = Some qsa →
  let target := r + Z.quot (242 * foldl Z.max (-128) row2) 255 in
  ∃ st' new,
    updateQ s a r s2 st = Some st'
    ∧ Qget (Q st') s a = Some new
    ∧ (-6 <= target - qsa <= 6 → new = qsa ∧ Q st' = Q st)
    ∧ (7 <= target - qsa →
       qsa <= new <= target ∧ (qsa < 127 → qsa < new))
    ∧ (target - qsa <= -7 →
       target <= new <= qsa ∧ (-128 < qsa → new < qsa)).
Proof.
  intros Halpha Hgamma Hq Hs Ha Hs2 Hr Hrow2 Hqsa. cbv zeta.
  destruct (updateQ_unfold st s a r s2 Hq Hs Ha Hs2)
    as (row2' & qsa' & q' & Hrow2' & Hwf2 & Hqsa' & Hin & Hq' & Hupd).
  rewrite Hrow2 in Hrow2'. injection Hrow2' as <-.
  rewrite Hqsa in Hqsa'. injection Hqsa' as <-.
  rewrite Halpha, Hgamma in Hq'.
  assert (in_s8 (foldl Z.max (-128) row2)) as Hm.
  { apply foldl_max_range; [unfold in_s8; lia|apply Hwf2]. }
  set (m := foldl Z.max (-128) row2) in *.
  set (new := saturate (updateQ_newQ 38 242 r m qsa)) in *.
  assert (new = Z.max (-128)
                  (Z.min 127
                     (qsa + Z.quot (38 * (r + Z.quot (242 * m) 255 - qsa))
                              255))) as Hnew.
  { unfold new. rewrite saturate_clamp, updateQ_newQ_exact;
      [reflexivity|lia|unfold in_u8; lia|assumption..]. }
  exists (set_Q q' st), new.
  split; [exact Hupd|].
  split; [exact (Qget_Qset_eq _ _ _ _ _ Hq')|].
  unfold in_s8 in *.
  split; [|split].
  - intros Hd.
    assert (new = qsa) as Heq.
    { rewrite Hnew. Z.quot_rem_to_equations. lia. }
    split; [exact Heq|].
    cbn [Q set_Q]. rewrite Heq in Hq'. clear - Hq' Hqsa.
    unfold Qset, Qget in *.
    destruct (Q st !! Z.to_nat s) as [row|] eqn:Hrow; [|discriminate].
    cbn in Hq', Hqsa. rewrite Hqsa in Hq'. cbn in Hq'.
    injection Hq' as <-.
    rewrite (list_insert_id row _ _ Hqsa).
    apply list_insert_id. exact Hrow.
  - intros Hd. rewrite Hnew. Z.quot_rem_to_equations. lia.
  - intros Hd. rewrite Hnew. Z.quot_rem_to_equations. lia.
Qed.

Lemma updateQ_dead_band_witness :
  let st := setup 0 power_on in
  let target := 2 + Z.quot (242 * foldl Z.max (-128) [0; 0; 0; 0; 0]) 255 in
  ∃ st' new,
    updateQ 4 3 2 4 st = Some st'
    ∧ Qget (Q st') 4 3 = Some new
    ∧ (-6 <= target - 0 <= 6 → new = 0 ∧ Q st' = Q st)
    ∧ (7 <= target - 0 →
       0 <= new <= target ∧ (0 < 127 → 0 < new))
    ∧ (target - 0 <= -7 →
       target <= new <= 0 ∧ (-128 < 0 → new < 0)).
Proof.
  apply (updateQ_dead_band (setup 0 power_on) 4 3 2 4 [0; 0; 0; 0; 0] 0).
  - reflexivity.
  - reflexivity.
  - exact wfQ_zeroQ.
  - unfold Q_TABLE_SIZE. lia.
  - unfold NUM_ACTIONS. lia.
  - unfold Q_TABLE_SIZE. lia.
  - unfold in_s8. lia.
  - reflexivity.
  - reflexivity.
Defined.

(** ** The values and the rows that the sketch reaches *)

Lemma updateQ_within r maxNext qsa :
  -11 <= r <= 7 → -79 <= maxNext <= 1 → -79 <= qsa <= 1 →
  -79 <= saturate (updateQ_newQ 38 242 r maxNext qsa) <= 1.
Proof.
  intros Hr Hm Hq.
  rewrite updateQ_newQ_exact by (unfold in_u8, in_s8; lia).
  rewrite saturate_clamp.
  Z.quot_rem_to_equations. lia.
Qed.

Lemma loop_Q t st st' report :
  running st = true → loop t st = Some (st', report) →
  ∃ st1, loop_body t st = Some st1 ∧ Q st' = Q st1.
Proof.
  intros Hrun. unfold loop. rewrite Hrun. cbn [negb].
  destruct (loop_body t st) as [st1|]; [|discriminate].
  cbn [mbind option_bind]. intros H. exists st1. split; [reflexivity|].
  assert (Q (checkEnd (tick_now t) st1).1 = Q st1) as Hce.
  { unfold checkEnd. repeat case_match; reflexivity. }
  destruct (checkEnd (tick_now t) st1) as [st2 [reason|]]; cbn [fst] in Hce.
  - assert (Q (endEpisode (tick_restart t) st2).1 = Q st2) as Hend.
    { destruct (endEpisode_shape (tick_restart t) st2) as (e & b & ->).
      reflexivity. }
    destruct (endEpisode (tick_restart t) st2) as [st3 summary].
    cbn [fst] in Hend. injection H as <- <-. congruence.
  - injection H as <- <-. exact Hce.
Qed.

Lemma Qset_rows q s a v q' :
  Qset q s a v = Some q' →
  ∃ row, q !! Z.to_nat s = Some row
         ∧ q' = <[Z.to_nat s := <[Z.to_nat a := v]> row]> q.
Proof.
  unfold Qset. intros H.
  destruct (q !! Z.to_nat s) as [row|]; [|discriminate]. cbn in H.
  destruct (row !! Z.to_nat a); [|discriminate]. cbn in H.
  injection H as <-. exists row. split; reflexivity.
Qed.

Lemma lineStateOf_values bits :
  lineStateOf bits ≠ 1 ∧ lineStateOf bits ≠ 7 ∧ 0 <= lineStateOf bits <= 6.
Proof. unfold lineStateOf. repeat case_match; lia. Qed.

(** X14. In every state that the sketch reaches, every entry of the table
    lies in [-79, 1]: from the table of zeroes, with rewards in [-11, 7],
    the integer update cannot raise a value above 1 nor lower one below
    -79, so the saturation of [updateQ] never acts. *)
Theorem reachable_Q_range st s a :
  reachable st → 0 <= s < Q_TABLE_SIZE → 0 <= a < NUM_ACTIONS →
  ∃ v, Qget (Q st) s a = Some v ∧ -79 <= v <= 1.
Proof.
  intros Hreach Hs Ha.
  assert (Forall (Forall (fun v => -79 <= v <= 1)) (Q st)) as Hall.
  { clear s a Hs Ha.
    induction Hreach as [now|t st st' report Hreach IH Hok Hloop].
    - apply Forall_replicate, Forall_replicate. lia.
    - pose proof (reachable_Inv _ Hreach) as Hinv.
      destruct (loop_Q _ _ _ _ (inv_running _ Hinv) Hloop)
        as (st1 & Hbody & ->).
      destruct (loop_body_Q t st st1 Hinv Hok Hbody)
        as (row & qsa & q' & Hrow & Hwf & Hqsa & Hin & Hq' & -> & _).
      destruct (Qset_rows _ _ _ _ _ Hq') as (row' & Hrow' & ->).
      rewrite Hrow in Hrow'. injection Hrow' as <-.
      pose proof (Forall_lookup_1 _ _ _ _ IH Hrow) as Hrowin.
      apply Forall_insert; [exact IH|].
      apply Forall_insert; [exact Hrowin|].
      apply updateQ_within.
      + apply calcReward_range.
      + split.
        * destruct (wfRow_get row 0 Hwf ltac:(unfold NUM_ACTIONS; lia))
            as (v0 & Hv0 & _).
          pose proof (foldl_max_upper row (-128) _ _ Hv0) as Hup.
          pose proof (Forall_lookup_1 _ _ _ _ Hrowin Hv0) as Hlo.
          cbv beta in Hlo. lia.
        * assert (∀ l m, m <= 1 → Forall (fun v => -79 <= v <= 1) l →
                         foldl Z.max m l <= 1) as Hmax.
          { intros l. induction l as [|x l IHl]; intros m Hm Hl;
              [exact Hm|].
            inversion_clear Hl. cbn [foldl]. apply IHl; [lia|assumption]. }
          apply Hmax; [lia|exact Hrowin].
      + rewrite (Qget_row _ _ _ _ Hrow) in Hqsa.
        exact (Forall_lookup_1 _ _ _ _ Hrowin Hqsa). }
  destruct (wfQ_get _ s a (inv_Q _ (reachable_Inv _ Hreach)) Hs Ha)
    as (v & Hv & _).
  exists v. split; [exact Hv|].
  unfold Qget in Hv.
  destruct (Q st !! Z.to_nat s) as [row|] eqn:Hrow; [|discriminate].
  cbn in Hv.
  exact (Forall_lookup_1 _ _ _ _ (Forall_lookup_1 _ _ _ _ Hall Hrow) Hv).
Qed.

Lemma reachable_Q_range_witness :
  ∃ v, Qget (Q before_last_leg) 20 0 = Some v ∧ -79 <= v <= 1.
Proof.
  apply (reachable_Q_range before_last_leg 20 0).
  - exact before_last_leg_reachable.
  - unfold Q_TABLE_SIZE. lia.
  - unfold NUM_ACTIONS. lia.
Defined.

(** X15. [readSensors] never stores the line states 1 and 7, so the rows
    of the table for those line states, two for each of the ten segments,
    are never written: in every state that the sketch reaches they hold
    the zeroes that [setup] wrote. *)
Theorem rows_never_written st seg :
  reachable st → 0 <= seg <= 9 →
  Q st !! Z.to_nat (seg * 8 + 1) = Some [0; 0; 0; 0; 0]
  ∧ Q st !! Z.to_nat (seg * 8 + 7) = Some [0; 0; 0; 0; 0].
Proof.
  intros Hreach Hseg.
  induction Hreach as [now|t st st' report Hreach IH Hok Hloop].
  - cbn [Q setup startEpisode set_Q set_calibrated set_episode
         set_episodeReward set_totalDist set_curSegment set_tasksComplete
         set_taskFlags set_crossings set_centered set_readings
         set_startTime set_running].
    unfold zeroQ. rewrite !lookup_replicate_2; [split; reflexivity|..];
      unfold Q_TABLE_SIZE; lia.
  - pose proof (reachable_Inv _ Hreach) as Hinv.
    destruct (loop_Q _ _ _ _ (inv_running _ Hinv) Hloop)
      as (st1 & Hbody & ->).
    destruct (loop_body_Q t st st1 Hinv Hok Hbody)
      as (row & qsa & q' & _ & _ & _ & _ & Hq' & -> & Henc & Hsg & _).
    destruct (Qset_rows _ _ _ _ _ Hq') as (row' & _ & ->).
    destruct (lineStateOf_values (sensorBits (tick_sensorVals t)))
      as (H1 & H7 & Hr).
    unfold senses in Henc.
    rewrite !list_lookup_insert_ne by lia. exact IH.
Qed.

Lemma rows_never_written_witness :
  Q before_last_leg !! Z.to_nat (5 * 8 + 1) = Some [0; 0; 0; 0; 0]
  ∧ Q before_last_leg !! Z.to_nat (5 * 8 + 7) = Some [0; 0; 0; 0; 0].
Proof.
  apply (rows_never_written before_last_leg 5).
  - exact before_last_leg_reachable.
  - lia.
Defined.

(** ** The time limit of an episode *)

(** X16. An episode times out exactly when more than 45000 ms have gone by
    since [startEpisode] read the clock, also when [millis()] has rolled
    over in between: the unsigned subtraction of [checkEnd] recovers the
    elapsed time from the two clock values. *)
Theorem timeout_counts_elapsed_time now0 elapsed st st1 :
  0 <= elapsed < 4294967296 →
  startTime st1 = startTime (startEpisode now0 st) →
  (checkEnd (u32 (now0 + elapsed)) st1).2 = Some Timeout ↔ 45000 < elapsed.
Proof.
  intros Hel Hstart.
  assert (u32 (u32 (now0 + elapsed) - startTime st1) = elapsed) as Hdiff.
  { rewrite Hstart. simpl_state. unfold u32.
    rewrite <- Zminus_mod. replace (now0 + elapsed - now0) with elapsed by lia.
    apply Z.mod_small. lia. }
  unfold checkEnd. rewrite Hdiff.
  destruct (Z.ltb_spec 45000 elapsed) as [Hlt|Hge].
  - split; [intros _; exact Hlt|intros _; reflexivity].
  - split; [|lia].
    intros H. repeat case_match; simpl in H; discriminate H.
Qed.

Lemma timeout_counts_elapsed_time_witness :
  (checkEnd (u32 (before_rollover + 50000))
     (startEpisode before_rollover power_on)).2 = Some Timeout
  ↔ 45000 < 50000.
Proof.
  apply (timeout_counts_elapsed_time before_rollover 50000 power_on
           (startEpisode before_rollover power_on)).
  - lia.
  - reflexivity.
Defined.

(** ** What a pass of [loop] hands to the motors and to the overlay *)

Lemma motorSpeeds_cases a :
  0 <= a < NUM_ACTIONS →
  ∃ l r, motorSpeeds a = Some (l, r) ∧ ACTIONS !! Z.to_nat a = Some (l, r)
         ∧ -100 <= l <= 100 ∧ -100 <= r <= 100 ∧ 0 <= l + r ∧ 80 <= Z.max l r.
Proof.
  unfold NUM_ACTIONS. intros Ha.
  assert (a = 0 ∨ a = 1 ∨ a = 2 ∨ a = 3 ∨ a = 4) as Hcases by lia.
  destruct Hcases as [->|[->|[->|[->| ->]]]];
    [exists (-80), 80|exists 40, 100|exists 100, 100|exists 100, 40
    |exists 80, (-80)];
    (split; [reflexivity|]); (split; [reflexivity|]); lia.
Qed.

Lemma loop_motors_curAction t st st' :
  loop_body t st = Some st' → loop_motors t st = motorSpeeds (curAction st').
Proof.
  intros Hbody. apply loop_body_steps in Hbody. cbv zeta in Hbody.
  unfold loop_motors. cbv zeta. revert Hbody.
  generalize (updatePosition (tick_encL t) (tick_encR t)
                (readSensors (tick_sensorVals t) (tick_now t) st)) as st2.
  intros st2 (a & st4 & Hsel & Hupd & ->).
  rewrite Hsel. cbn [mbind option_bind].
  destruct (updateQ_shape _ _ _ _ _ _ Hupd) as (q' & ->).
  match goal with
  | |- context [checkWaypoints ?s] =>
      destruct (checkWaypoints_shape s) as (f & c & e & ->)
  end.
  cbn [curAction set_curAction set_episodeReward set_tasksComplete
       set_taskFlags set_Q].
  reflexivity.
Qed.

(** X17. In every pass of [loop] the action that [selectAction] answers
    indexes [ACTIONS] within its bounds, and the motors get the pair of
    speeds stored there, unchanged by the read through [pgm_read_byte]:
    both speeds lie in [-100, 100], one of them is at least 80, and their
    sum is never negative, so that the robot is never sent backwards. *)
Theorem loop_motors_from_table t st :
  Inv st → tick_ok t →
  ∃ st' l r,
    loop_body t st = Some st' ∧ loop_motors t st = Some (l, r)
    ∧ ACTIONS !! Z.to_nat (curAction st') = Some (l, r)
    ∧ -100 <= l <= 100 ∧ -100 <= r <= 100
    ∧ 0 <= l + r ∧ 80 <= Z.max l r.
Proof.
  intros Hinv Hok.
  destruct (loop_body_total t st Hinv Hok) as (st' & Hbody & _).
  destruct (loop_body_Q t st _ Hinv Hok Hbody)
    as (_ & _ & _ & _ & _ & _ & _ & _ & _ & _ & _ & Hact).
  destruct (motorSpeeds_cases _ Hact) as (l & r & Hm & Htab & Hrange).
  exists st', l, r. split; [exact Hbody|].
  split; [|split; [exact Htab|exact Hrange]].
  rewrite (loop_motors_curAction _ _ _ Hbody). exact Hm.
Qed.

Lemma loop_motors_from_table_witness :
  ∃ st' l r,
    loop_body tick_on_line (setup 0 power_on) = Some st'
    ∧ loop_motors tick_on_line (setup 0 power_on) = Some (l, r)
    ∧ ACTIONS !! Z.to_nat (curAction st') = Some (l, r)
    ∧ -100 <= l <= 100 ∧ -100 <= r <= 100
    ∧ 0 <= l + r ∧ 80 <= Z.max l r.
Proof.
  apply (loop_motors_from_table tick_on_line (setup 0 power_on)).
  - exact (Inv_setup 0).
  - unfold tick_ok, NUM_ACTIONS. simpl. lia.
Defined.

(** X18. Whenever a pass of [loop] calls [outputMetrics], the read of
    [LOC_NAMES] is within its ten entries and the name, of at most six
    characters, fits the buffer of eight; the overlay line shows the name
    of the current segment, a completion rate of 20 times the number of
    tasks, which is at most 100, and an exploration rate between 5 and
    100. *)
Theorem outputMetrics_in_loop t st st' :
  reachable st → tick_ok t → loop_body t st = Some st' →
  ∃ m, outputMetrics st' = Some m
       ∧ LOC_NAMES !! Z.to_nat (curSegment st') = Some (met_loc m)
       ∧ (String.length (met_loc m) <= 6)%nat
       ∧ met_tcr m = 20 * tasksComplete st' ∧ 0 <= met_tcr m <= 100
       ∧ 5 <= met_epsilon m <= 100.
Proof.
  intros Hreach Hok Hbody.
  pose proof (reachable_Inv _ Hreach) as Hinv.
  destruct (loop_body_total t st Hinv Hok) as (st1 & Hbody1 & Hinv').
  rewrite Hbody in Hbody1. injection Hbody1 as <-.
  pose proof (Inv_tasksComplete _ Hinv') as Htasks.
  pose proof (inv_segment _ Hinv') as Hseg.
  pose proof (inv_epsilon _ Hinv') as Heps. unfold EPS_MIN in Heps.
  assert (∃ name, LOC_NAMES !! Z.to_nat (curSegment st') = Some name
                  ∧ (String.length name <= 6)%nat) as (name & Hname & Hlen).
  { assert (∃ n, curSegment st' = Z.of_nat n ∧ (n < 10)%nat) as (n & -> & Hn).
    { exists (Z.to_nat (curSegment st')). lia. }
    rewrite Nat2Z.id.
    do 10 (destruct n as [|n];
           [eexists; split; [reflexivity|simpl; lia]|]).
    lia. }
  unfold outputMetrics. rewrite Hname. cbn [mbind option_bind].
  unfold strcpy_P.
  destruct (Z.leb_spec (Z.of_nat (String.length name) + 1) 8); [|lia].
  cbn [mbind option_bind]. eexists. split; [reflexivity|].
  cbn [met_loc met_tcr met_epsilon].
  split; [reflexivity|]. split; [exact Hlen|].
  rewrite u8_id by lia. rewrite s16_id by (unfold in_s16; lia).
  split; [lia|]. split; [lia|].
  Z.quot_rem_to_equations. lia.
Qed.

Lemma outputMetrics_in_loop_witness :
  ∃ m, outputMetrics after_first_pass = Some m
       ∧ LOC_NAMES !! Z.to_nat (curSegment after_first_pass)
         = Some (met_loc m)
       ∧ (String.length (met_loc m) <= 6)%nat
       ∧ met_tcr m = 20 * tasksComplete after_first_pass
       ∧ 0 <= met_tcr m <= 100
       ∧ 5 <= met_epsilon m <= 100.
Proof.
  apply (outputMetrics_in_loop tick_on_line (setup 0 power_on)
           after_first_pass).
  - exact (reachable_setup 0).
  - unfold tick_ok, NUM_ACTIONS. simpl. lia.
  - vm_compute. reflexivity.
Defined.

(** * Properties of the scripted rounds *)

(** ** The two ramps *)

Lemma seq_Some (x y : list Scripted.Event) :
  Scripted.seq (Some x) (Some y) = Some (x ++ y).
Proof. reflexivity. Qed.

Lemma smoothAccelerate_loop_steps targetSpeed fuel :
  targetSpeed < 32760 →
  ∀ q, 0 <= q →
    (Z.to_nat ((targetSpeed - 20 * q) / 20 + 1) <= fuel)%nat →
    Scripted.smoothAccelerate_loop fuel (20 * q) targetSpeed
    = Some (flat_map
              (fun k => [Scripted.Motor (20 * k) (20 * k); Scripted.Delay 50])
              (seqZ q ((targetSpeed - 20 * q) / 20 + 1))).
Proof.
  intros Htarget.
  induction fuel as [|fuel IH]; intros q Hq Hfuel.
  - assert ((targetSpeed - 20 * q) / 20 + 1 <= 0) as Hcount by lia.
    cbn [Scripted.smoothAccelerate_loop].
    destruct (Z.leb_spec (20 * q) targetSpeed) as [Hle|Hgt].
    + exfalso. revert Hcount. Z.div_mod_to_equations. lia.
    + unfold seqZ. replace (Z.to_nat _) with O by lia. reflexivity.
  - cbn [Scripted.smoothAccelerate_loop].
    destruct (Z.leb_spec (20 * q) targetSpeed) as [Hle|Hgt].
    + destruct (Z.leb_spec (20 * q + 20) 32767) as [_|Hover]; [|lia].
      assert ((targetSpeed - 20 * (q + 1)) / 20 + 1
              = (targetSpeed - 20 * q) / 20) as Hnext.
      { Z.div_mod_to_equations. lia. }
      assert (0 <= (targetSpeed - 20 * q) / 20) as Hpos.
      { Z.div_mod_to_equations. lia. }
      replace (20 * q + 20) with (20 * (q + 1)) by lia.
      rewrite IH by lia. rewrite Hnext.
      rewrite (seqZ_cons q ((targetSpeed - 20 * q) / 20 + 1)) by lia.
      replace (Z.succ q) with (q + 1) by lia.
      replace (Z.pred ((targetSpeed - 20 * q) / 20 + 1))
        with ((targetSpeed - 20 * q) / 20) by lia.
      reflexivity.
    + assert ((targetSpeed - 20 * q) / 20 + 1 <= 0) as Hcount.
      { Z.div_mod_to_equations. lia. }
      unfold seqZ. replace (Z.to_nat _) with O by lia. reflexivity.
Qed.

Lemma smoothAccelerate_closed targetSpeed :
  targetSpeed < 32760 →
  Scripted.smoothAccelerate targetSpeed
  = Some (flat_map
            (fun k => [Scripted.Motor (20 * k) (20 * k); Scripted.Delay 50])
            (seqZ 0 (targetSpeed / 20 + 1))
          ++ [Scripted.Motor targetSpeed targetSpeed]).
Proof.
  intros Htarget. unfold Scripted.smoothAccelerate.
  change 0 with (20 * 0) at 1.
  rewrite (smoothAccelerate_loop_steps targetSpeed _ Htarget 0).
  - replace (targetSpeed - 20 * 0) with targetSpeed by lia. reflexivity.
  - lia.
  - replace (targetSpeed - 20 * 0) with targetSpeed by lia.
    assert (targetSpeed / 20 + 1 <= targetSpeed + 1 ∨ targetSpeed < 0)
      as [H|H].
    { destruct (Z.lt_ge_cases targetSpeed 0); [right; lia|left].
      Z.div_mod_to_equations. lia. }
    + lia.
    + assert (targetSpeed / 20 + 1 <= 0) by (Z.div_mod_to_equations; lia).
      lia.
Qed.

(** X19. [smoothAccelerate] commands both motors at 0, 20, 40, ... up to
    the greatest multiple of 20 that does not exceed the target, 50 ms
    each, and then at the target itself; for a negative target there is no
    such step and it commands the target at once.  This holds for every
    target below 32760, from where on the counter of the loop would leave
    the range of [int]. *)
Theorem smoothAccelerate_ramp targetSpeed :
  targetSpeed < 32760 →
  Scripted.smoothAccelerate targetSpeed
  = Some (flat_map
            (fun k => [Scripted.Motor (20 * k) (20 * k); Scripted.Delay 50])
            (seqZ 0 (targetSpeed / 20 + 1))
          ++ [Scripted.Motor targetSpeed targetSpeed]).
Proof. exact (smoothAccelerate_closed targetSpeed). Qed.

Lemma smoothAccelerate_ramp_witness :
  Scripted.smoothAccelerate 45
  = Some (flat_map
            (fun k => [Scripted.Motor (20 * k) (20 * k); Scripted.Delay 50])
            (seqZ 0 (45 / 20 + 1))
          ++ [Scripted.Motor 45 45]).
Proof.
  apply (smoothAccelerate_ramp 45). lia.
Defined.

(** X20. [smoothDecelerate] starts its ramp at [HOSPITAL_SPEED] whatever
    the speed of the robot is: after [smoothAccelerate] to a target and a
    delay, the command that follows the target speed is 120 on both
    motors, which for the approach to a room at [CAREFUL_SPEED] is a step
    up from 80. *)
Theorem smoothDecelerate_starts_at_full_speed targetSpeed ms :
  targetSpeed < 32760 →
  ∃ pre post,
    Scripted.seq (Scripted.smoothAccelerate targetSpeed)
      (Scripted.seq (Scripted.delay ms) Scripted.smoothDecelerate)
    = Some (pre
            ++ [Scripted.Motor targetSpeed targetSpeed;
                Scripted.Delay (u32 ms);
                Scripted.Motor Scripted.HOSPITAL_SPEED Scripted.HOSPITAL_SPEED]
            ++ post).
Proof.
  intros Htarget. rewrite (smoothAccelerate_closed _ Htarget).
  assert (∃ tail, Scripted.smoothDecelerate
                  = Some (Scripted.Motor Scripted.HOSPITAL_SPEED
                            Scripted.HOSPITAL_SPEED :: tail)) as (tail & ->).
  { eexists. vm_compute. reflexivity. }
  unfold Scripted.delay. rewrite !seq_Some.
  eexists _, tail. rewrite <- app_assoc. reflexivity.
Qed.

Lemma smoothDecelerate_starts_at_full_speed_witness :
  ∃ pre post,
    Scripted.seq (Scripted.smoothAccelerate Scripted.CAREFUL_SPEED)
      (Scripted.seq (Scripted.delay Scripted.ROOM_APPROACH)
         Scripted.smoothDecelerate)
    = Some (pre
            ++ [Scripted.Motor Scripted.CAREFUL_SPEED Scripted.CAREFUL_SPEED;
                Scripted.Delay (u32 Scripted.ROOM_APPROACH);
                Scripted.Motor Scripted.HOSPITAL_SPEED Scripted.HOSPITAL_SPEED]
            ++ post).
Proof.
  apply (smoothDecelerate_starts_at_full_speed Scripted.CAREFUL_SPEED
           Scripted.ROOM_APPROACH).
  unfold Scripted.CAREFUL_SPEED. lia.
Defined.

(** ** The passes of [loop] *)

Lemma announced_from_sound tr :
  ∀ heard, Scripted.announced_from heard tr = true →
    ∀ pre l r post,
      tr = pre ++ Scripted.Motor l r :: post → (l, r) ≠ (0, 0) →
      heard = true ∨ In (Scripted.Tone 440 100 8) pre.
Proof.
  induction tr as [|e tr IH]; intros heard Hcheck pre l r post Heq Hmove.
  - destruct pre; discriminate Heq.
  - destruct pre as [|e' pre].
    + injection Heq as -> ->. cbn [Scripted.announced_from] in Hcheck.
      apply andb_prop in Hcheck as [Hcheck _].
      apply orb_prop in Hcheck as [Hheard|Hzero]; [left; exact Hheard|].
      apply andb_prop in Hzero as [Hl Hr].
      exfalso. apply Hmove. f_equal; lia.
    + injection Heq as <- ->.
      destruct e as [l' r'|ms|freq dur vol];
        cbn [Scripted.announced_from] in Hcheck.
      * apply andb_prop in Hcheck as [_ Hcheck].
        destruct (IH _ Hcheck _ _ _ _ eq_refl Hmove) as [H|H];
          [left; exact H|right; right; exact H].
      * destruct (IH _ Hcheck _ _ _ _ eq_refl Hmove) as [H|H];
          [left; exact H|right; right; exact H].
      * destruct (IH _ Hcheck _ _ _ _ eq_refl Hmove) as [H|H];
          [|right; right; exact H].
        apply orb_prop in H as [H|H]; [left; exact H|].
        apply andb_prop in H as [H Hvol]. apply andb_prop in H as [Hfreq Hdur].
        right. left. f_equal; lia.
Qed.

(** X21. From every value of [currentState] the passes of [loop] go
    through the rounds without undefined behaviour: after at most eight
    passes that return, nine passes in all from [NURSE_STATION], the pass
    of [missionComplete] is reached, which does not return and leaves the
    motors stopped. *)
Theorem rounds_end_idle s :
  ∃ n tr,
    (1 <= n <= 9)%nat
    ∧ (s = Scripted.NURSE_STATION → n = 9%nat)
    ∧ Scripted.passes n s = Some (tr, Scripted.Idles)
    ∧ last (Scripted.motor_commands tr) = Some (0, 0)
    ∧ ∀ m, (m < n)%nat →
        ∃ tr' s', Scripted.passes m s = Some (tr', Scripted.Returns s').
Proof.
  assert (∀ n, (∀ m, (m < n)%nat →
                  ∃ tr' s', Scripted.passes m s
                            = Some (tr', Scripted.Returns s')) ↔
               forallb (fun m =>
                          match Scripted.passes m s with
                          | Some (_, Scripted.Returns _) => true
                          | _ => false
                          end) (seq 0 n) = true) as Hcheck.
  { intros n. rewrite forallb_forall. split.
    - intros H m Hm. apply in_seq in Hm.
      destruct (H m ltac:(lia)) as (tr' & s' & ->). reflexivity.
    - intros H m Hm. specialize (H m ltac:(apply in_seq; lia)).
      destruct (Scripted.passes m s) as [[tr' [s'|]]|]; try discriminate H.
      exists tr', s'. reflexivity. }
  destruct s;
    [exists 9%nat|exists 8%nat|exists 7%nat|exists 6%nat|exists 5%nat
    |exists 4%nat|exists 3%nat|exists 2%nat|exists 1%nat];
    eexists;
    (split; [lia|]);
    (split; [intros H; first [reflexivity|discriminate H]|]);
    (split; [vm_compute; reflexivity|]);
    (split; [vm_compute; reflexivity|]);
    apply Hcheck; vm_compute; reflexivity.
Qed.

(** X22. Every pass of [loop] is defined, and in every pass each command
    that sets a wheel in motion comes after the moving tone of that pass,
    no speed exceeds [HOSPITAL_SPEED] in either direction, and the last
    command to the motors, if there is one, stops them. *)
Theorem loop_pass_safe s :
  ∃ tr out,
    Scripted.loop s = Some (tr, out)
    ∧ Scripted.announced tr
    ∧ Forall (fun c => - Scripted.HOSPITAL_SPEED <= c.1 <= Scripted.HOSPITAL_SPEED
                       ∧ - Scripted.HOSPITAL_SPEED <= c.2
                          <= Scripted.HOSPITAL_SPEED)
        (Scripted.motor_commands tr)
    ∧ Scripted.ends_stopped tr.
Proof.
  assert (∀ tr,
            forallb (fun c => (-120 <=? c.1) && (c.1 <=? 120)
                              && (-120 <=? c.2) && (c.2 <=? 120))
              (Scripted.motor_commands tr) = true →
            Forall (fun c => - Scripted.HOSPITAL_SPEED <= c.1
                             <= Scripted.HOSPITAL_SPEED
                             ∧ - Scripted.HOSPITAL_SPEED <= c.2
                                <= Scripted.HOSPITAL_SPEED)
              (Scripted.motor_commands tr)) as Hspeed.
  { intros tr H. apply Forall_forall. intros c Hc.
    rewrite forallb_forall in H. specialize (H c).
    unfold Scripted.HOSPITAL_SPEED.
    assert (In c (Scripted.motor_commands tr)) as Hin
      by (apply list_elem_of_In; exact Hc).
    specialize (H Hin). lia. }
  destruct s; eexists _, _;
    (split; [vm_compute; reflexivity|]);
    (split; [intros pre l r post Heq Hmove;
             match type of Heq with
             | ?tr = _ =>
                 assert (Scripted.announced_from false tr = true) as Hheard
                   by (vm_compute; reflexivity);
                 destruct (announced_from_sound tr false Hheard
                             _ _ _ _ Heq Hmove) as [H|H];
                 [discriminate H|exact H]
             end|]);
    (split; [apply Hspeed; vm_compute; reflexivity|]);
    unfold Scripted.ends_stopped;
    first [left; vm_compute; reflexivity|right; vm_compute; reflexivity].
Qed.

(** ** The guard of [loop] *)

(** X23. Between two passes of [loop] the flag [running] is always set:
    [endEpisode] clears it, but the [startEpisode] that it calls before it
    returns sets it again, so that after [setup] the guard at the head of
    [loop] never skips a pass. *)
Theorem running_between_passes st : reachable st → running st = true.
Proof. intros Hreach. exact (inv_running _ (reachable_Inv _ Hreach)). Qed.

Lemma running_between_passes_witness : running before_last_leg = true.
Proof.
  apply (running_between_passes before_last_leg).
  exact before_last_leg_reachable.
Defined.

(** ** The number of the episode *)

Lemma loop_episode_step t st st' report :
  loop t st = Some (st', report) →
  episode st'
  = match report with
    | Some _ => u8 (episode st + 1)
    | None => episode st
    end.
Proof.
  unfold loop.
  destruct (running st); cbn [negb]; [|intros [= <- <-]; reflexivity].
  destruct (loop_body t st) as [st1|] eqn:Hbody; [|discriminate].
  cbn [mbind option_bind].
  destruct (loop_body_same_params _ _ _ Hbody)
    as (_ & _ & _ & _ & _ & _ & _ & Hep & _).
  assert (episode (checkEnd (tick_now t) st1).1 = episode st1) as Hce.
  { unfold checkEnd. repeat case_match; reflexivity. }
  destruct (checkEnd (tick_now t) st1) as [st2 [reason|]]; cbn [fst] in Hce.
  - assert (episode (endEpisode (tick_restart t) st2).1
            = u8 (episode st2 + 1)) as Hend.
    { destruct (endEpisode_shape (tick_restart t) st2) as (e & b & ->).
      reflexivity. }
    destruct (endEpisode (tick_restart t) st2) as [st3 summary].
    cbn [fst] in Hend. intros [= <- <-]. congruence.
  - intros [= <- <-]. congruence.
Qed.

(** X24. [episode] is an 8-bit counter that only [startEpisode] advances:
    over a run of [loop] it is the number at the start plus the number of
    episodes that ended, modulo 256; [setup] starts episode 1, so the
    episode that follows 255 ended episodes has the number 0. *)
Theorem episode_counts_mod_256 ticks st st' reports :
  0 <= episode st <= 255 →
  run ticks st = Some (st', reports) →
  episode st' = (episode st + Z.of_nat (length reports)) mod 256.
Proof.
  intros Hep Hrun.
  revert st st' reports Hep Hrun.
  induction ticks as [|t ticks IH]; intros st st' reports Hep Hrun.
  - injection Hrun as <- <-. cbn [length]. rewrite Z.add_0_r.
    symmetry. apply Z.mod_small. lia.
  - cbn [run] in Hrun.
    destruct (loop t st) as [[st1 report]|] eqn:Hloop; [|discriminate].
    cbn [mbind option_bind] in Hrun.
    destruct (run ticks st1) as [[st2 reports']|] eqn:Hrest; [|discriminate].
    cbn [mbind option_bind] in Hrun. injection Hrun as <- <-.
    pose proof (loop_episode_step _ _ _ _ Hloop) as Hstep.
    assert (0 <= episode st1 <= 255) as Hep1.
    { destruct report; rewrite Hstep; [|exact Hep].
      pose proof (u8_range (episode st + 1)). lia. }
    rewrite (IH _ _ _ Hep1 Hrest). rewrite length_app.
    destruct report as [r|]; rewrite Hstep; simpl length.
    + unfold u8. rewrite Zplus_mod_idemp_l. f_equal. lia.
    + f_equal.
Qed.

Lemma episode_counts_mod_256_witness :
  episode after_lost_episode
  = (episode (setup 0 power_on)
     + Z.of_nat (length lost_episode_reports)) mod 256.
Proof.
  apply (episode_counts_mod_256 lost_episode (setup 0 power_on)
           after_lost_episode lost_episode_reports).
  - vm_compute. split; discriminate.
  - vm_compute. reflexivity.
Defined.
